(** * cpptraj: secondary-structure assignment (DSSP) and DBSCAN clustering

    A shallow embedding of [Action_DSSP.cpp] and [Cluster_DBSCAN.cpp],
    with the properties of the analysis core proved about the embedding;
    and of the double-precision data set of [DataSet_double.cpp] and the
    Amber restraint reader and distance recorder of [Action_NMRrst.cpp].

    Conventions of the embedding:
    - a C++ [double] is a binary64 [float] (Rocq's primitive floats), so
      comparisons, division by zero and NaN behave as on the machine;
    - an [int] is a [Z] where it can be negative (atom indices with the
      absent marker -1, residue offsets such as [resi - 1]) and a [nat]
      where it is a loop index or a container position; where the
      restraint reader adds the offset given by the user to a residue
      number, the sum is the 32-bit sum with its wrap-around;
    - a [std::vector] is a [list], read with [!!!] and written with
      [<[i:=x]>] or [alter]; the source indexes without bounds checks, so
      a well-formed state (all indices in range) is what the source
      assumes, and the embedding leaves an out-of-range write without
      effect;
    - loops are folds over [seq 0 n]; [break] and [continue] are the
      corresponding early exits of the recursive function for the loop. *)

From Stdlib Require Import ZArith Lia Bool.
From Stdlib Require Import Strings.Ascii Strings.String.
From Stdlib Require Import Floats.PrimFloat Floats.SpecFloat Floats.FloatOps Floats.FloatAxioms.
From Stdlib Require Import Sorting.Sorted.
From stdpp Require Import base decidable option list sorting.

Local Open Scope Z_scope.

(** ** Shared helpers *)

#[global] Instance float_inhabited : Inhabited float := populate 0%float.

(** [for (i = 0; i < n; ++i) body] as a fold. *)
Definition for_loop {St : Type} (n : nat) (body : St → nat → St) (s : St) : St :=
  foldl body s (seq 0 n).

(** * Part I: DSSP *)

Module DSSP.

(** Modelled from the spec: the enumeration [SStype] is declared in
    [Action_DSSP.h], which is not among the sources; its members are
    named in [Action_DSSP.cpp] and their order is the order of the
    name table [SSname] and of the spec's list of labels. *)
Inductive SStype : Set :=
  | SECSTRUCT_NULL
  | SECSTRUCT_PARA
  | SECSTRUCT_ANTI
  | SECSTRUCT_3_10
  | SECSTRUCT_ALPHA
  | SECSTRUCT_PI
  | SECSTRUCT_TURN.

#[global] Instance SStype_eq_dec : EqDecision SStype.
Proof. solve_decision. Defined.

(** The integer value of an enumerator, used to index [SSchar],
    [SSname] and [SSprob]. *)
Definition SStype_index (t : SStype) : nat :=
  match t with
  | SECSTRUCT_NULL => 0
  | SECSTRUCT_PARA => 1
  | SECSTRUCT_ANTI => 2
  | SECSTRUCT_3_10 => 3
  | SECSTRUCT_ALPHA => 4
  | SECSTRUCT_PI => 5
  | SECSTRUCT_TURN => 6
  end.

(** [const char DSSP::SSchar[7]] *)
Definition SSchar : list ascii :=
  ["0"; "b"; "B"; "G"; "H"; "I"; "T"]%char.

(** [const char DSSP::SSname[7][6]] *)
Definition SSname : list string :=
  ["None"; "Para"; "Anti"; "3-10"; "Alpha"; "Pi"; "Turn"]%string.

(** One entry of [SecStruct]. The four backbone atoms are atom indices,
    -1 when the residue has no such atom in the mask. *)
Record Residue : Type := mkResidue {
  sstype : SStype;
  isSelected : bool;
  atomC : Z;
  atomO : Z;
  atomN : Z;
  atomH : Z;
  CO_HN_Hbond : list bool;
  SSprob : list float
}.

(** The residue that [DSSP::setup] pushes for a residue not seen before. *)
Definition new_residue (Nres : nat) : Residue :=
  {| sstype := SECSTRUCT_NULL; isSelected := false;
     atomC := -1; atomO := -1; atomN := -1; atomH := -1;
     CO_HN_Hbond := replicate Nres false;
     SSprob := replicate 7 0%float |}.

#[global] Instance Residue_inhabited : Inhabited Residue :=
  populate (new_residue 0).

Definition set_sstype (t : SStype) (r : Residue) : Residue :=
  {| sstype := t; isSelected := isSelected r;
     atomC := atomC r; atomO := atomO r; atomN := atomN r; atomH := atomH r;
     CO_HN_Hbond := CO_HN_Hbond r; SSprob := SSprob r |}.

Definition set_isSelected (b : bool) (r : Residue) : Residue :=
  {| sstype := sstype r; isSelected := b;
     atomC := atomC r; atomO := atomO r; atomN := atomN r; atomH := atomH r;
     CO_HN_Hbond := CO_HN_Hbond r; SSprob := SSprob r |}.

Definition set_atomC (a : Z) (r : Residue) : Residue :=
  {| sstype := sstype r; isSelected := isSelected r;
     atomC := a; atomO := atomO r; atomN := atomN r; atomH := atomH r;
     CO_HN_Hbond := CO_HN_Hbond r; SSprob := SSprob r |}.

Definition set_atomO (a : Z) (r : Residue) : Residue :=
  {| sstype := sstype r; isSelected := isSelected r;
     atomC := atomC r; atomO := a; atomN := atomN r; atomH := atomH r;
     CO_HN_Hbond := CO_HN_Hbond r; SSprob := SSprob r |}.

Definition set_atomN (a : Z) (r : Residue) : Residue :=
  {| sstype := sstype r; isSelected := isSelected r;
     atomC := atomC r; atomO := atomO r; atomN := a; atomH := atomH r;
     CO_HN_Hbond := CO_HN_Hbond r; SSprob := SSprob r |}.

Definition set_atomH (a : Z) (r : Residue) : Residue :=
  {| sstype := sstype r; isSelected := isSelected r;
     atomC := atomC r; atomO := atomO r; atomN := atomN r; atomH := a;
     CO_HN_Hbond := CO_HN_Hbond r; SSprob := SSprob r |}.

Definition set_CO_HN_Hbond (row : list bool) (r : Residue) : Residue :=
  {| sstype := sstype r; isSelected := isSelected r;
     atomC := atomC r; atomO := atomO r; atomN := atomN r; atomH := atomH r;
     CO_HN_Hbond := row; SSprob := SSprob r |}.

Definition set_SSprob (p : list float) (r : Residue) : Residue :=
  {| sstype := sstype r; isSelected := isSelected r;
     atomC := atomC r; atomO := atomO r; atomN := atomN r; atomH := atomH r;
     CO_HN_Hbond := CO_HN_Hbond r; SSprob := p |}.

(** The members of the [DSSP] object that the algorithm reads or writes.
    - [SSdata] is the list of integer data sets of the [nostring] mode
      ([None] for the NULL pointer); an element is the record of one
      [AddData(currentFrame, &sstype)] call: frame, residue, label.
    - [dssp] is the string data set: one line per frame.
    - [SSline] is the output buffer without its terminating NUL.
    - [dsspData] is the data set list filled by [print]: one entry per
      [AddData(resi, &avg)] call, with the structure type it belongs to. *)
Record State : Type := mkState {
  Nres : nat;
  Nframe : float;
  SecStruct : list Residue;
  printString : bool;
  sumOut : option string;
  SSline : list ascii;
  SSdata : option (list (nat * nat * SStype));
  dssp : list (nat * list ascii);
  dsspData : option (list (nat * nat * float))
}.

(** [DSSP::DSSP()] *)
Definition DSSP_new : State :=
  {| Nres := 0; Nframe := 0%float; SecStruct := [];
     printString := true; sumOut := None; SSline := [];
     SSdata := None; dssp := []; dsspData := None |}.

Definition set_SecStruct (l : list Residue) (s : State) : State :=
  {| Nres := Nres s; Nframe := Nframe s; SecStruct := l;
     printString := printString s; sumOut := sumOut s; SSline := SSline s;
     SSdata := SSdata s; dssp := dssp s; dsspData := dsspData s |}.

Definition set_Nres (n : nat) (s : State) : State :=
  {| Nres := n; Nframe := Nframe s; SecStruct := SecStruct s;
     printString := printString s; sumOut := sumOut s; SSline := SSline s;
     SSdata := SSdata s; dssp := dssp s; dsspData := dsspData s |}.

Definition set_Nframe (x : float) (s : State) : State :=
  {| Nres := Nres s; Nframe := x; SecStruct := SecStruct s;
     printString := printString s; sumOut := sumOut s; SSline := SSline s;
     SSdata := SSdata s; dssp := dssp s; dsspData := dsspData s |}.

Definition set_SSline (l : list ascii) (s : State) : State :=
  {| Nres := Nres s; Nframe := Nframe s; SecStruct := SecStruct s;
     printString := printString s; sumOut := sumOut s; SSline := l;
     SSdata := SSdata s; dssp := dssp s; dsspData := dsspData s |}.

Definition set_SSdata (d : option (list (nat * nat * SStype))) (s : State) : State :=
  {| Nres := Nres s; Nframe := Nframe s; SecStruct := SecStruct s;
     printString := printString s; sumOut := sumOut s; SSline := SSline s;
     SSdata := d; dssp := dssp s; dsspData := dsspData s |}.

Definition set_dssp (d : list (nat * list ascii)) (s : State) : State :=
  {| Nres := Nres s; Nframe := Nframe s; SecStruct := SecStruct s;
     printString := printString s; sumOut := sumOut s; SSline := SSline s;
     SSdata := SSdata s; dssp := d; dsspData := dsspData s |}.

Definition set_dsspData (d : option (list (nat * nat * float))) (s : State) : State :=
  {| Nres := Nres s; Nframe := Nframe s; SecStruct := SecStruct s;
     printString := printString s; sumOut := sumOut s; SSline := SSline s;
     SSdata := SSdata s; dssp := dssp s; dsspData := d |}.

(** [SecStruct[res]] *)
Definition res_at (s : State) (res : nat) : Residue := SecStruct s !!! res.

(** [SecStruct[res].field = ...] *)
Definition upd_res (res : nat) (f : Residue → Residue) (s : State) : State :=
  set_SecStruct (alter f res (SecStruct s)) s.

(** The label of a residue. *)
Definition label (s : State) (res : nat) : SStype := sstype (res_at s res).

Definition set_sumOut (f : option string) (s : State) : State :=
  {| Nres := Nres s; Nframe := Nframe s; SecStruct := SecStruct s;
     printString := printString s; sumOut := f; SSline := SSline s;
     SSdata := SSdata s; dssp := dssp s; dsspData := dsspData s |}.

Definition set_printString (b : bool) (s : State) : State :=
  {| Nres := Nres s; Nframe := Nframe s; SecStruct := SecStruct s;
     printString := b; sumOut := sumOut s; SSline := SSline s;
     SSdata := SSdata s; dssp := dssp s; dsspData := dsspData s |}.

(** *** [DSSP::init] *)

(** [int DSSP::init()], given the values of the keywords [out] and
    [sumout] ([None] when the keyword is absent) and the presence of
    [nostring]. The creation of the string data set is taken to
    succeed; [outfilename] only names the output file and is not kept. *)
Definition init (out sumout : option string) (nostring : bool) (s : State) : State :=
  let s1 := match sumout with
            | Some temp => set_sumOut (Some temp) s
            | None => match out with
                      | Some outfilename => set_sumOut (Some (outfilename ++ ".sum")%string) s
                      | None => s
                      end
            end in
  if nostring then set_printString false s1 else s1.

(** *** [DSSP::setup] *)

(** Modelled from the spec: the topology class [AmberParm] and the atom
    mask are external collaborators (the Residue Topology View); of the
    topology, [setup] reads the residue counts, the atom names and the
    atom-to-residue map; of the mask, the list of selected atoms. *)
Record AmberParm : Type := mkParm {
  nres : nat;
  finalSoluteRes : Z;
  names : list string;
  atomToResidue : nat → nat
}.

(** The loop that pushes a fresh residue for every index not yet in
    [SecStruct]. *)
Definition setup_push (n : nat) (s : State) (res : nat) : State :=
  if (length (SecStruct s) <=? res)%nat
  then set_SecStruct (SecStruct s ++ [new_residue n]) s
  else s.

(** The loop over the atoms of the mask. *)
Definition setup_atom (P : AmberParm) (s : State) (atom : nat) : State :=
  let res := atomToResidue P atom in
  let name := nth atom (names P) EmptyString in
  let s1 := upd_res res (set_isSelected true) s in
  if String.eqb name "C   " then upd_res res (set_atomC (Z.of_nat atom)) s1
  else if String.eqb name "O   " then upd_res res (set_atomO (Z.of_nat atom)) s1
  else if String.eqb name "N   " then upd_res res (set_atomN (Z.of_nat atom)) s1
  else if String.eqb name "H   " then upd_res res (set_atomH (Z.of_nat atom)) s1
  else s1.

(** The selected residues below [n], in ascending order. *)
Definition selected_upto (s : State) (n : nat) : list nat :=
  filter (λ res, isSelected (res_at s res) = true) (seq 0 n).

(** The count of the loop [if (SecStruct[res].isSelected) selected++]. *)
Definition count_selected (s : State) : nat :=
  length (selected_upto s (Nres s)).

(** [int DSSP::setup()]: [None] is the return value 1. [Selected] is the
    atom list of the mask after [Mask.SetupMask]. *)
Definition setup (P : AmberParm) (Selected : list nat) (s : State) : option State :=
  if decide (Selected = []) then None
  else
    let n := if (0 <? finalSoluteRes P) then Z.to_nat (finalSoluteRes P) else nres P in
    let s1 := set_Nres n s in
    let s2 := for_loop n (setup_push n) s1 in
    let s3 := foldl (setup_atom P) s2 Selected in
    let selected := count_selected s3 in
    if negb (printString s3)
    then Some (match SSdata s3 with
               | None => set_SSdata (Some []) s3
               | Some _ => s3
               end)
    else Some (set_SSline (resize selected "000"%char (SSline s3)) s3).

(** *** [DSSP::isBonded] and [DSSP::SSassign] *)

(** [int DSSP::isBonded(int res1, int res2)], the result as a [bool]. *)
Definition isBonded (s : State) (res1 res2 : Z) : bool :=
  if res1 <? 0 then false
  else if res2 <? 0 then false
  else if Z.of_nat (Nres s) <=? res1 then false
  else if Z.of_nat (Nres s) <=? res2 then false
  else if negb (isSelected (res_at s (Z.to_nat res1))) then false
  else if negb (isSelected (res_at s (Z.to_nat res2))) then false
  else if default false (CO_HN_Hbond (res_at s (Z.to_nat res1)) !! Z.to_nat res2) then true
  else false.

(** The body of the loop of [SSassign] over the residues [rs]; the
    first case is the [break], the second the [continue]. *)
Fixpoint SSassign_loop (typeIn : SStype) (rs : list nat) (s : State) : State :=
  match rs with
  | [] => s
  | res :: rest =>
    if (res =? Nres s)%nat then s
    else if negb (isSelected (res_at s res)) then SSassign_loop typeIn rest s
    else if decide (sstype (res_at s res) = SECSTRUCT_NULL)
         then SSassign_loop typeIn rest (upd_res res (set_sstype typeIn) s)
         else SSassign_loop typeIn rest s
  end.

(** [void DSSP::SSassign(int res1, int res2, SStype typeIn)], called
    with non-negative residue numbers only. *)
Definition SSassign (res1 res2 : nat) (typeIn : SStype) (s : State) : State :=
  SSassign_loop typeIn (seq res1 (res2 - res1)) s.

(** *** [DSSP::action] *)

Section Action.

(** [DSSP_fac] is defined in [Action_DSSP.h], which is not among the
    sources: the electrostatic factor is a parameter. [DIST] is the
    geometry provider [F->DIST(atom1, atom2)] of the current frame. *)
Variable DSSP_fac : float.
Variable DIST : Z → Z → float.
Variable currentFrame : nat.

(** The Kabsch-Sander energy of the pair C=O, N-H. *)
Definition hbond_energy (C O N H : Z) : float :=
  let rON := DIST O N in
  let rCH := DIST C H in
  let rOH := DIST O H in
  let rCN := DIST C N in
  (DSSP_fac * (1 / rON + 1 / rCH - 1 / rOH - 1 / rCN))%float.

(** Body of the inner loop over [resj]. *)
Definition hbond_pair (resi : nat) (C O : Z) (s : State) (resj : nat) : State :=
  if negb (isSelected (res_at s resj)) then s
  else if (resi =? resj)%nat then s
  else if (atomH (res_at s resj) =? -1) || (atomN (res_at s resj) =? -1) then s
  else
    let N := atomN (res_at s resj) in
    let H := atomH (res_at s resj) in
    let E := hbond_energy C O N H in
    if (E <? -0.5)%float
    then upd_res resi (λ r, set_CO_HN_Hbond (<[resj := true]> (CO_HN_Hbond r)) r) s
    else s.

(** Body of the outer loop over [resi]: reset, then the row of [resi]. *)
Definition hbond_row (s : State) (resi : nat) : State :=
  if negb (isSelected (res_at s resi)) then s
  else
    let s1 := upd_res resi (λ r, set_CO_HN_Hbond (replicate (Nres s) false)
                                   (set_sstype SECSTRUCT_NULL r)) s in
    if (atomC (res_at s1 resi) =? -1) || (atomO (res_at s1 resi) =? -1) then s1
    else
      let C := atomC (res_at s1 resi) in
      let O := atomO (res_at s1 resi) in
      for_loop (Nres s1) (hbond_pair resi C O) s1.

(** First loop of [action]: the hydrogen-bond matrix of the frame. *)
Definition hbond_pass (s : State) : State :=
  for_loop (Nres s) hbond_row s.

End Action.

(** The beta-sheet scan over [resj]; both assignments [break]. *)
Fixpoint beta_scan (resi : nat) (resjs : list nat) (s : State) : State :=
  match resjs with
  | [] => s
  | resj :: rest =>
    let i := Z.of_nat resi in
    let j := Z.of_nat resj in
    if negb (isSelected (res_at s resj)) then beta_scan resi rest s
    else if 2 <? Z.abs (i - j) then
      if (isBonded s (i - 1) j && isBonded s j (i + 1)) ||
         (isBonded s (j - 1) i && isBonded s i (j + 1))
      then upd_res resi (set_sstype SECSTRUCT_PARA) s
      else if (isBonded s (i - 1) (j + 1) && isBonded s (j - 1) (i + 1)) ||
              (isBonded s i j && isBonded s j i)
      then upd_res resi (set_sstype SECSTRUCT_ANTI) s
      else beta_scan resi rest s
    else beta_scan resi rest s
  end.

(** Body of the second loop of [action] (initial assignment). The pair
    returned by the beta block tells whether its [continue] was taken. *)
Definition ss_residue (s : State) (resi : nat) : State :=
  let i := Z.of_nat resi in
  if negb (isSelected (res_at s resi)) then s
  else if isBonded s (i - 1) (i + 3) && isBonded s i (i + 4)
  then SSassign resi (resi + 4) SECSTRUCT_ALPHA s
  else
    let '(s1, continue) :=
      if decide (sstype (res_at s resi) = SECSTRUCT_NULL)
      then let s' := beta_scan resi (seq 0 (Nres s)) s in
           (s', negb (bool_decide (sstype (res_at s' resi) = SECSTRUCT_NULL)))
      else (s, false) in
    if continue then s1
    else if isBonded s1 (i - 1) (i + 2) && isBonded s1 i (i + 3)
    then SSassign resi (resi + 3) SECSTRUCT_3_10 s1
    else if isBonded s1 (i - 1) (i + 4) && isBonded s1 i (i + 5)
    then SSassign resi (resi + 5) SECSTRUCT_PI s1
    else s1.

(** The scan [for (resj=5; resj > 2; resj--)] of the Turn loop. *)
Fixpoint turn_scan (resi : nat) (spans : list nat) (s : State) : State :=
  match spans with
  | [] => s
  | resj :: rest =>
    if isBonded s (Z.of_nat resi) (Z.of_nat resi + Z.of_nat resj)
    then SSassign (resi + 1) (resi + resj) SECSTRUCT_TURN s
    else turn_scan resi rest s
  end.

(** Body of the third loop of [action] (Turn). *)
Definition turn_residue (s : State) (resi : nat) : State :=
  if negb (isSelected (res_at s resi)) then s
  else turn_scan resi [5; 4; 3]%nat s.

(** The first [n] iterations of the second loop, and of the third. *)
Definition ss_pass_upto (n : nat) (s : State) : State := for_loop n ss_residue s.
Definition turn_pass_upto (n : nat) (s : State) : State := for_loop n turn_residue s.

Definition ss_pass (s : State) : State := ss_pass_upto (Nres s) s.
Definition turn_pass (s : State) : State := turn_pass_upto (Nres s) s.

(** Body of the fourth loop (store data); [resj] is the position in
    [SSline]. *)
Definition store_residue (currentFrame : nat) (acc : State * nat) (resi : nat) : State * nat :=
  let '(s, resj) := acc in
  if negb (isSelected (res_at s resi)) then (s, resj)
  else
    let t := sstype (res_at s resi) in
    let s1 := upd_res resi
                (λ r, set_SSprob (alter (λ x, (x + 1)%float) (SStype_index t) (SSprob r)) r) s in
    match SSdata s1 with
    | Some d => (set_SSdata (Some (d ++ [(currentFrame, resi, t)])) s1, resj)
    | None => (set_SSline (<[resj := nth (SStype_index t) SSchar "000"%char]> (SSline s1)) s1,
               S resj)
    end.

Definition store_pass (currentFrame : nat) (s : State) : State :=
  fst (for_loop (Nres s) (store_residue currentFrame) (s, 0%nat)).

(** [int DSSP::action()] (it always returns 0). *)
Definition action (DSSP_fac : float) (DIST : Z → Z → float) (currentFrame : nat)
    (s : State) : State :=
  let s1 := hbond_pass DSSP_fac DIST s in
  let s2 := ss_pass s1 in
  let s3 := turn_pass s2 in
  let s4 := store_pass currentFrame s3 in
  let s5 := if printString s4
            then set_dssp (dssp s4 ++ [(currentFrame, SSline s4)]) s4
            else s4 in
  set_Nframe (Nframe s5 + 1)%float s5.

(** *** [DSSP::print] *)

(** The averages of one residue: [for (ss=1; ss<7; ss++)]. *)
Definition print_residue (s : State) (resi : nat) : State :=
  if negb (isSelected (res_at s resi)) then s
  else
    foldl (λ st ss,
             let avg := ((SSprob (res_at st resi) !!! ss) / Nframe st)%float in
             match dsspData st with
             | Some d => set_dsspData (Some (d ++ [(resi, ss, avg)])) st
             | None => st
             end)
          s (seq 1 6).

(** [void DSSP::print()]. [SSdata->Sync()] and the data-file set-up
    change nothing of the members modelled. *)
Definition print (s : State) : State :=
  match sumOut s with
  | None => s
  | Some _ =>
    let s1 := set_dsspData (Some []) s in
    for_loop (Nres s1) print_residue s1
  end.

(** ** Definitions used in the statements *)

(** Between two states of one classification, a label is unchanged or
    went from None to a structure type. *)
Definition writes_once (s s' : State) : Prop :=
  ∀ res, label s' res = label s res ∨
         (label s res = SECSTRUCT_NULL ∧ label s' res ≠ SECSTRUCT_NULL).

(** [preserves g s s']: [s'] is [s] with another residue table of the
    same length, in which every residue has the same [g]. *)
Definition preserves {A : Type} (g : Residue → A) (s s' : State) : Prop :=
  s' = set_SecStruct (SecStruct s') s ∧
  length (SecStruct s') = length (SecStruct s) ∧
  ∀ r, g (res_at s' r) = g (res_at s r).

(** Everything of a residue but its label. *)
Definition but_label (r : Residue) :=
  (isSelected r, atomC r, atomO r, atomN r, atomH r, CO_HN_Hbond r, SSprob r).

(** Everything of a residue but its label and its bond row. *)
Definition backbone (r : Residue) :=
  (isSelected r, atomC r, atomO r, atomN r, atomH r, SSprob r).

(** The span that the spec selects for residue [resi]: the first of 5,
    4, 3 with a hydrogen bond from [resi] to [resi + span]. *)
Definition turn_span (s : State) (resi : nat) : option nat :=
  find (λ span, isBonded s (Z.of_nat resi) (Z.of_nat resi + Z.of_nat span)) [5; 4; 3]%nat.

(** The Turn rule as the spec words it: every residue strictly between
    [resi] and [resi + span] whose label is None becomes Turn. *)
Definition turn_rule_as_stated (s : State) (resi : nat) : Prop :=
  ∀ span r, turn_span s resi = Some span →
    (resi + 1 ≤ r ≤ resi + span - 1)%nat →
    label s r = SECSTRUCT_NULL →
    label (turn_residue s resi) r = SECSTRUCT_TURN.

(** The fixed mapping from labels to characters. *)
Definition SScode (t : SStype) : ascii :=
  match t with
  | SECSTRUCT_NULL => "0"
  | SECSTRUCT_PARA => "b"
  | SECSTRUCT_ANTI => "B"
  | SECSTRUCT_3_10 => "G"
  | SECSTRUCT_ALPHA => "H"
  | SECSTRUCT_PI => "I"
  | SECSTRUCT_TURN => "T"
  end%char.

(** The labels of the selected residues, in ascending residue order. *)
Definition selected_labels (s : State) : list SStype :=
  label s <$> selected_upto s (Nres s).

(** The entry [SecStruct[i].CO_HN_Hbond[j]]. *)
Definition hbond_entry (s : State) (i j : nat) : bool :=
  default false (CO_HN_Hbond (res_at s i) !! j).

(** The conditions under which the inner loop sets the entry for
    [resj = j]: the three [continue]s are not taken and the energy is
    below the threshold. *)
Definition hbond_pair_test (fac : float) (DIST : Z → Z → float) (s : State)
    (i j : nat) (C O : Z) : bool :=
  isSelected (res_at s j) && negb (i =? j)%nat &&
  negb ((atomH (res_at s j) =? -1) || (atomN (res_at s j) =? -1)) &&
  (hbond_energy fac DIST C O (atomN (res_at s j)) (atomH (res_at s j)) <? -0.5)%float.

(** The entry that the hydrogen-bond computation leaves in row [i] of a
    selected residue. *)
Definition hbond_expected (fac : float) (DIST : Z → Z → float) (s : State) (i j : nat) : bool :=
  negb ((atomC (res_at s i) =? -1) || (atomO (res_at s i) =? -1)) &&
  (j <? Nres s)%nat &&
  hbond_pair_test fac DIST s i j (atomC (res_at s i)) (atomO (res_at s i)).

(** The values that [print] appends for one residue. *)
Definition print_entries (s : State) (resi : nat) : list (nat * nat * float) :=
  if isSelected (res_at s resi)
  then map (λ ss, (resi, ss, (SSprob (res_at s resi) !!! ss / Nframe s)%float)) (seq 1 6)
  else [].

(** C2 as stated: with a frame counter of zero, no value that [print]
    emits is NaN or infinite. *)
Definition print_guards_zero_frames (s : State) : Prop :=
  Nframe s = 0%float →
  ∀ d resi ss avg, dsspData (print s) = Some d → (resi, ss, avg) ∈ d →
    is_nan avg = false ∧ is_infinity avg = false.

(** ** A worked example *)

(** A four-residue chain used in the examples: the backbone C and O of
    residue 0, one atom of residue 1 and of residue 2, the backbone N
    and H of residue 3. *)
Definition example_parm : AmberParm :=
  {| nres := 4; finalSoluteRes := 0;
     names := ["C   "; "O   "; "CA  "; "CA  "; "N   "; "H   "]%string;
     atomToResidue := λ atom, match atom with
                              | 0 | 1 => 0 | 2 => 1 | 3 => 2 | _ => 3
                              end%nat |}.

(** Distances of a frame in which the C=O of residue 0 accepts the N-H
    of residue 3: O-N 3, C-H 3.25, O-H 2, C-N 4.25, all others 10. *)
Definition example_DIST (a b : Z) : float :=
  match a, b with
  | 1, 4 => 3
  | 0, 5 => 3.25
  | 1, 5 => 2
  | 0, 4 => 4.25
  | _, _ => 10
  end%float.

(** The electrostatic factor of the examples, 0.42 * 0.20 * 332
    rounded to a binary64 value. *)
Definition example_fac : float := 0x1.be353f7ced917p+4%float.

(** The state after [setup] with a mask that selects all atoms but the
    one of residue 1, and the state after the hydrogen-bond
    computation of the example frame. *)
Definition example_gap_setup : State :=
  default DSSP_new (setup example_parm [0; 1; 3; 4; 5]%nat DSSP_new).

Definition example_gap_state : State :=
  hbond_pass example_fac example_DIST example_gap_setup.

(** The same with a mask that selects every atom. *)
Definition example_setup : State :=
  default DSSP_new (setup example_parm [0; 1; 2; 3; 4; 5]%nat DSSP_new).

Definition example_state : State :=
  hbond_pass example_fac example_DIST example_setup.

(** A run that reaches [print] without a frame: [init] with
    [sumout dssp.sum], then [setup] on the example chain. *)
Definition example_no_frames : State :=
  match setup example_parm [0; 1; 2; 3; 4; 5]%nat
              (init None (Some "dssp.sum"%string) false DSSP_new) with
  | Some s => s
  | None => DSSP_new
  end.


(** ** Definitions used in the further properties *)

(** Everything of a residue but its counters. *)
Definition but_counts (r : Residue) :=
  (sstype r, isSelected r, atomC r, atomO r, atomN r, atomH r, CO_HN_Hbond r).

(** What [setup] fixes of a residue: the selection flag and the
    backbone atoms. *)
Definition setup_of (r : Residue) :=
  (isSelected r, atomC r, atomO r, atomN r, atomH r).

(** A residue that the loops of [action] pass over: not selected, or at
    or beyond [Nres]. *)
Definition skipped (s : State) (r : nat) : Prop :=
  isSelected (res_at s r) = false ∨ (Nres s ≤ r)%nat.

(** The increment [SSprob[sstype]++]. *)
Definition count_label (t : SStype) (p : list float) : list float :=
  alter (λ x, (x + 1)%float) (SStype_index t) p.

(** The example chain set up in integer mode ([nostring]). *)
Definition example_nostring : State :=
  default DSSP_new
    (setup example_parm [0; 1; 2; 3; 4; 5]%nat (init None None true DSSP_new)).

(** The hydrogen-bond patterns that the assignment loop tests: the
    start of a helix of type [t] at residue [resi], and the parallel
    and the anti-parallel bridge between [resi] and [resj]. *)
Definition helix_start (s : State) (t : SStype) (resi : nat) : bool :=
  let i := Z.of_nat resi in
  match t with
  | SECSTRUCT_ALPHA => isBonded s (i - 1) (i + 3) && isBonded s i (i + 4)
  | SECSTRUCT_3_10 => isBonded s (i - 1) (i + 2) && isBonded s i (i + 3)
  | SECSTRUCT_PI => isBonded s (i - 1) (i + 4) && isBonded s i (i + 5)
  | _ => false
  end.

(** The number of residues that a helix start labels. *)
Definition helix_length (t : SStype) : nat :=
  match t with
  | SECSTRUCT_ALPHA => 4
  | SECSTRUCT_3_10 => 3
  | SECSTRUCT_PI => 5
  | _ => 0
  end.

Definition para_pair (s : State) (resi resj : nat) : bool :=
  let i := Z.of_nat resi in
  let j := Z.of_nat resj in
  (isBonded s (i - 1) j && isBonded s j (i + 1)) ||
  (isBonded s (j - 1) i && isBonded s i (j + 1)).

Definition anti_pair (s : State) (resi resj : nat) : bool :=
  let i := Z.of_nat resi in
  let j := Z.of_nat resj in
  (isBonded s (i - 1) (j + 1) && isBonded s (j - 1) (i + 1)) ||
  (isBonded s i j && isBonded s j i).

(** The pattern that stands behind the label [t] of residue [r]: a
    helix label needs a helix start at a selected residue at most
    [helix_length t - 1] places before [r]; a bridge label a selected
    partner more than two places away, for Anti one that is no
    parallel partner; Turn a bond from a selected residue before [r]
    to a residue after it, three to five places on. *)
Definition justified (s : State) (r : nat) (t : SStype) : Prop :=
  match t with
  | SECSTRUCT_NULL => True
  | SECSTRUCT_PARA =>
      ∃ j, (j < Nres s)%nat ∧ isSelected (res_at s j) = true ∧
           2 < Z.abs (Z.of_nat r - Z.of_nat j) ∧ para_pair s r j = true
  | SECSTRUCT_ANTI =>
      ∃ j, (j < Nres s)%nat ∧ isSelected (res_at s j) = true ∧
           2 < Z.abs (Z.of_nat r - Z.of_nat j) ∧
           para_pair s r j = false ∧ anti_pair s r j = true
  | SECSTRUCT_TURN =>
      ∃ i span, isSelected (res_at s i) = true ∧ (3 ≤ span ≤ 5)%nat ∧
                (i < r < i + span)%nat ∧
                isBonded s (Z.of_nat i) (Z.of_nat i + Z.of_nat span) = true
  | _ =>
      ∃ i, isSelected (res_at s i) = true ∧ (i ≤ r < i + helix_length t)%nat ∧
           helix_start s t i = true
  end.

(** The three helix labels. *)
Definition is_helix (t : SStype) : bool :=
  match t with
  | SECSTRUCT_ALPHA | SECSTRUCT_3_10 | SECSTRUCT_PI => true
  | _ => false
  end.




(** Two objects with the same setup: the same number of residues and,
    residue by residue, the same selection and backbone atoms. *)
Definition same_setup (s s' : State) : Prop :=
  Nres s = Nres s' ∧ ∀ r, setup_of (res_at s r) = setup_of (res_at s' r).

(** Two states that agree on what the labelling loops read: the number
    of residues, the selection, and the label and bond row of every
    selected residue below [Nres]. *)
Definition agree (s s' : State) : Prop :=
  Nres s = Nres s' ∧
  (∀ r, isSelected (res_at s r) = isSelected (res_at s' r)) ∧
  (∀ r, (r < Nres s)%nat → isSelected (res_at s r) = true →
        label s r = label s' r ∧ ∀ j, hbond_entry s r j = hbond_entry s' r j).

(** A five-residue chain for the helix examples: the backbone C and O
    of residues 0 and 1, one atom of residue 2, the backbone N and H
    of residues 3 and 4; and a frame in which residue 0 is bonded to
    residue 3 and residue 1 to residue 4, so that a 3-10 helix starts
    at residue 1. *)
Definition example_helix_parm : AmberParm :=
  {| nres := 5; finalSoluteRes := 0;
     names := ["C   "; "O   "; "C   "; "O   "; "CA  "; "N   "; "H   "; "N   "; "H   "]%string;
     atomToResidue := λ atom, match atom with
                              | 0 | 1 => 0 | 2 | 3 => 1 | 4 => 2 | 5 | 6 => 3 | _ => 4
                              end%nat |}.

Definition example_helix_DIST (a b : Z) : float :=
  match a, b with
  | 1, 5 | 3, 7 => 3
  | 0, 6 | 2, 8 => 3.25
  | 1, 6 | 3, 8 => 2
  | 0, 5 | 2, 7 => 4.25
  | _, _ => 10
  end%float.

Definition example_helix_setup : State :=
  default DSSP_new (setup example_helix_parm [0; 1; 2; 3; 4; 5; 6; 7; 8]%nat DSSP_new).

(** The example chain after one frame. *)
Definition example_after_frame : State :=
  action example_fac example_DIST 0 example_setup.

End DSSP.

(** * Part II: DBSCAN *)

Module DBSCAN.

(** ** Data *)

(** The three values of [Status_]: the characters 'U', 'N' and 'C' of
    [UNASSIGNED], [NOISE] and [INCLUSTER]. *)
Inductive FrameStatus : Set := UNASSIGNED | NOISE | INCLUSTER.

#[global] Instance FrameStatus_eq_dec : EqDecision FrameStatus.
Proof. solve_decision. Defined.

#[global] Instance FrameStatus_inhabited : Inhabited FrameStatus := populate UNASSIGNED.

(** Modelled from the spec: the pairwise distance matrix
    [FrameDistances_] (class [ClusterMatrix], not among the sources) is
    symmetric, indexed by original frame index, with an ignoring-row
    predicate for sieved frames. It stores one value per unordered
    pair, here [triangle row col] for [row < col]. *)
Record ClusterMatrix : Type := mkMatrix {
  Nframes : nat;
  IgnoringRow : nat → bool;
  triangle : nat → nat → float
}.

Definition GetElement (m : ClusterMatrix) (row col : nat) : float :=
  if (row <? col)%nat then triangle m row col else triangle m col row.

(** Modelled from the spec: the distance/centroid strategy [Cdist_]
    (class [ClusterDist], not among the sources): pairwise frame
    distance, frame-to-centroid distance, centroid distance and
    centroid computation. *)
Class ClusterDist (Centroid : Type) : Type := {
  FrameDist : nat → nat → float;
  FrameCentroidDist : nat → Centroid → float;
  CentroidDist : Centroid → Centroid → float;
  CalculateCentroid : list nat → Centroid
}.

(** Modelled from the spec: a cluster (class [ClusterNode]) is a frame
    list and a cached centroid. *)
Record ClusterNode (Centroid : Type) : Type := mkNode {
  frameList : list nat;
  Cent : Centroid
}.
Arguments mkNode {Centroid}.
Arguments frameList {Centroid}.
Arguments Cent {Centroid}.

(** Modelled from the spec: the arguments of the [dbscan] keyword
    (class [ArgList], not among the sources), as the values that
    [getKeyInt], [getKeyDouble] and [hasKey] find: [None] when the key
    is absent. *)
Record ArgList : Type := mkArgs {
  minpoints : option Z;
  epsilon : option float;
  sievetoframe : bool
}.

Definition getKeyInt (v : option Z) (def : Z) : Z := default def v.
Definition getKeyDouble (v : option float) (def : float) : float := default def v.

(** [DBL_MAX] of [<cfloat>]. *)
Definition DBL_MAX : float := 0x1.fffffffffffffp+1023%float.

(** The members of [Cluster_DBSCAN] and of its base [ClusterList] that
    the algorithm reads or writes. *)
Record State (Centroid : Type) : Type := mkState {
  minPoints_ : Z;
  epsilon_ : float;
  sieveToCentroid_ : bool;
  Status_ : list FrameStatus;
  clusters_ : list (ClusterNode Centroid);
  ClusterDistances_ : list float
}.
Arguments mkState {Centroid}.
Arguments minPoints_ {Centroid}.
Arguments epsilon_ {Centroid}.
Arguments sieveToCentroid_ {Centroid}.
Arguments Status_ {Centroid}.
Arguments clusters_ {Centroid}.
Arguments ClusterDistances_ {Centroid}.

(** [Cluster_DBSCAN::Cluster_DBSCAN()] *)
Definition DBSCAN_new (Centroid : Type) : State Centroid :=
  {| minPoints_ := -1; epsilon_ := (-1)%float; sieveToCentroid_ := true;
     Status_ := []; clusters_ := []; ClusterDistances_ := [] |}.

(** ** [Cluster_DBSCAN::SetupCluster] *)

(** The state and the return value (0 or 1). *)
Definition SetupCluster {Centroid : Type} (analyzeArgs : ArgList) (s : State Centroid)
    : State Centroid * Z :=
  let s1 := {| minPoints_ := getKeyInt (minpoints analyzeArgs) (-1);
               epsilon_ := epsilon_ s; sieveToCentroid_ := sieveToCentroid_ s;
               Status_ := Status_ s; clusters_ := clusters_ s;
               ClusterDistances_ := ClusterDistances_ s |} in
  if minPoints_ s1 <? 1 then (s1, 1)
  else
    let s2 := {| minPoints_ := minPoints_ s1;
                 epsilon_ := getKeyDouble (epsilon analyzeArgs) (-1)%float;
                 sieveToCentroid_ := sieveToCentroid_ s1;
                 Status_ := Status_ s1; clusters_ := clusters_ s1;
                 ClusterDistances_ := ClusterDistances_ s1 |} in
    if (epsilon_ s2 <=? 0)%float then (s2, 1)
    else
      ({| minPoints_ := minPoints_ s2; epsilon_ := epsilon_ s2;
          sieveToCentroid_ := negb (sievetoframe analyzeArgs);
          Status_ := Status_ s2; clusters_ := clusters_ s2;
          ClusterDistances_ := ClusterDistances_ s2 |}, 0).

(** ** [Cluster_DBSCAN::RegionQuery] and [Cluster_DBSCAN::Cluster] *)

(** [std::unique]: drop every element equal to its predecessor. *)
Fixpoint unique (l : list nat) : list nat :=
  match l with
  | [] => []
  | x :: rest =>
    match rest with
    | [] => [x]
    | y :: _ => if (x =? y)%nat then unique rest else x :: unique rest
    end
  end.

(** The locals of [Cluster] that live across the loops, with the two
    members it writes: [Status_] and the frame lists of the clusters
    added by [AddCluster]. *)
Record Work : Type := mkWork {
  Visited : list bool;
  Status : list FrameStatus;
  cluster_frames : list nat;
  clusters : list (list nat)
}.

Definition visited (w : Work) (frame : nat) : bool :=
  default false (Visited w !! frame).

Definition status (w : Work) (frame : nat) : FrameStatus := Status w !!! frame.

Definition set_Visited (frame : nat) (w : Work) : Work :=
  {| Visited := <[frame := true]> (Visited w); Status := Status w;
     cluster_frames := cluster_frames w; clusters := clusters w |}.

Definition set_Status (frame : nat) (v : FrameStatus) (w : Work) : Work :=
  {| Visited := Visited w; Status := <[frame := v]> (Status w);
     cluster_frames := cluster_frames w; clusters := clusters w |}.

Definition set_cluster_frames (l : list nat) (w : Work) : Work :=
  {| Visited := Visited w; Status := Status w;
     cluster_frames := l; clusters := clusters w |}.

(** [AddCluster(cluster_frames)] *)
Definition AddCluster (l : list nat) (w : Work) : Work :=
  {| Visited := Visited w; Status := Status w;
     cluster_frames := cluster_frames w; clusters := clusters w ++ [l] |}.

Section Cluster.

Variable FrameDistances_ : ClusterMatrix.
Variable minPoints : Z.
Variable eps : float.

(** The frames that are clustered: those whose row is not ignored. *)
Definition FramesToCluster : list nat :=
  filter (λ frame, IgnoringRow FrameDistances_ frame = false)
         (seq 0 (Nframes FrameDistances_)).

(** [RegionQuery(NeighborPts, FramesToCluster, point)]: the new
    contents of [NeighborPts]. *)
Definition RegionQuery (point : nat) : list nat :=
  filter (λ otherpoint, point ≠ otherpoint ∧
                        (GetElement FrameDistances_ point otherpoint <? eps)%float = true)
         FramesToCluster.

(** [if (Status_[neighbor_pt] != INCLUSTER) { ... }] *)
Definition add_neighbor (neighbor_pt : nat) (w : Work) : Work :=
  if decide (status w neighbor_pt ≠ INCLUSTER)
  then set_Status neighbor_pt INCLUSTER
         (set_cluster_frames (cluster_frames w ++ [neighbor_pt]) w)
  else w.

(** The expansion loop [for (idx = 0; idx < endidx; ++idx)] over the
    growing [NeighborPts], as a loop over the part of [NeighborPts]
    not yet read. A step that finds an unvisited neighbour uses one
    unit of [fuel]; [None] is the result when none is left. *)
Fixpoint expand (fuel : nat) : list nat → Work → option Work :=
  fix go (NeighborPts : list nat) (w : Work) : option Work :=
    match NeighborPts with
    | [] => Some w
    | neighbor_pt :: rest =>
      if visited w neighbor_pt
      then go rest (add_neighbor neighbor_pt w)
      else
        match fuel with
        | O => None
        | S fuel' =>
          let w1 := set_Visited neighbor_pt w in
          let Npts2 := RegionQuery neighbor_pt in
          let rest' := if minPoints <=? Z.of_nat (length Npts2)
                       then rest ++ Npts2 else rest in
          expand fuel' rest' (add_neighbor neighbor_pt w1)
        end
    end.

(** Body of the loop over [FramesToCluster]. The fuel of the expansion
    is the number of frames: every unit marks a frame visited. *)
Definition cluster_point (w : Work) (point : nat) : option Work :=
  if visited w point then Some w
  else
    let w1 := set_Visited point w in
    let NeighborPts := RegionQuery point in
    if Z.of_nat (length NeighborPts) <? minPoints
    then Some (set_Status point NOISE w1)
    else
      match expand (Nframes FrameDistances_) NeighborPts
                   (set_cluster_frames [point] w1) with
      | None => None
      | Some w2 =>
        Some (AddCluster (unique (merge_sort Nat.le (cluster_frames w2))) w2)
      end.

(** The loop over the points [pts]. *)
Definition cluster_loop (pts : list nat) (w : Work) : option Work :=
  foldl (λ ow point, ow ≫= λ w', cluster_point w' point) (Some w) pts.

(** The state of the locals before the loop. *)
Definition initial_work : Work :=
  {| Visited := replicate (Nframes FrameDistances_) false;
     Status := replicate (Nframes FrameDistances_) UNASSIGNED;
     cluster_frames := []; clusters := [] |}.

(** The state after the first [k] iterations of the loop. *)
Definition cluster_upto (k : nat) : option Work :=
  cluster_loop (take k FramesToCluster) initial_work.

(** The loop of [Cluster] run to its end. *)
Definition cluster_work : option Work :=
  cluster_loop FramesToCluster initial_work.

End Cluster.

(** The upper triangle of centroid distances, row by row. *)
Fixpoint centroid_distances {Centroid : Type} `{!ClusterDist Centroid}
    (l : list (ClusterNode Centroid)) : list float :=
  match l with
  | [] => []
  | C1 :: rest =>
    map (λ C2, CentroidDist (Cent C1) (Cent C2)) rest ++ centroid_distances rest
  end.

(** [int Cluster_DBSCAN::Cluster()], called on an object without
    clusters; [None] stands for an expansion that ran out of fuel. *)
Definition Cluster {Centroid : Type} `{!ClusterDist Centroid}
    (FrameDistances_ : ClusterMatrix) (s : State Centroid) : option (State Centroid) :=
  match cluster_work FrameDistances_ (minPoints_ s) (epsilon_ s) with
  | None => None
  | Some w =>
    let nodes := map (λ l, mkNode l (CalculateCentroid l)) (clusters w) in
    Some {| minPoints_ := minPoints_ s; epsilon_ := epsilon_ s;
            sieveToCentroid_ := sieveToCentroid_ s;
            Status_ := Status w;
            clusters_ := nodes;
            ClusterDistances_ := centroid_distances nodes |}
  end.

(** ** [Cluster_DBSCAN::ClusterResults] *)

(** The frame numbers printed after [#NOISE_FRAMES:]. *)
Definition ClusterResults {Centroid : Type} (s : State Centroid) : list nat :=
  omap (λ '(i, stat), if decide (stat = NOISE) then Some (i + 1)%nat else None)
       (imap (λ i stat, (i, stat)) (Status_ s)).

(** ** [Cluster_DBSCAN::AddSievedFrames] *)

Section Sieve.

Context {Centroid : Type} `{!ClusterDist Centroid}.
Variable FrameDistances_ : ClusterMatrix.

(** The loop over [Cnode] that finds the closest centroid, from the
    cluster at position [idx] on. [minNode] is the position of a
    cluster, or [None] for [clusters_.end()]. *)
Fixpoint closest_from (frame idx : nat) (cls : list (ClusterNode Centroid))
    (acc : float * option nat) : float * option nat :=
  match cls with
  | [] => acc
  | Cnode :: rest =>
    let dist := FrameCentroidDist frame (Cent Cnode) in
    closest_from frame (S idx) rest
      (if (dist <? fst acc)%float then (dist, Some idx) else acc)
  end.

Definition closest_centroid (frame : nat) (cls : list (ClusterNode Centroid))
    : float * option nat :=
  closest_from frame 0 cls (DBL_MAX, None).

(** The decision for one sieved frame: [Some minNode] when [goodFrame]
    is set, [Some None] when the frame is discarded as noise. When the
    member loop is reached with [minNode == clusters_.end()] the source
    dereferences the end iterator; the behaviour is undefined, and the
    result here is [None]. *)
Definition sieve_frame (s : State Centroid) (frame : nat) : option (option nat) :=
  let '(mindist, minNode) := closest_centroid frame (clusters_ s) in
  if sieveToCentroid_ s || (mindist <? epsilon_ s)%float
  then Some minNode
  else
    match minNode with
    | None => None
    | Some c =>
      match clusters_ s !! c with
      | None => None
      | Some node =>
        if existsb (λ m, (FrameDist frame m <? epsilon_ s)%float) (frameList node)
        then Some (Some c)
        else Some None
      end
    end.

(** The temporary array [frameToCluster]: an entry per frame, [None]
    for [clusters_.end()]. *)
Definition frameToCluster (s : State Centroid) : option (list (option nat)) :=
  mapM (λ frame, if IgnoringRow FrameDistances_ frame
                 then sieve_frame s frame else Some None)
       (seq 0 (Nframes FrameDistances_)).

(** Modelled from the spec: [ClusterNode::AddFrameToCluster] (not among
    the sources) appends the frame to the frame list. *)
Definition AddFrameToCluster (frame : nat) (node : ClusterNode Centroid)
    : ClusterNode Centroid :=
  {| frameList := frameList node ++ [frame]; Cent := Cent node |}.

(** Body of the last loop: add the frame to its cluster, if any. *)
Definition add_sieved (cls : list (ClusterNode Centroid)) (ft : nat * option nat)
    : list (ClusterNode Centroid) :=
  match snd ft with
  | Some c => alter (AddFrameToCluster (fst ft)) c cls
  | None => cls
  end.

(** [void Cluster_DBSCAN::AddSievedFrames()]; [None] when some frame
    reaches the undefined case of [sieve_frame]. *)
Definition AddSievedFrames (s : State Centroid) : option (State Centroid) :=
  match frameToCluster s with
  | None => None
  | Some targets =>
    Some {| minPoints_ := minPoints_ s; epsilon_ := epsilon_ s;
            sieveToCentroid_ := sieveToCentroid_ s;
            Status_ := Status_ s;
            clusters_ := foldl add_sieved (clusters_ s)
                           (zip (seq 0 (Nframes FrameDistances_)) targets);
            ClusterDistances_ := ClusterDistances_ s |}
  end.

End Sieve.

(** ** Definitions used in the statements *)

(** The number of clusters that contain a frame. *)
Definition owners (f : nat) (cls : list (list nat)) : nat :=
  length (filter (λ cl, f ∈ cl) cls).

(** The order of the statuses along a run: Unassigned, then Noise,
    then InCluster. *)
Definition status_le (a b : FrameStatus) : Prop :=
  match a, b with
  | UNASSIGNED, _ => True
  | NOISE, (NOISE | INCLUSTER) => True
  | INCLUSTER, INCLUSTER => True
  | _, _ => False
  end.

(** The moves of a status that the code makes: from Unassigned to
    Noise or InCluster, and from Noise to InCluster. *)
Definition allowed_move (a b : FrameStatus) : Prop :=
  b = a ∨ (a = UNASSIGNED ∧ b = NOISE) ∨ (a = UNASSIGNED ∧ b = INCLUSTER) ∨
  (a = NOISE ∧ b = INCLUSTER).

Section ClusterInvariant.

Variable M : ClusterMatrix.
Variable minPoints : Z.
Variable eps : float.

Local Abbreviation FTC := (FramesToCluster M).
Local Abbreviation nb := (RegionQuery M eps).

(** A core point has at least [minPoints] neighbours. *)
Definition core (p : nat) : Prop := minPoints ≤ Z.of_nat (length (nb p)).

(** The clustered frames not yet visited. *)
Definition unvisited_count (w : Work) : nat :=
  length (filter (λ f, visited w f = false) FTC).

(** The invariant of the loop over [FramesToCluster]. *)
Record OInv (w : Work) : Prop := mkOInv {
  o_len_v : length (Visited w) = Nframes M;
  o_len_s : length (Status w) = Nframes M;
  o_vis_ftc : ∀ f, visited w f = true → f ∈ FTC;
  o_unvis : ∀ f, visited w f = false →
              status w f = UNASSIGNED ∧ owners f (clusters w) = 0%nat;
  o_noise : ∀ f, status w f = NOISE → ¬ core f ∧ owners f (clusters w) = 0%nat;
  o_inclu : ∀ f, status w f = INCLUSTER →
              owners f (clusters w) = 1%nat ∧
              ∃ c, visited w c = true ∧ core c ∧ f ∈ nb c;
  o_seed : ∀ f, visited w f = true → status w f = UNASSIGNED →
             core f ∧ owners f (clusters w) = 1%nat;
  o_core : ∀ c, visited w c = true → core c →
             ∀ x, x ∈ nb c → status w x = INCLUSTER
}.

(** The invariant of the expansion loop: [w0] is the state before the
    iteration for the seed [p], [Q] the part of [NeighborPts] not yet
    read. *)
Record IInv (w0 : Work) (p : nat) (Q : list nat) (w : Work) : Prop := mkIInv {
  i_base : OInv w0;
  i_p0 : visited w0 p = false;
  i_pftc : p ∈ FTC;
  i_len_v : length (Visited w) = Nframes M;
  i_len_s : length (Status w) = Nframes M;
  i_cls : clusters w = clusters w0;
  i_vis_ftc : ∀ f, visited w f = true → f ∈ FTC;
  i_mono_v : ∀ f, visited w0 f = true → visited w f = true;
  i_p_vis : visited w p = true;
  i_p_core : core p;
  i_p_in : p ∈ cluster_frames w;
  i_unvis : ∀ f, visited w f = false →
              status w f = UNASSIGNED ∧ f ∉ cluster_frames w;
  i_noise : ∀ f, status w f = NOISE →
              status w0 f = NOISE ∧ f ∉ cluster_frames w;
  i_inclu : ∀ f, status w f = INCLUSTER →
              ((status w0 f = INCLUSTER ∧ f ∉ cluster_frames w) ∨
               (status w0 f ≠ INCLUSTER ∧ owners f (clusters w0) = 0%nat ∧
                f ∈ cluster_frames w)) ∧
              ∃ c, visited w c = true ∧ core c ∧ f ∈ nb c;
  i_unass : ∀ f, visited w f = true → status w f = UNASSIGNED →
              f = p ∨ (visited w0 f = true ∧ status w0 f = UNASSIGNED ∧
                       f ∉ cluster_frames w);
  i_core : ∀ c, visited w c = true → core c →
             ∀ x, x ∈ nb c → status w x = INCLUSTER ∨ x ∈ Q;
  i_queue : ∀ x, x ∈ Q →
              ∃ c, visited w0 c = false ∧ visited w c = true ∧ core c ∧ x ∈ nb c;
  i_smono : ∀ f, status_le (status w0 f) (status w f)
}.

End ClusterInvariant.

Arguments o_len_v {M minPoints eps}.
Arguments o_len_s {M minPoints eps}.
Arguments o_vis_ftc {M minPoints eps}.
Arguments o_unvis {M minPoints eps}.
Arguments o_noise {M minPoints eps}.
Arguments o_inclu {M minPoints eps}.
Arguments o_seed {M minPoints eps}.
Arguments o_core {M minPoints eps}.
Arguments i_base {M minPoints eps}.
Arguments i_p0 {M minPoints eps}.
Arguments i_pftc {M minPoints eps}.
Arguments i_len_v {M minPoints eps}.
Arguments i_len_s {M minPoints eps}.
Arguments i_cls {M minPoints eps}.
Arguments i_vis_ftc {M minPoints eps}.
Arguments i_mono_v {M minPoints eps}.
Arguments i_p_vis {M minPoints eps}.
Arguments i_p_core {M minPoints eps}.
Arguments i_p_in {M minPoints eps}.
Arguments i_unvis {M minPoints eps}.
Arguments i_noise {M minPoints eps}.
Arguments i_inclu {M minPoints eps}.
Arguments i_unass {M minPoints eps}.
Arguments i_core {M minPoints eps}.
Arguments i_queue {M minPoints eps}.
Arguments i_smono {M minPoints eps}.

(** C1's rule for the moves as stated: between two points of a run a
    status changes only if it was Unassigned. *)
Definition moves_only_from_unassigned (M : ClusterMatrix) (minPoints : Z) (eps : float)
    : Prop :=
  ∀ j d wj wk f,
    cluster_upto M minPoints eps j = Some wj →
    cluster_upto M minPoints eps (j + d) = Some wk →
    status wk f ≠ status wj f → status wj f = UNASSIGNED.

(** The number of frames with status InCluster. *)
Definition incluster_count {Centroid : Type} (s : State Centroid) : nat :=
  length (filter (λ stat, stat = INCLUSTER) (Status_ s)).

(** The argument sets that the spec rejects: [minpoints] missing or
    less than 1, or [epsilon] missing or at most 0. *)
Definition invalid_args (a : ArgList) : Prop :=
  match minpoints a with None => True | Some n => n < 1 end ∨
  match epsilon a with None => True | Some e => (e <=? 0)%float = true end.

(** ** A worked example *)

(** Three frames in a row: 0 and 1, and 1 and 2, are 0.5 apart, 0 and 2
    are 2 apart; no frame is sieved. *)
Definition example_row : ClusterMatrix :=
  {| Nframes := 3; IgnoringRow := λ _, false;
     triangle := λ i j, match i, j with
                        | 0%nat, 2%nat => 2
                        | _, _ => 0.5
                        end%float |}.

(** Five frames on a line at 0, 0.5, 1, 5 and 1.25; the last two are
    sieved. The centroid of a cluster is its first frame. *)
Definition example_coord (frame : nat) : float :=
  match frame with
  | 0%nat => 0
  | 1%nat => 0.5
  | 2%nat => 1
  | 3%nat => 5
  | _ => 1.25
  end%float.

Definition example_dist (i j : nat) : float :=
  abs (example_coord i - example_coord j)%float.

#[export] Instance example_Cdist : ClusterDist nat :=
  {| FrameDist := example_dist;
     FrameCentroidDist := example_dist;
     CentroidDist := example_dist;
     CalculateCentroid := λ l, hd 0%nat l |}.

Definition example_sieved : ClusterMatrix :=
  {| Nframes := 5; IgnoringRow := λ frame, (3 <=? frame)%nat; triangle := example_dist |}.

(** [dbscan minpoints 2 epsilon 1 sievetoframe], and the same with
    epsilon 3. *)
Definition example_config : State nat :=
  fst (SetupCluster {| minpoints := Some 2; epsilon := Some 1%float; sievetoframe := true |}
         (DBSCAN_new nat)).

Definition example_config_wide : State nat :=
  fst (SetupCluster {| minpoints := Some 2; epsilon := Some 3%float; sievetoframe := true |}
         (DBSCAN_new nat)).

Definition example_clustered : State nat :=
  default (DBSCAN_new nat) (Cluster example_sieved example_config).

Definition example_restored : State nat :=
  default (DBSCAN_new nat) (AddSievedFrames example_sieved example_clustered).


(** ** Definitions used in the further properties *)

(** A frame within [eps] of a clustered core frame. *)
Definition near_core (M : ClusterMatrix) (minPoints : Z) (eps : float) (f : nat) : Prop :=
  ∃ c, c ∈ FramesToCluster M ∧ core M minPoints eps c ∧ f ∈ RegionQuery M eps c.

(** Density-reachability from [p]: a chain of core frames, each within
    [eps] of the next frame of the chain, leads from [p] to the frame. *)
Inductive reachable (M : ClusterMatrix) (minPoints : Z) (eps : float) (p : nat)
    : nat → Prop :=
  | reach_seed : reachable M minPoints eps p p
  | reach_step (c f : nat) :
      reachable M minPoints eps p c → core M minPoints eps c →
      f ∈ RegionQuery M eps c → reachable M minPoints eps p f.

(** The shape of a cluster as [Cluster] records it: the frame list is
    strictly ascending, and it holds a clustered core frame from which
    all its frames are density-reachable. *)
Definition recorded (M : ClusterMatrix) (minPoints : Z) (eps : float) (cl : list nat)
    : Prop :=
  StronglySorted lt cl ∧
  ∃ p, p ∈ cl ∧ p ∈ FramesToCluster M ∧ core M minPoints eps p ∧
       ∀ f, f ∈ cl → reachable M minPoints eps p f.

(** The example of the sieved frames under the centroid-only policy:
    [dbscan minpoints 2 epsilon 1]. *)
Definition example_config_centroid : State nat :=
  fst (SetupCluster {| minpoints := Some 2; epsilon := Some 1%float; sievetoframe := false |}
         (DBSCAN_new nat)).

Definition example_clustered_centroid : State nat :=
  default (DBSCAN_new nat) (Cluster example_sieved example_config_centroid).

End DBSCAN.

(** * Part III: Data sets of doubles and NMR restraints *)

Module DataSet_double.

(** [DataSet_double.cpp]: a one-dimensional set of doubles, the
    vector [Data_]. *)

(** [void DataSet_double::Add(size_t frame, const void* vIn)] *)
Definition Add (frame : nat) (vIn : float) (Data_ : list float) : list float :=
  let Data1 := if (length Data_ <? frame)%nat then resize frame 0%float Data_ else Data_ in
  Data1 ++ [vIn].

(** [void DataSet_double::WriteBuffer(cbuffer, frame)]: the value that
    is printed with the format of the set. *)
Definition WriteBuffer (frame : nat) (Data_ : list float) : float :=
  if (length Data_ <=? frame)%nat then 0%float else Data_ !!! frame.

(** [DataSet.h] is not among the sources. Of its argument [Append]
    reads [Empty()], whether [Group()] is [SCALAR_1D], whether
    [Type()] is [DOUBLE], and then the vector [Data_] of a
    [DataSet_double], or [Size()] and [Dval(i)] of another
    one-dimensional set: the fields of this record. *)
Record DataSetArg : Type := mkArg {
  Empty : bool;
  is_SCALAR_1D : bool;
  is_DOUBLE : bool;
  Data_in : list float;
  Size : nat;
  Dval : nat → float
}.

(** [std::copy(first, last, Data_.begin() + oldsize)]: element by
    element into the places from [oldsize] on. *)
Definition copy_at (oldsize : nat) (dataIn : list float) (Data_ : list float) : list float :=
  fst (foldl (λ '(d, i) x, (<[i := x]> d, S i)) (Data_, oldsize) dataIn).

(** [int DataSet_double::Append(DataSet* dsIn)]: the data and the
    return value. *)
Definition Append (dsIn : DataSetArg) (Data_ : list float) : list float * Z :=
  if Empty dsIn then (Data_, 0)
  else if negb (is_SCALAR_1D dsIn) then (Data_, 1)
  else if is_DOUBLE dsIn then
    let oldsize := length Data_ in
    let dataIn := Data_in dsIn in
    (copy_at oldsize dataIn (resize (oldsize + length dataIn) 0%float Data_), 0)
  else
    (for_loop (Size dsIn) (λ d i, d ++ [Dval dsIn i]) Data_, 0).

(** The values of a set that are added frame by frame, from frame
    [first] on. *)
Definition add_frames (first : nat) (values : list float) (Data_ : list float) : list float :=
  fst (foldl (λ '(d, frame) v, (Add frame v d, S frame)) (Data_, first) values).

End DataSet_double.

Module NMRrst.

(** [Action_NMRrst.cpp]: the reader of Amber/DIANA restraint files
    and the recording of the restraint distances. *)

(** The members of [noeDataType] that the reader sets. The data set
    pointer [dist_] is 0 after reading; the masks and [active_] are
    set later. *)
Record noeDataType : Type := mkNOE {
  resNum1_ : Z;
  resNum2_ : Z;
  aName1_ : string;
  aName2_ : string;
  bound_ : float;
  boundh_ : float;
  rexp_ : float
}.

(** [static inline bool SkipChar(const char* ptr)] for a line that was
    read ([ptr != 0]): the first character is [#], [!], a line feed or
    a carriage return. The first character of an empty line is the
    terminating NUL, which is none of them. *)
Definition SkipChar (ptr : string) : bool :=
  match ptr with
  | String c _ =>
    Ascii.eqb c "#" || Ascii.eqb c "!" || Ascii.eqb c "010" || Ascii.eqb c "013"
  | EmptyString => false
  end.

(** What [sscanf(ptr, "%d %s %s %d %s %s %lf %lf", ...)] delivers for a
    line: the number of fields converted and the fields that the
    reader uses (the two residue names are read and dropped). With 7
    or 8 fields converted all but the last are set, and the last is
    used for 8 only. *)
Record Scan : Type := mkScan {
  cols : Z;
  scan_resNum1 : Z;
  scan_aname1 : string;
  scan_resNum2 : Z;
  scan_aname2 : string;
  l_bound : float;
  u_bound : float
}.

(** [INT_MIN] and [INT_MAX] of [<climits>]: an [int] has 32 bits. *)
Definition INT_MIN : Z := -2147483648.
Definition INT_MAX : Z := 2147483647.

(** [a += b] on [int]s: the sum on 32 bits in two's complement, which
    wraps around beyond [INT_MAX] and below [INT_MIN]. *)
Definition int_add (a b : Z) : Z := (a + b + 2 ^ 31) mod 2 ^ 32 - 2 ^ 31.

Section Reader.

(** The library function, and the member [resOffset_]. *)
Variable sscanf : string → Scan.
Variable resOffset_ : Z.

(** The restraint of a line with 7 or 8 columns, before the check of
    the residue numbers: [NOE.resNum1_ += resOffset_] and
    [NOE.resNum2_ += resOffset_] are additions of [int]s. *)
Definition scanned_NOE (sc : Scan) : noeDataType :=
  {| resNum1_ := int_add (scan_resNum1 sc) resOffset_;
     resNum2_ := int_add (scan_resNum2 sc) resOffset_;
     aName1_ := scan_aname1 sc;
     aName2_ := scan_aname2 sc;
     bound_ := if cols sc =? 7 then 0%float else l_bound sc;
     boundh_ := if cols sc =? 7 then l_bound sc else u_bound sc;
     rexp_ := (-1)%float |}.

(** The loop [while (ptr != 0)] over the lines from [ptr] on: the
    restraints and the return value. *)
Fixpoint ReadAmber_lines (lines : list string) (NOEs_ : list noeDataType)
    : list noeDataType * Z :=
  match lines with
  | [] => (NOEs_, 0)
  | ptr :: rest =>
    if SkipChar ptr then ReadAmber_lines rest NOEs_
    else
      let sc := sscanf ptr in
      if (cols sc =? 7) || (cols sc =? 8) then
        let NOE := scanned_NOE sc in
        if (resNum1_ NOE <? 1) || (resNum2_ NOE <? 1)
        then ReadAmber_lines rest NOEs_
        else ReadAmber_lines rest (NOEs_ ++ [NOE])
      else (NOEs_, 1)
  end.

(** [int Action_NMRrst::ReadAmber(BufferedLine& infile)] on a file
    with the given lines. *)
Definition ReadAmber (lines : list string) (NOEs_ : list noeDataType)
    : list noeDataType * Z :=
  match lines with
  | [] => (NOEs_, 1)
  | _ => ReadAmber_lines lines NOEs_
  end.

End Reader.

(** A line that the reader takes for a restraint, and one that stops
    it. *)
Definition restraint_line (sscanf : string → Scan) (ptr : string) : bool :=
  negb (SkipChar ptr) && ((cols (sscanf ptr) =? 7) || (cols (sscanf ptr) =? 8)).

Definition bad_line (sscanf : string → Scan) (ptr : string) : bool :=
  negb (SkipChar ptr) && negb ((cols (sscanf ptr) =? 7) || (cols (sscanf ptr) =? 8)).

(** [Action_NMRrst::DoAction] for one frame. A restraint is its
    [active_] flag and the data of its set [dist_]; [DIST2 i] is the
    squared distance that the frame gives for restraint [i] (the
    centres and the imaged distance are computed by [Frame] and the
    distance routines, which are not among the sources). *)
Definition DoAction (frameNum : nat) (DIST2 : nat → float)
    (NOEs_ : list (bool * list float)) : list (bool * list float) :=
  imap (λ i (noe : bool * list float),
          if fst noe
          then (fst noe, DataSet_double.Add frameNum (PrimFloat.sqrt (DIST2 i)) (snd noe))
          else noe)
       NOEs_.

(** The frames [first], [first + 1], ... of a run, each with its
    distances. *)
Definition run_frames (first : nat) (frames : list (nat → float))
    (NOEs_ : list (bool * list float)) : list (bool * list float) :=
  fst (foldl (λ '(noes, frameNum) DIST2, (DoAction frameNum DIST2 noes, S frameNum))
             (NOEs_, first) frames).

(** The conversions of four lines, for the examples: a restraint with
    an upper bound, a comment, a restraint whose first residue number
    is 0, and a line that is no restraint. *)
Definition example_sscanf (ptr : string) : Scan :=
  if String.eqb ptr "1 ALA HA 5 GLY H 4.5" then
    {| cols := 7; scan_resNum1 := 1; scan_aname1 := "HA"; scan_resNum2 := 5;
       scan_aname2 := "H"; l_bound := 4.5; u_bound := 0 |}
  else if String.eqb ptr "0 ALA QA 3 GLY H 2.0 5.0" then
    {| cols := 8; scan_resNum1 := 0; scan_aname1 := "QA"; scan_resNum2 := 3;
       scan_aname2 := "H"; l_bound := 2; u_bound := 5 |}
  else
    {| cols := 0; scan_resNum1 := 0; scan_aname1 := EmptyString; scan_resNum2 := 0;
       scan_aname2 := EmptyString; l_bound := 0; u_bound := 0 |}.

Definition example_file : list string :=
  ["# restraints"; "1 ALA HA 5 GLY H 4.5"; "0 ALA QA 3 GLY H 2.0 5.0"; "no restraint"]%string.

(** Two restraints, the first active and the second not, and two
    frames. *)
Definition example_NOEs : list (bool * list float) := [(true, []); (false, [])].

Definition example_frames : list (nat → float) := [λ _, 4%float; λ _, 9%float].

End NMRrst.

(** * Part IV: Properties *)

(** ** Loops *)

Lemma for_loop_S {St : Type} (n : nat) (body : St → nat → St) (s : St) :
  for_loop (S n) body s = body (for_loop n body s) n.
Proof. unfold for_loop. rewrite seq_S, foldl_app. reflexivity. Qed.

Lemma for_loop_ind {St : Type} (P : nat → St → Prop) (body : St → nat → St) (s : St) (n : nat) :
  P 0%nat s →
  (∀ k st, (k < n)%nat → P k st → P (S k) (body st k)) →
  P n (for_loop n body s).
Proof.
  intros H0 Hstep.
  assert (Hgen : ∀ m, (m ≤ n)%nat → P m (for_loop m body s)).
  { induction m as [|m IH]; intros Hm; [exact H0|].
    rewrite for_loop_S. apply Hstep; [lia|]. apply IH. lia. }
  apply Hgen. lia.
Qed.

(** ** The order of binary64 values

    [<] on [double] is a strict order (NaN and infinities included),
    and [x < y <= z] gives [x < z]; proved from the specification of
    the primitive comparisons. *)

Ltac cmp_cases :=
  repeat match goal with
  | H : context [(?a ?= ?b)%Z] |- _ => destruct (Z.compare_spec a b)
  | |- context [(?a ?= ?b)%Z] => destruct (Z.compare_spec a b)
  | H : context [Pos.compare_cont Eq ?a ?b] |- _ =>
      change (Pos.compare_cont Eq a b) with (Pos.compare a b) in *
  | |- context [Pos.compare_cont Eq ?a ?b] =>
      change (Pos.compare_cont Eq a b) with (Pos.compare a b) in *
  | H : context [(?a ?= ?b)%positive] |- _ => destruct (Pos.compare_spec a b)
  | |- context [(?a ?= ?b)%positive] => destruct (Pos.compare_spec a b)
  end.

Lemma SFcompare_lt_trans (x y z : spec_float) :
  SFcompare x y = Some Lt → SFcompare y z = Some Lt → SFcompare x z = Some Lt.
Proof.
  destruct x as [sx|sx| |sx mx ex], y as [sy|sy| |sy my ey], z as [sz|sz| |sz mz ez];
    cbn; try discriminate; try reflexivity;
    try destruct sx; try destruct sy; try destruct sz; try discriminate; try reflexivity;
    intros Hxy Hyz; cmp_cases; cbn in *; subst; try discriminate; try reflexivity; try lia.
Qed.

Lemma SFcompare_lt_eq_trans (x y z : spec_float) :
  SFcompare x y = Some Lt → SFcompare y z = Some Eq → SFcompare x z = Some Lt.
Proof.
  destruct x as [sx|sx| |sx mx ex], y as [sy|sy| |sy my ey], z as [sz|sz| |sz mz ez];
    cbn; try discriminate; try reflexivity;
    try destruct sx; try destruct sy; try destruct sz; try discriminate; try reflexivity;
    intros Hxy Hyz; cmp_cases; cbn in *; subst; try discriminate; try reflexivity; try lia.
Qed.

Lemma SFcompare_irrefl (x : spec_float) : SFcompare x x ≠ Some Lt.
Proof.
  destruct x as [sx|sx| |sx mx ex]; cbn; try discriminate.
  - destruct sx; discriminate.
  - destruct sx; rewrite Z.compare_refl;
      change (Pos.compare_cont Eq mx mx) with (Pos.compare mx mx);
      rewrite Pos.compare_refl; discriminate.
Qed.

Lemma float_ltb_trans (x y z : float) :
  (x <? y)%float = true → (y <? z)%float = true → (x <? z)%float = true.
Proof.
  rewrite !ltb_spec. unfold SFltb.
  destruct (SFcompare (Prim2SF x) (Prim2SF y)) as [[]|] eqn:Hxy; try discriminate.
  destruct (SFcompare (Prim2SF y) (Prim2SF z)) as [[]|] eqn:Hyz; try discriminate.
  rewrite (SFcompare_lt_trans _ _ _ Hxy Hyz). reflexivity.
Qed.

Lemma float_ltb_leb_trans (x y z : float) :
  (x <? y)%float = true → (y <=? z)%float = true → (x <? z)%float = true.
Proof.
  rewrite !ltb_spec, leb_spec. unfold SFltb, SFleb.
  destruct (SFcompare (Prim2SF x) (Prim2SF y)) as [[]|] eqn:Hxy; try discriminate.
  destruct (SFcompare (Prim2SF y) (Prim2SF z)) as [[]|] eqn:Hyz; try discriminate.
  - rewrite (SFcompare_lt_eq_trans _ _ _ Hxy Hyz). reflexivity.
  - rewrite (SFcompare_lt_trans _ _ _ Hxy Hyz). reflexivity.
Qed.

Lemma float_ltb_irrefl (x : float) : (x <? x)%float = false.
Proof.
  rewrite ltb_spec. unfold SFltb. pose proof (SFcompare_irrefl (Prim2SF x)).
  destruct (SFcompare _ _) as [[]|]; congruence.
Qed.

Lemma SFcompare_eq_lt_trans (x y z : spec_float) :
  SFcompare x y = Some Eq → SFcompare y z = Some Lt → SFcompare x z = Some Lt.
Proof.
  destruct x as [sx|sx| |sx mx ex], y as [sy|sy| |sy my ey], z as [sz|sz| |sz mz ez];
    cbn; try discriminate; try reflexivity;
    try destruct sx; try destruct sy; try destruct sz; try discriminate; try reflexivity;
    intros Hxy Hyz; cmp_cases; cbn in *; subst; try discriminate; try reflexivity; try lia.
Qed.

Lemma float_leb_ltb_trans (x y z : float) :
  (x <=? y)%float = true → (y <? z)%float = true → (x <? z)%float = true.
Proof.
  rewrite !ltb_spec, leb_spec. unfold SFltb, SFleb.
  destruct (SFcompare (Prim2SF x) (Prim2SF y)) as [[]|] eqn:Hxy; try discriminate.
  - destruct (SFcompare (Prim2SF y) (Prim2SF z)) as [[]|] eqn:Hyz; try discriminate.
    rewrite (SFcompare_eq_lt_trans _ _ _ Hxy Hyz). reflexivity.
  - destruct (SFcompare (Prim2SF y) (Prim2SF z)) as [[]|] eqn:Hyz; try discriminate.
    rewrite (SFcompare_lt_trans _ _ _ Hxy Hyz). reflexivity.
Qed.

Lemma float_ltb_not_leb (x y : float) :
  (x <? y)%float = true → (y <=? x)%float = false.
Proof.
  intros Hlt. destruct (y <=? x)%float eqn:Hle; [|reflexivity].
  pose proof (float_leb_ltb_trans _ _ _ Hle Hlt) as Hirr.
  rewrite float_ltb_irrefl in Hirr. discriminate.
Qed.

(** A NaN compares false with everything. *)
Lemma Prim2SF_is_nan (e : float) :
  is_nan e = true → Prim2SF e = S754_nan.
Proof.
  unfold is_nan. intros He. apply negb_true_iff in He.
  rewrite FloatAxioms.eqb_spec in He. unfold SFeqb in He.
  destruct (Prim2SF e) as [sx|sx| |sx mx ex]; [| |reflexivity|]; exfalso.
  - destruct sx; discriminate He.
  - destruct sx; discriminate He.
  - cbn in He. destruct sx; rewrite Z.compare_refl in He;
      change (Pos.compare_cont Eq mx mx) with (Pos.compare mx mx) in He;
      rewrite Pos.compare_refl in He; discriminate He.
Qed.

Lemma float_ltb_nan (x e : float) :
  is_nan e = true → (x <? e)%float = false.
Proof.
  intros He. rewrite FloatAxioms.ltb_spec, (Prim2SF_is_nan e He). unfold SFltb.
  destruct (Prim2SF x) as [sx|sx| |sx mx ex]; reflexivity.
Qed.

Lemma float_nan_leb (e x : float) :
  is_nan e = true → (e <=? x)%float = false.
Proof.
  intros He. rewrite FloatAxioms.leb_spec, (Prim2SF_is_nan e He). reflexivity.
Qed.

(** ** Properties of the secondary-structure assignment *)

Module DSSPFacts.

Import DSSP.

(** *** Basic facts about the residue table *)

Lemma res_at_upd (res : nat) (f : Residue → Residue) (s : State) (r : nat) :
  res_at (upd_res res f s) r =
    if decide (res = r ∧ (res < length (SecStruct s))%nat)
    then f (res_at s res) else res_at s r.
Proof. unfold res_at, upd_res. simpl. apply list_lookup_total_alter. Qed.

Lemma res_at_upd_ne (res : nat) (f : Residue → Residue) (s : State) (r : nat) :
  res ≠ r → res_at (upd_res res f s) r = res_at s r.
Proof. intros Hne. rewrite res_at_upd. case_decide; [tauto|reflexivity]. Qed.

Lemma res_at_upd_eq (res : nat) (f : Residue → Residue) (s : State) :
  (res < length (SecStruct s))%nat → res_at (upd_res res f s) res = f (res_at s res).
Proof. intros Hlt. rewrite res_at_upd. case_decide; [reflexivity|tauto]. Qed.

Lemma Nres_upd (res : nat) (f : Residue → Residue) (s : State) :
  Nres (upd_res res f s) = Nres s.
Proof. reflexivity. Qed.

Lemma length_upd (res : nat) (f : Residue → Residue) (s : State) :
  length (SecStruct (upd_res res f s)) = length (SecStruct s).
Proof. unfold upd_res. simpl. apply length_alter. Qed.

(** An update that keeps a field keeps it in the whole table. *)
Lemma field_upd {A : Type} (g : Residue → A) (res : nat) (f : Residue → Residue) (s : State) :
  (∀ r, g (f r) = g r) → ∀ r, g (res_at (upd_res res f s) r) = g (res_at s r).
Proof.
  intros Hg r. rewrite res_at_upd. case_decide as Hd; [|reflexivity].
  destruct Hd as [-> _]. apply Hg.
Qed.

Lemma label_upd_sstype (res : nat) (t : SStype) (s : State) (r : nat) :
  label (upd_res res (set_sstype t) s) r =
    if decide (res = r ∧ (res < length (SecStruct s))%nat) then t else label s r.
Proof. unfold label. rewrite res_at_upd. case_decide; reflexivity. Qed.

(** *** The label of a residue is written once per frame *)

Lemma writes_once_refl (s : State) : writes_once s s.
Proof. intros res. left. reflexivity. Qed.

Lemma writes_once_trans (s1 s2 s3 : State) :
  writes_once s1 s2 → writes_once s2 s3 → writes_once s1 s3.
Proof.
  intros H12 H23 res.
  destruct (H12 res) as [E12|[E1 N2]], (H23 res) as [E23|[E2 N3]].
  - left. congruence.
  - right. split; congruence.
  - right. split; congruence.
  - contradiction.
Qed.

(** The guarded assignment [if (sstype == NULL) sstype = t]. *)
Lemma writes_once_guarded (res : nat) (t : SStype) (s : State) :
  label s res = SECSTRUCT_NULL → writes_once s (upd_res res (set_sstype t) s).
Proof.
  intros Hnull r. rewrite label_upd_sstype. case_decide as Hd; [|left; reflexivity].
  destruct Hd as [<- _]. destruct (decide (t = SECSTRUCT_NULL)) as [->|Hne].
  - left. symmetry. exact Hnull.
  - right. split; assumption.
Qed.

Lemma SSassign_loop_writes_once (t : SStype) (rs : list nat) (s : State) :
  writes_once s (SSassign_loop t rs s).
Proof.
  revert s. induction rs as [|res rest IH]; intros s; simpl.
  - apply writes_once_refl.
  - destruct (res =? Nres s)%nat; [apply writes_once_refl|].
    destruct (negb (isSelected (res_at s res))); [apply IH|].
    case_decide as Hnull; [|apply IH].
    eapply writes_once_trans; [|apply IH].
    apply writes_once_guarded. exact Hnull.
Qed.

Lemma SSassign_writes_once (res1 res2 : nat) (t : SStype) (s : State) :
  writes_once s (SSassign res1 res2 t s).
Proof. apply SSassign_loop_writes_once. Qed.

(** The beta scan writes the label of [resi] only; [action] runs it
    only when that label is None. *)
Lemma beta_scan_writes_once (resi : nat) (resjs : list nat) (s : State) :
  label s resi = SECSTRUCT_NULL → writes_once s (beta_scan resi resjs s).
Proof.
  intros Hnull. induction resjs as [|resj rest IH]; simpl.
  - apply writes_once_refl.
  - destruct (negb (isSelected (res_at s resj))); [exact IH|].
    destruct (2 <? Z.abs _); [|exact IH].
    destruct (_ || _); [apply writes_once_guarded; exact Hnull|].
    destruct (_ || _); [apply writes_once_guarded; exact Hnull|exact IH].
Qed.

Lemma ss_residue_writes_once (s : State) (resi : nat) :
  writes_once s (ss_residue s resi).
Proof.
  unfold ss_residue.
  destruct (negb (isSelected (res_at s resi))); [apply writes_once_refl|].
  destruct (_ && _); [apply SSassign_writes_once|].
  case_decide as Hnull.
  - pose proof (beta_scan_writes_once resi (seq 0 (Nres s)) s Hnull) as Hb.
    destruct (negb _); [exact Hb|].
    destruct (_ && _); [eapply writes_once_trans; [exact Hb|apply SSassign_writes_once]|].
    destruct (_ && _); [eapply writes_once_trans; [exact Hb|apply SSassign_writes_once]|].
    exact Hb.
  - destruct (_ && _); [apply SSassign_writes_once|].
    destruct (_ && _); [apply SSassign_writes_once|].
    apply writes_once_refl.
Qed.

Lemma turn_scan_writes_once (resi : nat) (spans : list nat) (s : State) :
  writes_once s (turn_scan resi spans s).
Proof.
  induction spans as [|resj rest IH]; simpl; [apply writes_once_refl|].
  destruct (isBonded _ _ _); [apply SSassign_writes_once|exact IH].
Qed.

Lemma turn_residue_writes_once (s : State) (resi : nat) :
  writes_once s (turn_residue s resi).
Proof.
  unfold turn_residue.
  destruct (negb _); [apply writes_once_refl|apply turn_scan_writes_once].
Qed.

(** Iterating a body that writes once writes once, from any earlier
    iteration to any later one. *)
Lemma for_loop_writes_once (body : State → nat → State) (s : State) (j d : nat) :
  (∀ st k, writes_once st (body st k)) →
  writes_once (for_loop j body s) (for_loop (j + d) body s).
Proof.
  intros Hbody. induction d as [|d IH].
  - rewrite Nat.add_0_r. apply writes_once_refl.
  - rewrite Nat.add_succ_r, for_loop_S.
    eapply writes_once_trans; [exact IH|apply Hbody].
Qed.

(** The store loop changes counters and output only. *)
Lemma store_residue_res (cf : nat) (acc : State * nat) (resi : nat) (r : nat) :
  sstype (res_at (fst (store_residue cf acc resi)) r) = sstype (res_at (fst acc) r) ∧
  isSelected (res_at (fst (store_residue cf acc resi)) r) = isSelected (res_at (fst acc) r).
Proof.
  destruct acc as [s resj]. unfold store_residue.
  destruct (negb (isSelected (res_at s resi))); [split; reflexivity|].
  destruct (SSdata _); simpl; split;
    try (apply (field_upd sstype)); try (apply (field_upd isSelected)); reflexivity.
Qed.

Lemma store_pass_label (cf : nat) (s : State) (r : nat) :
  label (store_pass cf s) r = label s r.
Proof.
  unfold store_pass, label.
  apply (for_loop_ind
           (λ _ acc, sstype (res_at (fst acc) r) = sstype (res_at s r))).
  - reflexivity.
  - intros k acc _ IH. rewrite <- IH. apply store_residue_res.
Qed.

Lemma action_label (fac : float) (DIST : Z → Z → float) (cf : nat) (s : State) (r : nat) :
  label (action fac DIST cf s) r = label (turn_pass (ss_pass (hbond_pass fac DIST s))) r.
Proof.
  unfold action. cbv zeta.
  set (s4 := store_pass cf _).
  transitivity (label s4 r).
  - destruct (printString s4); reflexivity.
  - apply store_pass_label.
Qed.

(** C4. Within the classification of one frame a label is written at
    most once, and only over None: every labelling step ([SSassign] for
    Alpha, 3-10, Pi and Turn, the beta scan inside the body of the
    assignment loop, the bodies of both loops) leaves a label that is
    not None as it is; so does any stretch of iterations of the
    assignment loop, of the Turn loop, and of the first followed by the
    second; and from the end of the hydrogen-bond computation, where
    the labels were reset, to the end of [action] no label changes
    except from None to a structure type. *)
Theorem label_written_once_per_frame :
  (∀ s res1 res2 t, writes_once s (SSassign res1 res2 t s)) ∧
  (∀ s resi, writes_once s (ss_residue s resi)) ∧
  (∀ s resi, writes_once s (turn_residue s resi)) ∧
  (∀ s j d, writes_once (ss_pass_upto j s) (ss_pass_upto (j + d) s)) ∧
  (∀ s j d, writes_once (turn_pass_upto j s) (turn_pass_upto (j + d) s)) ∧
  (∀ s j d k, writes_once (ss_pass_upto j s)
                          (turn_pass_upto k (ss_pass_upto (j + d) s))) ∧
  (∀ fac DIST cf s, writes_once (hbond_pass fac DIST s) (action fac DIST cf s)).
Proof.
  assert (Hss : ∀ s j d, writes_once (ss_pass_upto j s) (ss_pass_upto (j + d) s)).
  { intros s j d. apply for_loop_writes_once. intros st k. apply ss_residue_writes_once. }
  assert (Hturn : ∀ s j d, writes_once (turn_pass_upto j s) (turn_pass_upto (j + d) s)).
  { intros s j d. apply for_loop_writes_once. intros st k. apply turn_residue_writes_once. }
  repeat split.
  - intros s res1 res2 t. apply SSassign_writes_once.
  - intros s resi. apply ss_residue_writes_once.
  - intros s resi. apply turn_residue_writes_once.
  - exact Hss.
  - exact Hturn.
  - intros s j d k. eapply writes_once_trans; [apply Hss|].
    apply (Hturn (ss_pass_upto (j + d) s) 0%nat k).
  - intros fac DIST cf s.
    set (s1 := hbond_pass fac DIST s).
    assert (H12 : writes_once s1 (ss_pass s1)) by apply (Hss s1 0%nat (Nres s1)).
    assert (H23 : writes_once (ss_pass s1) (turn_pass (ss_pass s1)))
      by apply (Hturn (ss_pass s1) 0%nat (Nres (ss_pass s1))).
    pose proof (writes_once_trans _ _ _ H12 H23) as H13.
    intros r. rewrite action_label. apply H13.
Qed.

(** *** What [SSassign] writes *)

(** A selected residue is an entry of the table: the total lookup of a
    missing entry is the residue of [new_residue], which is not
    selected. *)
Lemma selected_in_range (s : State) (r : nat) :
  isSelected (res_at s r) = true → (r < length (SecStruct s))%nat.
Proof.
  intros Hsel. destruct (decide (r < length (SecStruct s))%nat) as [|Hge]; [assumption|].
  unfold res_at in Hsel. rewrite list_lookup_total_alt in Hsel.
  rewrite (proj2 (lookup_ge_None _ _)) in Hsel by lia. discriminate.
Qed.

Lemma SSassign_loop_Nres (t : SStype) (rs : list nat) (s : State) :
  Nres (SSassign_loop t rs s) = Nres s.
Proof.
  revert s. induction rs as [|res rest IH]; intros s; simpl; [reflexivity|].
  destruct (res =? Nres s)%nat; [reflexivity|].
  destruct (negb _); [apply IH|]. case_decide; rewrite IH; reflexivity.
Qed.

Lemma SSassign_loop_selected (t : SStype) (rs : list nat) (s : State) (r : nat) :
  isSelected (res_at (SSassign_loop t rs s) r) = isSelected (res_at s r).
Proof.
  revert s. induction rs as [|res rest IH]; intros s; simpl; [reflexivity|].
  destruct (res =? Nres s)%nat; [reflexivity|].
  destruct (negb _); [apply IH|]. case_decide; rewrite IH; [|reflexivity].
  apply (field_upd isSelected). reflexivity.
Qed.

(** Without the [break], the loop labels exactly the selected residues
    of its range whose label is None. *)
Lemma SSassign_loop_label (t : SStype) (rs : list nat) (s : State) (r : nat) :
  NoDup rs → (∀ x, x ∈ rs → x ≠ Nres s) →
  label (SSassign_loop t rs s) r =
    if decide (r ∈ rs ∧ isSelected (res_at s r) = true ∧ label s r = SECSTRUCT_NULL)
    then t else label s r.
Proof.
  revert s. induction rs as [|res rest IH]; intros s Hnd Hnobreak; cbn [SSassign_loop].
  - apply eq_sym, decide_False. intros [Hin _]. inversion Hin.
  - apply NoDup_cons in Hnd as [Hnotin Hnd].
    assert (Hne : res ≠ Nres s) by (apply Hnobreak; left).
    apply Nat.eqb_neq in Hne. rewrite Hne.
    assert (Hrest : ∀ x, x ∈ rest → x ≠ Nres s) by (intros x Hx; apply Hnobreak; right; exact Hx).
    destruct (isSelected (res_at s res)) eqn:Hsel; cbn [negb].
    + destruct (decide (sstype (res_at s res) = SECSTRUCT_NULL)) as [Hnull|Hnull].
      * rewrite IH by assumption.
        rewrite (field_upd isSelected) by reflexivity.
        rewrite label_upd_sstype.
        pose proof (selected_in_range s res Hsel) as Hlt.
        destruct (decide (res = r)) as [->|Hner].
        -- rewrite (decide_True (P := r = r ∧ _)) by (split; [reflexivity|exact Hlt]).
           rewrite (decide_True (P := r ∈ r :: rest ∧ _)) by (split; [left|split; assumption]).
           destruct (decide _); reflexivity.
        -- rewrite (decide_False (P := res = r ∧ _)) by tauto.
           apply decide_ext. rewrite elem_of_cons. intuition congruence.
      * rewrite IH by assumption.
        apply decide_ext. rewrite elem_of_cons. unfold label in *.
        intuition (subst; congruence).
    + rewrite IH by assumption.
      apply decide_ext. rewrite elem_of_cons. intuition (subst; congruence).
Qed.

Lemma isBonded_in_range (s : State) (res1 res2 : Z) :
  isBonded s res1 res2 = true →
  0 ≤ res1 < Z.of_nat (Nres s) ∧ 0 ≤ res2 < Z.of_nat (Nres s) ∧
  isSelected (res_at s (Z.to_nat res1)) = true ∧
  isSelected (res_at s (Z.to_nat res2)) = true ∧
  CO_HN_Hbond (res_at s (Z.to_nat res1)) !! Z.to_nat res2 = Some true.
Proof.
  unfold isBonded.
  destruct (Z.ltb_spec res1 0); [discriminate|].
  destruct (Z.ltb_spec res2 0); [discriminate|].
  destruct (Z.leb_spec (Z.of_nat (Nres s)) res1); [discriminate|].
  destruct (Z.leb_spec (Z.of_nat (Nres s)) res2); [discriminate|].
  destruct (isSelected (res_at s (Z.to_nat res1))); [|discriminate].
  destruct (isSelected (res_at s (Z.to_nat res2))); [|discriminate].
  simpl. destruct (_ !! _) as [[|]|]; try discriminate.
  intros _. repeat split; try lia; reflexivity.
Qed.

(** [SSassign] over a range that ends below [Nres]. *)
Lemma SSassign_label (res1 res2 : nat) (t : SStype) (s : State) (r : nat) :
  (res2 ≤ Nres s)%nat →
  label (SSassign res1 res2 t s) r =
    if decide ((res1 ≤ r < res2)%nat ∧ isSelected (res_at s r) = true ∧
               label s r = SECSTRUCT_NULL)
    then t else label s r.
Proof.
  intros Hle. unfold SSassign. rewrite SSassign_loop_label.
  - apply decide_ext. rewrite elem_of_seq. intuition lia.
  - apply NoDup_seq.
  - intros x Hx. apply elem_of_seq in Hx. lia.
Qed.

(** *** The Turn pass *)

(** C6, as stated, fails where a residue inside the span is not
    selected: in the example chain with residue 1 outside the mask, the
    bond from residue 0 to residue 3 makes span 3 the first qualifying
    span, the label of residue 1 is None, and the Turn body for
    residue 0 leaves it None. *)
Lemma turn_rule_as_stated_fails :
  ¬ turn_rule_as_stated example_gap_state 0.
Proof.
  intros Hrule.
  assert (Hturn : label (turn_residue example_gap_state 0) 1 = SECSTRUCT_TURN).
  { apply (Hrule 3%nat 1%nat).
    - vm_compute. reflexivity.
    - lia.
    - vm_compute. reflexivity. }
  vm_compute in Hturn. discriminate Hturn.
Qed.

(** C6 (amended). In the Turn pass the body for residue [resi] takes
    the first span of 5, 4, 3 with a hydrogen bond from [resi] to
    [resi + span]; it then is the single call
    [SSassign(resi+1, resi+span, TURN)], which labels Turn exactly the
    selected residues from [resi+1] to [resi+span-1] whose label is
    None and leaves every other label as it is; no smaller span is
    looked at. Without a qualifying span the state is unchanged. *)
Theorem turn_longest_span_wins (s : State) (resi : nat) :
  match turn_span s resi with
  | Some span =>
      turn_residue s resi = SSassign (resi + 1) (resi + span) SECSTRUCT_TURN s ∧
      ∀ r, label (turn_residue s resi) r =
             if decide ((resi + 1 ≤ r ≤ resi + span - 1)%nat ∧
                        isSelected (res_at s r) = true ∧
                        label s r = SECSTRUCT_NULL)
             then SECSTRUCT_TURN else label s r
  | None => turn_residue s resi = s
  end.
Proof.
  assert (Hsel : isSelected (res_at s resi) = false →
                 ∀ x, isBonded s (Z.of_nat resi) x = false).
  { intros Hs x. unfold isBonded. rewrite Nat2Z.id, Hs. simpl.
    repeat (destruct (_ <? _) || destruct (_ <=? _)); reflexivity. }
  assert (Hbody : ∀ span, isBonded s (Z.of_nat resi) (Z.of_nat resi + Z.of_nat span) = true →
            ∀ r, label (SSassign (resi + 1) (resi + span) SECSTRUCT_TURN s) r =
             if decide ((resi + 1 ≤ r ≤ resi + span - 1)%nat ∧
                        isSelected (res_at s r) = true ∧
                        label s r = SECSTRUCT_NULL)
             then SECSTRUCT_TURN else label s r).
  { intros span Hb r. apply isBonded_in_range in Hb as (_ & Hr & _).
    rewrite SSassign_label by lia. apply decide_ext. intuition lia. }
  unfold turn_span, turn_residue.
  destruct (isSelected (res_at s resi)) eqn:Hs; cbn [negb].
  - cbn [find turn_scan].
    destruct (isBonded s (Z.of_nat resi) (Z.of_nat resi + Z.of_nat 5)) eqn:H5.
    { split; [reflexivity|]. apply Hbody, H5. }
    destruct (isBonded s (Z.of_nat resi) (Z.of_nat resi + Z.of_nat 4)) eqn:H4.
    { split; [reflexivity|]. apply Hbody, H4. }
    destruct (isBonded s (Z.of_nat resi) (Z.of_nat resi + Z.of_nat 3)) eqn:H3.
    { split; [reflexivity|]. apply Hbody, H3. }
    reflexivity.
  - cbn [find]. rewrite !Hsel by reflexivity. reflexivity.
Qed.

(** *** Averaging in [print] *)

Lemma print_residue_spec (s : State) (resi : nat) (d : list (nat * nat * float)) :
  dsspData s = Some d →
  print_residue s resi = set_dsspData (Some (d ++ print_entries s resi)) s.
Proof.
  intros Hd. unfold print_residue, print_entries.
  destruct (isSelected (res_at s resi)); cbn [negb].
  - cbn [foldl seq map]. rewrite Hd. cbn.
    rewrite <- !app_assoc. reflexivity.
  - rewrite app_nil_r. destruct s; simpl in *. subst. reflexivity.
Qed.

(** [print] has no guard: whenever a summary file is set it emits, for
    every selected residue and the six structure types, the counter
    divided by the frame counter. *)
Lemma print_spec (s : State) (name : string) :
  sumOut s = Some name →
  print s = set_dsspData (Some (flat_map (print_entries s) (seq 0 (Nres s)))) s.
Proof.
  intros Hsum. unfold print. rewrite Hsum.
  change (Nres (set_dsspData (Some []) s)) with (Nres s).
  apply (for_loop_ind
           (λ k st, st = set_dsspData (Some (flat_map (print_entries s) (seq 0 k))) s)).
  - reflexivity.
  - intros k st _ ->.
    rewrite (print_residue_spec _ _ (flat_map (print_entries s) (seq 0 k))) by reflexivity.
    rewrite seq_S, flat_map_app. cbn [flat_map]. rewrite app_nil_r. reflexivity.
Qed.

(** C2, as stated, fails: after [init] and [setup] and no frame,
    [print] emits NaN for residue 0 and the first structure type. *)
Lemma print_zero_frames_emits_nan :
  ¬ print_guards_zero_frames example_no_frames.
Proof.
  intros Hguard.
  destruct (Hguard eq_refl
              (flat_map (print_entries example_no_frames) (seq 0 4))
              0%nat 1%nat nan) as [Hnan _].
  - vm_compute. reflexivity.
  - vm_compute. left.
  - vm_compute in Hnan. discriminate Hnan.
Qed.

(** C2 (amended). [print] does not look at the frame counter. Without a
    summary file it returns at once and emits nothing. With one, and
    with no frame processed (frame counter zero, every counter of a
    selected residue zero), it emits for every selected residue below
    [Nres], in order, the six quotients 0/0, each of them NaN. *)
Theorem print_zero_frames_is_nan (s : State) :
  (sumOut s = None → print s = s) ∧
  (∀ name, sumOut s = Some name → Nframe s = 0%float →
     (∀ resi ss, isSelected (res_at s resi) = true → (1 ≤ ss ≤ 6)%nat →
                 SSprob (res_at s resi) !!! ss = 0%float) →
     dsspData (print s) =
       Some (flat_map (λ resi, if isSelected (res_at s resi)
                               then map (λ ss, (resi, ss, nan)) (seq 1 6)
                               else [])
                      (seq 0 (Nres s))) ∧
     ∀ resi ss avg, (resi, ss, avg) ∈ default [] (dsspData (print s)) →
                    is_nan avg = true).
Proof.
  split.
  - intros Hnone. unfold print. rewrite Hnone. reflexivity.
  - intros name Hsum Hzero Hcount.
    assert (Hent : ∀ resi, print_entries s resi =
                     if isSelected (res_at s resi)
                     then map (λ ss, (resi, ss, nan)) (seq 1 6) else []).
    { intros resi. unfold print_entries.
      destruct (isSelected (res_at s resi)) eqn:Hsel; [|reflexivity].
      apply map_ext_in. intros ss Hin. apply in_seq in Hin.
      rewrite Hcount by (assumption || lia). rewrite Hzero. reflexivity. }
    rewrite (print_spec s name Hsum). cbn [dsspData set_dsspData default].
    split.
    + f_equal. apply flat_map_ext. exact Hent.
    + intros resi ss avg Hin.
      apply list_elem_of_In, in_flat_map in Hin as (r & _ & Hin).
      rewrite Hent in Hin. destruct (isSelected (res_at s r)); [|contradiction].
      apply in_map_iff in Hin as (ss' & Heq & _). injection Heq as _ _ <-. reflexivity.
Qed.

Lemma print_zero_frames_is_nan_witness :
  dsspData (print example_no_frames) =
    Some (flat_map (λ resi, map (λ ss, (resi, ss, nan)) (seq 1 6)) (seq 0 4)).
Proof.
  destruct (print_zero_frames_is_nan example_no_frames) as [_ H].
  destruct (H "dssp.sum"%string) as [Hd _].
  - reflexivity.
  - reflexivity.
  - intros resi ss _ Hss.
    destruct resi as [|[|[|[|resi]]]];
      destruct ss as [|[|[|[|[|[|[|ss]]]]]]]; try lia; vm_compute; reflexivity.
  - rewrite Hd. vm_compute. reflexivity.
Defined.

(** *** What the passes of [action] leave alone *)

Lemma preserves_refl {A : Type} (g : Residue → A) (s : State) : preserves g s s.
Proof. repeat split. destruct s; reflexivity. Qed.

Lemma preserves_trans {A : Type} (g : Residue → A) (s1 s2 s3 : State) :
  preserves g s1 s2 → preserves g s2 s3 → preserves g s1 s3.
Proof.
  intros (E12 & L12 & G12) (E23 & L23 & G23). repeat split.
  - rewrite E23 at 1. rewrite E12. reflexivity.
  - congruence.
  - intros r. rewrite G23. apply G12.
Qed.

Lemma preserves_upd {A : Type} (g : Residue → A) (res : nat) (f : Residue → Residue) (s : State) :
  (∀ r, g (f r) = g r) → preserves g s (upd_res res f s).
Proof.
  intros Hf. repeat split.
  - apply length_upd.
  - apply field_upd. exact Hf.
Qed.

Lemma preserves_for_loop {A : Type} (g : Residue → A) (body : State → nat → State)
    (n : nat) (s : State) :
  (∀ st k, preserves g st (body st k)) → preserves g s (for_loop n body s).
Proof.
  intros Hbody. apply (for_loop_ind (λ _ st, preserves g s st)).
  - apply preserves_refl.
  - intros k st _ IH. eapply preserves_trans; [exact IH|apply Hbody].
Qed.

Lemma preserves_Nres {A : Type} (g : Residue → A) (s s' : State) :
  preserves g s s' → Nres s' = Nres s.
Proof. intros (E & _). rewrite E. reflexivity. Qed.

Lemma preserves_weaken {A B : Type} (g : Residue → A) (h : Residue → B) (s s' : State) :
  (∀ r r', g r = g r' → h r = h r') → preserves g s s' → preserves h s s'.
Proof. intros Hgh (E & L & G). repeat split; [exact E|exact L|]. intros r. apply Hgh, G. Qed.

Lemma SSassign_loop_preserves (t : SStype) (rs : list nat) (s : State) :
  preserves but_label s (SSassign_loop t rs s).
Proof.
  revert s. induction rs as [|res rest IH]; intros s; cbn [SSassign_loop].
  - apply preserves_refl.
  - destruct (res =? Nres s)%nat; [apply preserves_refl|].
    destruct (negb _); [apply IH|].
    destruct (decide _); [|apply IH].
    eapply preserves_trans; [|apply IH]. apply preserves_upd. reflexivity.
Qed.

Lemma beta_scan_preserves (resi : nat) (resjs : list nat) (s : State) :
  preserves but_label s (beta_scan resi resjs s).
Proof.
  induction resjs as [|resj rest IH]; cbn [beta_scan].
  - apply preserves_refl.
  - cbv zeta. destruct (negb _); [exact IH|].
    destruct (2 <? _); [|exact IH].
    destruct (_ || _); [apply preserves_upd; reflexivity|].
    destruct (_ || _); [apply preserves_upd; reflexivity|exact IH].
Qed.

Lemma ss_residue_preserves (s : State) (resi : nat) :
  preserves but_label s (ss_residue s resi).
Proof.
  unfold ss_residue. cbv zeta.
  destruct (negb _); [apply preserves_refl|].
  destruct (_ && _); [apply SSassign_loop_preserves|].
  pose proof (beta_scan_preserves resi (seq 0 (Nres s)) s) as Hb.
  destruct (decide _).
  - destruct (negb _); [exact Hb|].
    destruct (_ && _); [eapply preserves_trans; [exact Hb|apply SSassign_loop_preserves]|].
    destruct (_ && _); [eapply preserves_trans; [exact Hb|apply SSassign_loop_preserves]|].
    exact Hb.
  - destruct (_ && _); [apply SSassign_loop_preserves|].
    destruct (_ && _); [apply SSassign_loop_preserves|].
    apply preserves_refl.
Qed.

Lemma turn_residue_preserves (s : State) (resi : nat) :
  preserves but_label s (turn_residue s resi).
Proof.
  unfold turn_residue. destruct (negb _); [apply preserves_refl|].
  generalize [5; 4; 3]%nat. intros spans.
  induction spans as [|resj rest IH]; cbn [turn_scan]; [apply preserves_refl|].
  destruct (isBonded _ _ _); [apply SSassign_loop_preserves|exact IH].
Qed.

Lemma classify_preserves (s : State) :
  preserves but_label s (turn_pass (ss_pass s)).
Proof.
  eapply preserves_trans.
  - apply preserves_for_loop. apply ss_residue_preserves.
  - apply preserves_for_loop. apply turn_residue_preserves.
Qed.

Lemma hbond_pair_preserves (fac : float) (DIST : Z → Z → float) (resi : nat) (C O : Z)
    (s : State) (resj : nat) :
  preserves backbone s (hbond_pair fac DIST resi C O s resj).
Proof.
  unfold hbond_pair.
  destruct (negb _); [apply preserves_refl|].
  destruct (resi =? resj)%nat; [apply preserves_refl|].
  destruct (_ || _); [apply preserves_refl|]. cbv zeta.
  destruct (_ <? _)%float; [|apply preserves_refl].
  apply preserves_upd. reflexivity.
Qed.

Lemma hbond_row_preserves (fac : float) (DIST : Z → Z → float) (s : State) (resi : nat) :
  preserves backbone s (hbond_row fac DIST s resi).
Proof.
  unfold hbond_row.
  destruct (negb _); [apply preserves_refl|]. cbv zeta.
  assert (H1 : preserves backbone s
                 (upd_res resi (λ r, set_CO_HN_Hbond (replicate (Nres s) false)
                                        (set_sstype SECSTRUCT_NULL r)) s))
    by (apply preserves_upd; reflexivity).
  destruct (_ || _); [exact H1|].
  eapply preserves_trans; [exact H1|].
  apply preserves_for_loop. intros st k. apply hbond_pair_preserves.
Qed.

Lemma hbond_pass_preserves (fac : float) (DIST : Z → Z → float) (s : State) :
  preserves backbone s (hbond_pass fac DIST s).
Proof. apply preserves_for_loop. intros st k. apply hbond_row_preserves. Qed.

(** *** The characters of the output line *)

Lemma SSchar_SScode (t : SStype) : nth (SStype_index t) SSchar "000"%char = SScode t.
Proof. destruct t; reflexivity. Qed.

Lemma selected_upto_S (s : State) (k : nat) :
  selected_upto s (S k) =
    selected_upto s k ++ (if isSelected (res_at s k) then [k] else []).
Proof.
  unfold selected_upto. rewrite seq_S, filter_app. f_equal.
  cbn [filter list_filter Nat.add].
  destruct (isSelected (res_at s k)).
  - rewrite decide_True by reflexivity. reflexivity.
  - rewrite decide_False by discriminate. reflexivity.
Qed.

Lemma selected_upto_mono (s : State) (k n : nat) :
  (k ≤ n)%nat → (length (selected_upto s k) ≤ length (selected_upto s n))%nat.
Proof.
  intros Hle. unfold selected_upto.
  replace n with (k + (n - k))%nat by lia.
  rewrite seq_app, filter_app, length_app. lia.
Qed.

Lemma selected_upto_ext (s s' : State) (n : nat) :
  (∀ r, isSelected (res_at s' r) = isSelected (res_at s r)) →
  selected_upto s' n = selected_upto s n.
Proof.
  intros Hsel. unfold selected_upto. apply list_filter_iff. intros r. rewrite Hsel. reflexivity.
Qed.

(** One iteration of the store loop in string mode. *)
Lemma store_residue_string (cf : nat) (s : State) (resj resi : nat) :
  SSdata s = None →
  store_residue cf (s, resj) resi =
    if isSelected (res_at s resi)
    then (set_SSline (<[resj := SScode (label s resi)]> (SSline s))
            (upd_res resi (λ r, set_SSprob
               (alter (λ x, (x + 1)%float) (SStype_index (label s resi)) (SSprob r)) r) s),
          S resj)
    else (s, resj).
Proof.
  intros Hdata. unfold store_residue.
  destruct (isSelected (res_at s resi)); cbn [negb]; [|reflexivity].
  cbv zeta. cbn [SSdata upd_res set_SecStruct]. rewrite Hdata.
  rewrite SSchar_SScode. reflexivity.
Qed.

(** The store loop in string mode fills the line with the codes of the
    labels of the selected residues. *)
Lemma store_pass_line (cf : nat) (s : State) :
  SSdata s = None → length (SSline s) = count_selected s →
  SSline (store_pass cf s) = SScode <$> selected_labels s ∧
  Nres (store_pass cf s) = Nres s ∧
  printString (store_pass cf s) = printString s ∧
  dssp (store_pass cf s) = dssp s ∧
  (∀ r, isSelected (res_at (store_pass cf s) r) = isSelected (res_at s r)).
Proof.
  intros Hdata Hlen. unfold store_pass.
  assert (Hinv :
    let acc := for_loop (Nres s) (store_residue cf) (s, 0%nat) in
    SSdata (fst acc) = None ∧ Nres (fst acc) = Nres s ∧
    printString (fst acc) = printString s ∧ dssp (fst acc) = dssp s ∧
    length (SSline (fst acc)) = length (SSline s) ∧
    (∀ r, sstype (res_at (fst acc) r) = sstype (res_at s r) ∧
          isSelected (res_at (fst acc) r) = isSelected (res_at s r)) ∧
    snd acc = length (selected_upto s (Nres s)) ∧
    take (snd acc) (SSline (fst acc)) = SScode <$> (label s <$> selected_upto s (Nres s))).
  { apply (for_loop_ind (λ k acc,
      SSdata (fst acc) = None ∧ Nres (fst acc) = Nres s ∧
      printString (fst acc) = printString s ∧ dssp (fst acc) = dssp s ∧
      length (SSline (fst acc)) = length (SSline s) ∧
      (∀ r, sstype (res_at (fst acc) r) = sstype (res_at s r) ∧
            isSelected (res_at (fst acc) r) = isSelected (res_at s r)) ∧
      snd acc = length (selected_upto s k) ∧
      take (snd acc) (SSline (fst acc)) = SScode <$> (label s <$> selected_upto s k))).
    - repeat split; try reflexivity. exact Hdata.
    - intros k [st resj] Hk (Hd & Hn & Hp & Hds & Hl & Hres & Hj & Hline).
      cbn [fst snd] in *.
      rewrite (store_residue_string cf st resj k Hd).
      rewrite selected_upto_S.
      destruct (Hres k) as [Hlab Hsel]. rewrite Hsel.
      destruct (isSelected (res_at s k)) eqn:Hselk; cbn [fst snd].
      + assert (Hroom : (resj < length (SSline st))%nat).
        { pose proof (selected_upto_mono s (S k) (Nres s) ltac:(lia)) as Hmono.
          rewrite selected_upto_S, Hselk, length_app in Hmono. cbn in Hmono.
          unfold count_selected in Hlen. lia. }
        repeat split; try assumption.
        * cbn. rewrite length_insert. exact Hl.
        * rewrite <- (proj1 (Hres r)). apply (field_upd sstype). reflexivity.
        * rewrite <- (proj2 (Hres r)). apply (field_upd isSelected). reflexivity.
        * rewrite length_app. cbn. lia.
        * cbn [SSline set_SSline].
          rewrite (take_S_r _ _ (SScode (label st k))) by (apply list_lookup_insert_eq; exact Hroom).
          rewrite take_insert_ge by lia. rewrite Hline.
          rewrite !fmap_app. cbn. unfold label. rewrite Hlab. reflexivity.
      + rewrite app_nil_r. repeat split; try assumption; apply Hres. }
  cbv zeta in Hinv. destruct Hinv as (Hd & Hn & Hp & Hds & Hl & Hres & Hj & Hline).
  split; [|split; [exact Hn|split; [exact Hp|split; [exact Hds|intros r; apply Hres]]]].
  unfold selected_labels. rewrite <- Hline. rewrite take_ge; [reflexivity|].
  unfold count_selected in Hlen. lia.
Qed.

(** [setup] on a freshly initialised action in string mode leaves
    [SSdata] NULL and sizes the line buffer to the number of selected
    residues: the state in which [action] runs in string mode. *)
Lemma setup_string_mode (P : AmberParm) (Selected : list nat) (s s' : State) :
  printString s = true → SSdata s = None → setup P Selected s = Some s' →
  SSdata s' = None ∧ length (SSline s') = count_selected s'.
Proof.
  intros Hprint Hdata. unfold setup.
  destruct (decide (Selected = [])) as [|_]; [discriminate|]. cbv zeta.
  set (n := if (0 <? finalSoluteRes P) then Z.to_nat (finalSoluteRes P) else nres P).
  set (s2 := for_loop n (setup_push n) (set_Nres n s)).
  assert (H2 : printString s2 = true ∧ SSdata s2 = None).
  { unfold s2.
    apply (for_loop_ind (λ _ st, printString st = true ∧ SSdata st = None)).
    - split; assumption.
    - intros k st _ IH. unfold setup_push.
      destruct (length (SecStruct st) <=? k)%nat; exact IH. }
  assert (H3 : ∀ atoms st, printString st = true ∧ SSdata st = None →
                 printString (foldl (setup_atom P) st atoms) = true ∧
                 SSdata (foldl (setup_atom P) st atoms) = None).
  { induction atoms as [|atom atoms IH]; intros st Hst; [exact Hst|].
    cbn [foldl]. apply IH. unfold setup_atom. cbv zeta.
    repeat (destruct (String.eqb _ _)); exact Hst. }
  destruct (H3 Selected s2 H2) as (Hp3 & Hd3).
  rewrite Hp3. cbn [negb]. intros Hs'. injection Hs' as <-.
  split; [exact Hd3|].
  cbn [SSline set_SSline]. rewrite length_resize. reflexivity.
Qed.

(** C9. In string mode ([SSdata] is NULL and the buffer has one place
    per selected residue) the line that [action] emits for a frame is,
    residue by residue in ascending order of the selected residues,
    the character of the residue's final label under the fixed
    mapping 0, b, B, G, H, I, T for None, Para, Anti, 3-10, Alpha, Pi,
    Turn, which is the table [SSchar] indexed by the label; with
    [printString] the line is the entry appended to the string data
    set for the current frame; and no other character occurs in it. *)
Theorem emitted_codes_fixed_mapping (fac : float) (DIST : Z → Z → float) (cf : nat)
    (s : State) :
  SSdata s = None → length (SSline s) = count_selected s →
  let s' := action fac DIST cf s in
  SSline s' = SScode <$> selected_labels s' ∧
  (printString s = true → last (dssp s') = Some (cf, SSline s')) ∧
  (∀ c, c ∈ SSline s' → c ∈ ["0"; "b"; "B"; "G"; "H"; "I"; "T"]%char) ∧
  (∀ t, nth (SStype_index t) SSchar "000"%char = SScode t).
Proof.
  intros Hdata Hlen s'.
  set (s1 := hbond_pass fac DIST s).
  set (s3 := turn_pass (ss_pass s1)).
  assert (H13 : preserves isSelected s s3).
  { eapply preserves_trans.
    - eapply (preserves_weaken backbone); [|apply hbond_pass_preserves].
      intros r r' Hrr. injection Hrr. auto.
    - eapply (preserves_weaken but_label); [|apply classify_preserves].
      intros r r' Hrr. injection Hrr. auto. }
  destruct H13 as (Hshell & _ & Hsel).
  assert (Hdata3 : SSdata s3 = None) by (rewrite Hshell; exact Hdata).
  assert (Hnres3 : Nres s3 = Nres s) by (rewrite Hshell; reflexivity).
  assert (Hlen3 : length (SSline s3) = count_selected s3).
  { unfold count_selected. rewrite Hnres3, (selected_upto_ext s s3) by exact Hsel.
    rewrite Hshell. exact Hlen. }
  destruct (store_pass_line cf s3 Hdata3 Hlen3) as (Hline & Hn4 & Hp4 & Hd4 & Hsel4).
  fold s1 in s'.
  assert (Hline' : SSline s' = SSline (store_pass cf s3)).
  { unfold s', action. cbv zeta. fold s1 s3. destruct (printString _); reflexivity. }
  assert (Hlab' : selected_labels s' = selected_labels s3).
  { unfold selected_labels.
    assert (Hn' : Nres s' = Nres s3).
    { rewrite <- Hn4. unfold s', action. cbv zeta. fold s1 s3.
      destruct (printString _); reflexivity. }
    assert (Hs' : ∀ r, isSelected (res_at s' r) = isSelected (res_at s3 r)).
    { intros r. rewrite <- Hsel4. unfold s', action. cbv zeta. fold s1 s3.
      destruct (printString _); reflexivity. }
    rewrite Hn', (selected_upto_ext s3 s') by exact Hs'.
    apply map_ext. intros r. apply action_label. }
  assert (Hcodes : SSline s' = SScode <$> selected_labels s')
    by (rewrite Hline', Hlab'; exact Hline).
  split; [exact Hcodes|]. split; [|split].
  - intros Hprint. unfold s', action. cbv zeta. fold s1 s3.
    assert (Hp : printString (store_pass cf s3) = true).
    { rewrite Hp4, Hshell. exact Hprint. }
    rewrite Hp. cbn. apply last_snoc.
  - intros c Hc. rewrite Hcodes in Hc.
    apply list_elem_of_fmap in Hc as (t & -> & _).
    destruct t; cbn [SScode]; rewrite !elem_of_cons; tauto.
  - apply SSchar_SScode.
Qed.

Lemma emitted_codes_fixed_mapping_witness :
  SSline (action example_fac example_DIST 7 example_setup) = ["0"; "T"; "T"; "0"]%char.
Proof.
  destruct (emitted_codes_fixed_mapping example_fac example_DIST 7 example_setup)
    as (Hline & _).
  - reflexivity.
  - vm_compute. reflexivity.
  - rewrite Hline. vm_compute. reflexivity.
Defined.

(** *** The hydrogen-bond matrix *)

Lemma hbond_pair_step (fac : float) (DIST : Z → Z → float) (i : nat) (C O : Z)
    (s : State) (k : nat) :
  hbond_pair fac DIST i C O s k =
    if hbond_pair_test fac DIST s i k C O
    then upd_res i (λ r, set_CO_HN_Hbond (<[k := true]> (CO_HN_Hbond r)) r) s
    else s.
Proof.
  unfold hbond_pair, hbond_pair_test.
  destruct (isSelected (res_at s k)); cbn [negb andb]; [|reflexivity].
  destruct (i =? k)%nat; cbn [negb andb]; [reflexivity|].
  destruct (_ || _); cbn [negb andb]; reflexivity.
Qed.

Lemma backbone_fields (r r' : Residue) :
  backbone r = backbone r' →
  isSelected r = isSelected r' ∧ atomC r = atomC r' ∧ atomO r = atomO r' ∧
  atomN r = atomN r' ∧ atomH r = atomH r'.
Proof. unfold backbone. intros H. injection H. auto. Qed.

Lemma hbond_pair_test_ext (fac : float) (DIST : Z → Z → float) (s s' : State)
    (i j : nat) (C O : Z) :
  preserves backbone s s' →
  hbond_pair_test fac DIST s' i j C O = hbond_pair_test fac DIST s i j C O.
Proof.
  intros (_ & _ & Hb). unfold hbond_pair_test.
  destruct (backbone_fields _ _ (Hb j)) as (-> & _ & _ & -> & ->). reflexivity.
Qed.

Lemma hbond_expected_ext (fac : float) (DIST : Z → Z → float) (s s' : State) (i j : nat) :
  preserves backbone s s' →
  hbond_expected fac DIST s' i j = hbond_expected fac DIST s i j.
Proof.
  intros Hp. unfold hbond_expected.
  rewrite (hbond_pair_test_ext fac DIST s s') by exact Hp.
  rewrite (preserves_Nres _ _ _ Hp).
  destruct Hp as (_ & _ & Hb).
  destruct (backbone_fields _ _ (Hb i)) as (_ & -> & -> & _ & _). reflexivity.
Qed.

Lemma entry_insert (row : list bool) (k j : nat) :
  default false (<[k := true]> row !! j) =
    ((k =? j)%nat && (k <? length row)%nat) || default false (row !! j).
Proof.
  rewrite list_lookup_insert.
  destruct (Nat.ltb_spec k (length row)) as [Hlt|Hge], (Nat.eqb_spec k j) as [Heq|Hne];
    cbn [andb orb].
  - rewrite decide_True by (split; [exact Heq|exact Hlt]). reflexivity.
  - rewrite decide_False by tauto. reflexivity.
  - rewrite decide_False by lia. reflexivity.
  - rewrite decide_False by tauto. reflexivity.
Qed.

(** The inner loop over [resj], run for [n] iterations from a state
    [s1]: it sets the entries of row [i] that pass [hbond_pair_test]
    and touches nothing else. *)
Lemma hbond_pair_loop (fac : float) (DIST : Z → Z → float) (i : nat) (C O : Z)
    (s1 : State) (n : nat) :
  (i < length (SecStruct s1))%nat →
  let st := for_loop n (hbond_pair fac DIST i C O) s1 in
  preserves backbone s1 st ∧
  (∀ r, r ≠ i → res_at st r = res_at s1 r) ∧
  sstype (res_at st i) = sstype (res_at s1 i) ∧
  length (CO_HN_Hbond (res_at st i)) = length (CO_HN_Hbond (res_at s1 i)) ∧
  ∀ j, hbond_entry st i j =
         ((j <? n)%nat && (j <? length (CO_HN_Hbond (res_at s1 i)))%nat &&
          hbond_pair_test fac DIST s1 i j C O) || hbond_entry s1 i j.
Proof.
  intros Hi. cbv zeta.
  apply (for_loop_ind (λ k st,
    preserves backbone s1 st ∧
    (∀ r, r ≠ i → res_at st r = res_at s1 r) ∧
    sstype (res_at st i) = sstype (res_at s1 i) ∧
    length (CO_HN_Hbond (res_at st i)) = length (CO_HN_Hbond (res_at s1 i)) ∧
    ∀ j, hbond_entry st i j =
           ((j <? k)%nat && (j <? length (CO_HN_Hbond (res_at s1 i)))%nat &&
            hbond_pair_test fac DIST s1 i j C O) || hbond_entry s1 i j)).
  - split; [apply preserves_refl|]. repeat split; reflexivity.
  - intros k st _ (Hp & Hother & Hlab & Hlen & Hrow).
    rewrite hbond_pair_step, (hbond_pair_test_ext fac DIST s1 st) by exact Hp.
    assert (Hi' : (i < length (SecStruct st))%nat) by (destruct Hp as (_ & -> & _); exact Hi).
    destruct (hbond_pair_test fac DIST s1 i k C O) eqn:Htest.
    + split; [eapply preserves_trans; [exact Hp|apply preserves_upd; reflexivity]|].
      split; [intros r Hr; rewrite res_at_upd_ne by congruence; apply Hother, Hr|].
      rewrite res_at_upd_eq by exact Hi'. cbn [sstype CO_HN_Hbond set_CO_HN_Hbond].
      split; [exact Hlab|]. split; [rewrite length_insert; exact Hlen|].
      intros j. unfold hbond_entry. rewrite res_at_upd_eq by exact Hi'.
      cbn [CO_HN_Hbond set_CO_HN_Hbond]. rewrite entry_insert, Hlen.
      fold (hbond_entry st i j). rewrite Hrow.
      destruct (Nat.eqb_spec k j) as [->|Hne].
      * rewrite Htest. replace (j <? S j)%nat with true by (symmetry; apply Nat.ltb_lt; lia).
        rewrite Nat.ltb_irrefl. unfold hbond_entry.
        destruct (j <? _)%nat, (default false _); reflexivity.
      * replace (j <? S k)%nat with (j <? k)%nat; [reflexivity|].
        destruct (Nat.ltb_spec j k), (Nat.ltb_spec j (S k)); try reflexivity; lia.
    + split; [exact Hp|]. split; [exact Hother|]. split; [exact Hlab|]. split; [exact Hlen|].
      intros j. rewrite Hrow.
      destruct (Nat.eqb_spec k j) as [->|Hne].
      * rewrite Htest. rewrite !andb_false_r. reflexivity.
      * replace (j <? S k)%nat with (j <? k)%nat; [reflexivity|].
        destruct (Nat.ltb_spec j k), (Nat.ltb_spec j (S k)); try reflexivity; lia.
Qed.

Lemma entry_replicate (n j : nat) : default false (replicate n false !! j) = false.
Proof.
  destruct (replicate n false !! j) as [b|] eqn:Hl; [|reflexivity].
  apply lookup_replicate in Hl as [-> _]. reflexivity.
Qed.

(** One iteration of the outer loop: the row of a selected residue is
    reset and recomputed, no other residue is touched. *)
Lemma hbond_row_spec (fac : float) (DIST : Z → Z → float) (s : State) (i : nat) :
  let s' := hbond_row fac DIST s i in
  (∀ r, r ≠ i → res_at s' r = res_at s r) ∧
  (isSelected (res_at s i) = true →
     sstype (res_at s' i) = SECSTRUCT_NULL ∧
     ∀ j, hbond_entry s' i j = hbond_expected fac DIST s i j).
Proof.
  cbv zeta. unfold hbond_row.
  destruct (isSelected (res_at s i)) eqn:Hsel; cbn [negb];
    [|split; [reflexivity|discriminate]].
  pose proof (selected_in_range s i Hsel) as Hi.
  set (s1 := upd_res i (λ r, set_CO_HN_Hbond (replicate (Nres s) false)
                               (set_sstype SECSTRUCT_NULL r)) s).
  assert (Hp1 : preserves backbone s s1) by (apply preserves_upd; reflexivity).
  assert (H1i : res_at s1 i = set_CO_HN_Hbond (replicate (Nres s) false)
                                (set_sstype SECSTRUCT_NULL (res_at s i)))
    by (apply res_at_upd_eq; exact Hi).
  assert (H1o : ∀ r, r ≠ i → res_at s1 r = res_at s r)
    by (intros r Hr; apply res_at_upd_ne; congruence).
  assert (Hentry1 : ∀ j, hbond_entry s1 i j = false).
  { intros j. unfold hbond_entry. rewrite H1i. cbn [CO_HN_Hbond set_CO_HN_Hbond].
    apply entry_replicate. }
  cbv zeta. rewrite H1i. cbn [atomC atomO set_CO_HN_Hbond set_sstype].
  destruct ((atomC (res_at s i) =? -1) || (atomO (res_at s i) =? -1)) eqn:Hmiss.
  - split; [exact H1o|]. intros _. split; [rewrite H1i; reflexivity|].
    intros j. rewrite Hentry1. unfold hbond_expected. rewrite Hmiss. reflexivity.
  - assert (Hi1 : (i < length (SecStruct s1))%nat) by (unfold s1; rewrite length_upd; exact Hi).
    destruct (hbond_pair_loop fac DIST i (atomC (res_at s i)) (atomO (res_at s i))
                s1 (Nres s1) Hi1) as (Hp & Hother & Hlab & Hlen & Hrow).
    split; [intros r Hr; rewrite Hother by exact Hr; apply H1o, Hr|].
    intros _. split; [rewrite Hlab, H1i; reflexivity|].
    intros j. rewrite Hrow, Hentry1, orb_false_r.
    rewrite H1i. cbn [CO_HN_Hbond set_CO_HN_Hbond]. rewrite length_replicate.
    rewrite (hbond_pair_test_ext fac DIST s s1) by exact Hp1.
    unfold hbond_expected. rewrite Hmiss. cbn [negb andb].
    change (Nres s1) with (Nres s). destruct (j <? Nres s)%nat; reflexivity.
Qed.

(** The whole hydrogen-bond computation. *)
Lemma hbond_pass_spec (fac : float) (DIST : Z → Z → float) (s : State) (i : nat) :
  (i < Nres s)%nat → isSelected (res_at s i) = true →
  label (hbond_pass fac DIST s) i = SECSTRUCT_NULL ∧
  ∀ j, hbond_entry (hbond_pass fac DIST s) i j = hbond_expected fac DIST s i j.
Proof.
  intros Hi Hsel. unfold hbond_pass.
  assert (Hinv : preserves backbone s (for_loop (Nres s) (hbond_row fac DIST) s) ∧
    ∀ i, (i < Nres s)%nat → isSelected (res_at s i) = true →
      sstype (res_at (for_loop (Nres s) (hbond_row fac DIST) s) i) = SECSTRUCT_NULL ∧
      ∀ j, hbond_entry (for_loop (Nres s) (hbond_row fac DIST) s) i j =
             hbond_expected fac DIST s i j).
  { apply (for_loop_ind (λ k st,
      preserves backbone s st ∧
      ∀ i, (i < k)%nat → isSelected (res_at s i) = true →
        sstype (res_at st i) = SECSTRUCT_NULL ∧
        ∀ j, hbond_entry st i j = hbond_expected fac DIST s i j)).
    - split; [apply preserves_refl|]. intros i0 Hlt. lia.
    - intros k st _ (Hp & Hrows).
      destruct (hbond_row_spec fac DIST st k) as (Hother & Hk).
      split; [eapply preserves_trans; [exact Hp|apply hbond_row_preserves]|].
      intros i0 Hlt Hsel0. destruct (decide (i0 = k)) as [->|Hne].
      + destruct Hk as (Hlab & Hrow).
        { destruct Hp as (_ & _ & Hb).
          destruct (backbone_fields _ _ (Hb k)) as (-> & _). exact Hsel0. }
        split; [exact Hlab|]. intros j. rewrite Hrow. apply hbond_expected_ext, Hp.
      + unfold hbond_entry. rewrite (Hother i0 Hne). apply Hrows; [lia|exact Hsel0]. }
  destruct Hinv as (_ & Hall). apply (Hall i Hi Hsel).
Qed.

(** [isBonded] after the hydrogen-bond computation. *)
Lemma isBonded_hbond_pass (fac : float) (DIST : Z → Z → float) (s : State) (i j : nat) :
  isBonded (hbond_pass fac DIST s) (Z.of_nat i) (Z.of_nat j) =
    (i <? Nres s)%nat && isSelected (res_at s i) && isSelected (res_at s j) &&
    hbond_expected fac DIST s i j.
Proof.
  pose proof (hbond_pass_preserves fac DIST s) as Hp.
  unfold isBonded. rewrite !Nat2Z.id, (preserves_Nres _ _ _ Hp).
  destruct Hp as (_ & _ & Hb).
  destruct (backbone_fields _ _ (Hb i)) as (-> & _).
  destruct (backbone_fields _ _ (Hb j)) as (-> & _).
  destruct (Z.ltb_spec (Z.of_nat i) 0); [lia|].
  destruct (Z.ltb_spec (Z.of_nat j) 0); [lia|].
  destruct (Z.leb_spec (Z.of_nat (Nres s)) (Z.of_nat i)) as [Hi|Hi].
  { replace (i <? Nres s)%nat with false by (symmetry; apply Nat.ltb_ge; lia). reflexivity. }
  replace (i <? Nres s)%nat with true by (symmetry; apply Nat.ltb_lt; lia).
  destruct (Z.leb_spec (Z.of_nat (Nres s)) (Z.of_nat j)) as [Hj|Hj].
  { unfold hbond_expected.
    replace (j <? Nres s)%nat with false by (symmetry; apply Nat.ltb_ge; lia).
    rewrite andb_false_r. cbn [andb]. rewrite !andb_false_r. reflexivity. }
  destruct (isSelected (res_at s i)) eqn:Hsi; cbn [negb andb]; [|reflexivity].
  destruct (isSelected (res_at s j)) eqn:Hsj; cbn [negb andb]; [|reflexivity].
  destruct (hbond_pass_spec fac DIST s i ltac:(lia) Hsi) as (_ & Hrow).
  fold (hbond_entry (hbond_pass fac DIST s) i j). rewrite Hrow.
  destruct (hbond_expected fac DIST s i j); reflexivity.
Qed.

(** C3. After the hydrogen-bond computation of a frame, for residues
    [i] and [j] below [Nres], different, both selected, [i] with its C
    and O and [j] with its N and H, the entry of the matrix, and with
    it [isBonded], is true exactly when the energy
    [E = DSSP_fac * (1/r(O,N) + 1/r(C,H) - 1/r(O,H) - 1/r(C,N))], with
    [r] the distance of the frame between two atoms, is below -0.5;
    and whenever one of the four atoms is absent (-1) the pair is not
    bonded. The computation is a total function of the frame: nothing
    aborts it. *)
Theorem hbond_iff_energy_below_threshold (fac : float) (DIST : Z → Z → float)
    (s : State) (i j : nat) :
  let s' := hbond_pass fac DIST s in
  let ri := res_at s i in
  let rj := res_at s j in
  let r := DIST in
  let C := atomC ri in
  let O := atomO ri in
  let N := atomN rj in
  let H := atomH rj in
  let E := (fac * (1 / r O N + 1 / r C H - 1 / r O H - 1 / r C N))%float in
  ((i < Nres s)%nat → (j < Nres s)%nat → i ≠ j →
   isSelected ri = true → isSelected rj = true →
   C ≠ -1 → O ≠ -1 → N ≠ -1 → H ≠ -1 →
     (hbond_entry s' i j = true ↔ (E <? -0.5)%float = true) ∧
     (isBonded s' (Z.of_nat i) (Z.of_nat j) = true ↔ (E <? -0.5)%float = true)) ∧
  (C = -1 ∨ O = -1 ∨ N = -1 ∨ H = -1 →
     isBonded s' (Z.of_nat i) (Z.of_nat j) = false).
Proof.
  cbv zeta. split.
  - intros Hi Hj Hij Hsi Hsj HC HO HN HH.
    assert (Hexp : hbond_expected fac DIST s i j =
              (fac * (1 / DIST (atomO (res_at s i)) (atomN (res_at s j)) +
                      1 / DIST (atomC (res_at s i)) (atomH (res_at s j)) -
                      1 / DIST (atomO (res_at s i)) (atomH (res_at s j)) -
                      1 / DIST (atomC (res_at s i)) (atomN (res_at s j))) <? -0.5)%float).
    { unfold hbond_expected, hbond_pair_test, hbond_energy. cbv zeta.
      apply Z.eqb_neq in HC, HO, HN, HH. rewrite HC, HO, HN, HH, Hsj.
      apply Nat.ltb_lt in Hj. rewrite Hj.
      apply Nat.eqb_neq in Hij. rewrite Hij. reflexivity. }
    split.
    + destruct (hbond_pass_spec fac DIST s i Hi Hsi) as (_ & Hrow).
      rewrite Hrow, Hexp. reflexivity.
    + rewrite isBonded_hbond_pass, Hexp, Hsi, Hsj.
      apply Nat.ltb_lt in Hi. rewrite Hi. reflexivity.
  - intros Hmiss. rewrite isBonded_hbond_pass.
    unfold hbond_expected, hbond_pair_test.
    destruct Hmiss as [H|[H|[H|H]]]; rewrite H; cbn [Z.eqb orb negb andb];
      rewrite ?Z.eqb_refl, ?orb_true_r, ?andb_false_r; cbn [orb negb andb];
      rewrite ?andb_false_r; reflexivity.
Qed.

Lemma hbond_iff_energy_below_threshold_witness :
  isBonded (hbond_pass example_fac example_DIST example_setup) (Z.of_nat 0) (Z.of_nat 3) = true ∧
  isBonded (hbond_pass example_fac example_helix_DIST example_helix_setup)
           (Z.of_nat 0) (Z.of_nat 4) = false.
Proof.
  split.
  - apply (proj1 (hbond_iff_energy_below_threshold
                    example_fac example_DIST example_setup 0 3)).
    + vm_compute. lia.
    + vm_compute. lia.
    + discriminate.
    + vm_compute. reflexivity.
    + vm_compute. reflexivity.
    + vm_compute. discriminate.
    + vm_compute. discriminate.
    + vm_compute. discriminate.
    + vm_compute. discriminate.
    + vm_compute. reflexivity.
  - apply not_true_is_false. intros Hb.
    apply (proj1 (hbond_iff_energy_below_threshold
                    example_fac example_helix_DIST example_helix_setup 0 4)) in Hb.
    + vm_compute in Hb. discriminate Hb.
    + vm_compute. lia.
    + vm_compute. lia.
    + discriminate.
    + vm_compute. reflexivity.
    + vm_compute. reflexivity.
    + vm_compute. discriminate.
    + vm_compute. discriminate.
    + vm_compute. discriminate.
    + vm_compute. discriminate.
Defined.

(** ** Further properties of the secondary-structure assignment *)

(** *** What [action] leaves alone *)

Lemma preserves_selected_backbone (s s' : State) (r : nat) :
  preserves backbone s s' → isSelected (res_at s' r) = isSelected (res_at s r).
Proof. intros (_ & _ & Hg). specialize (Hg r). injection Hg. auto. Qed.

Lemma preserves_selected_but_label (s s' : State) (r : nat) :
  preserves but_label s s' → isSelected (res_at s' r) = isSelected (res_at s r).
Proof. intros (_ & _ & Hg). specialize (Hg r). injection Hg. auto. Qed.

Lemma skipped_ext (s s' : State) (r : nat) :
  Nres s' = Nres s → isSelected (res_at s' r) = isSelected (res_at s r) →
  skipped s r → skipped s' r.
Proof. unfold skipped. intros -> ->. auto. Qed.

Lemma hbond_pass_skipped (fac : float) (DIST : Z → Z → float) (s : State) (r : nat) :
  skipped s r → res_at (hbond_pass fac DIST s) r = res_at s r.
Proof.
  intros Hskip. unfold hbond_pass.
  apply (for_loop_ind (λ _ st, preserves backbone s st ∧ res_at st r = res_at s r)
           (hbond_row fac DIST) s (Nres s)).
  - split; [apply preserves_refl|reflexivity].
  - intros k st Hk (Hp & Hr). split.
    + eapply preserves_trans; [exact Hp|apply hbond_row_preserves].
    + rewrite <- Hr. destruct (decide (r = k)) as [->|Hne].
      * destruct Hskip as [Hsel|Hge]; [|lia].
        unfold hbond_row. rewrite (preserves_selected_backbone s st k Hp), Hsel. reflexivity.
      * apply (hbond_row_spec fac DIST st k). exact Hne.
Qed.

Lemma SSassign_skipped (res2 : nat) (t : SStype) (r : nat) :
  ∀ (res1 : nat) (s : State),
    (res1 ≤ Nres s)%nat → skipped s r →
    res_at (SSassign res1 res2 t s) r = res_at s r.
Proof.
  intros res1. unfold SSassign. generalize (res2 - res1)%nat as n. intros n.
  revert res1. induction n as [|n IH]; intros res1 s Hle Hskip; [reflexivity|].
  cbn [seq SSassign_loop].
  destruct (Nat.eqb_spec res1 (Nres s)) as [_|Hne]; [reflexivity|].
  destruct (isSelected (res_at s res1)) eqn:Hsel; cbn [negb]; [|apply IH; [lia|exact Hskip]].
  destruct (decide (sstype (res_at s res1) = SECSTRUCT_NULL)) as [_|_];
    [|apply IH; [lia|exact Hskip]].
  assert (Hr : res1 ≠ r).
  { intros ->. destruct Hskip as [Hs|Hge]; [congruence|lia]. }
  rewrite IH.
  - apply res_at_upd_ne. exact Hr.
  - rewrite Nres_upd. lia.
  - apply (skipped_ext s); [reflexivity| |exact Hskip].
    apply (field_upd isSelected). reflexivity.
Qed.

Lemma beta_scan_other (resi : nat) (resjs : list nat) (s : State) (r : nat) :
  r ≠ resi → res_at (beta_scan resi resjs s) r = res_at s r.
Proof.
  intros Hne. induction resjs as [|resj rest IH]; cbn [beta_scan]; [reflexivity|].
  cbv zeta. destruct (negb _); [exact IH|].
  destruct (2 <? _); [|exact IH].
  destruct (_ || _); [apply res_at_upd_ne; congruence|].
  destruct (_ || _); [apply res_at_upd_ne; congruence|exact IH].
Qed.

Lemma ss_residue_skipped (s : State) (resi r : nat) :
  (resi < Nres s)%nat → skipped s r → res_at (ss_residue s resi) r = res_at s r.
Proof.
  intros Hlt Hskip. unfold ss_residue. cbv zeta.
  destruct (isSelected (res_at s resi)) eqn:Hsel; cbn [negb]; [|reflexivity].
  destruct (_ && _); [apply SSassign_skipped; [lia|exact Hskip]|].
  assert (Hr : r ≠ resi).
  { intros ->. destruct Hskip as [Hs|Hge]; [congruence|lia]. }
  pose proof (beta_scan_preserves resi (seq 0 (Nres s)) s) as Hp.
  pose proof (beta_scan_other resi (seq 0 (Nres s)) s r Hr) as Hb.
  assert (Hskip' : skipped (beta_scan resi (seq 0 (Nres s)) s) r).
  { apply (skipped_ext s); [apply (preserves_Nres _ _ _ Hp)| |exact Hskip].
    apply (preserves_selected_but_label _ _ _ Hp). }
  assert (Hlt' : (resi ≤ Nres (beta_scan resi (seq 0 (Nres s)) s))%nat)
    by (rewrite (preserves_Nres _ _ _ Hp); lia).
  destruct (decide _).
  - destruct (negb _); [exact Hb|].
    destruct (_ && _); [rewrite SSassign_skipped; assumption|].
    destruct (_ && _); [rewrite SSassign_skipped; assumption|exact Hb].
  - destruct (_ && _); [apply SSassign_skipped; [lia|exact Hskip]|].
    destruct (_ && _); [apply SSassign_skipped; [lia|exact Hskip]|reflexivity].
Qed.

Lemma turn_residue_skipped (s : State) (resi r : nat) :
  (resi < Nres s)%nat → skipped s r → res_at (turn_residue s resi) r = res_at s r.
Proof.
  intros Hlt Hskip. unfold turn_residue. destruct (negb _); [reflexivity|].
  generalize [5; 4; 3]%nat. intros spans.
  induction spans as [|resj rest IH]; cbn [turn_scan]; [reflexivity|].
  destruct (isBonded _ _ _); [apply SSassign_skipped; [lia|exact Hskip]|exact IH].
Qed.

Lemma loop_skipped (body : State → nat → State) (s : State) (r : nat) :
  (∀ st k, preserves but_label st (body st k)) →
  (∀ st k, (k < Nres st)%nat → skipped st r → res_at (body st k) r = res_at st r) →
  skipped s r → res_at (for_loop (Nres s) body s) r = res_at s r.
Proof.
  intros Hpres Hbody Hskip.
  apply (for_loop_ind (λ _ st, preserves but_label s st ∧ res_at st r = res_at s r)
           body s (Nres s)).
  - split; [apply preserves_refl|reflexivity].
  - intros k st Hk (Hp & Hr). split; [eapply preserves_trans; [exact Hp|apply Hpres]|].
    rewrite <- Hr. apply Hbody.
    + rewrite (preserves_Nres _ _ _ Hp). exact Hk.
    + apply (skipped_ext s); [apply (preserves_Nres _ _ _ Hp)| |exact Hskip].
      apply (preserves_selected_but_label _ _ _ Hp).
Qed.

Lemma classify_skipped (s : State) (r : nat) :
  skipped s r → res_at (turn_pass (ss_pass s)) r = res_at s r.
Proof.
  intros Hskip.
  pose proof (preserves_for_loop but_label ss_residue (Nres s) s ss_residue_preserves) as Hp.
  unfold turn_pass, turn_pass_upto, ss_pass, ss_pass_upto in *.
  rewrite (loop_skipped turn_residue).
  - apply (loop_skipped ss_residue); [apply ss_residue_preserves| |exact Hskip].
    intros st k. apply ss_residue_skipped.
  - apply turn_residue_preserves.
  - intros st k. apply turn_residue_skipped.
  - apply (skipped_ext s); [apply (preserves_Nres _ _ _ Hp)| |exact Hskip].
    apply (preserves_selected_but_label _ _ _ Hp).
Qed.

(** *** The store loop *)

(** The store loop after [k] residues: the residues below [k] that are
    selected have one more count for their label, in integer mode one
    record each was appended, and nothing else of the residue table
    changed. *)
Lemma store_loop_spec (cf : nat) (s : State) (k : nat) :
  let acc := for_loop k (store_residue cf) (s, 0%nat) in
  let st := fst acc in
  Nres st = Nres s ∧ length (SecStruct st) = length (SecStruct s) ∧
  printString st = printString s ∧ sumOut st = sumOut s ∧ dssp st = dssp s ∧
  Nframe st = Nframe s ∧
  (∀ r, but_counts (res_at st r) = but_counts (res_at s r)) ∧
  (∀ r, SSprob (res_at st r) =
        if decide ((r < k)%nat ∧ isSelected (res_at s r) = true)
        then count_label (label s r) (SSprob (res_at s r))
        else SSprob (res_at s r)) ∧
  match SSdata s with
  | Some d => SSdata st = Some (d ++ map (λ r, (cf, r, label s r)) (selected_upto s k)) ∧
              SSline st = SSline s
  | None => SSdata st = None
  end.
Proof.
  induction k as [|k IH]; cbv zeta.
  - cbn [for_loop foldl seq fst]. repeat apply conj; try reflexivity.
    destruct (SSdata s) as [d|]; [|reflexivity]. cbn. rewrite app_nil_r. auto.
  - rewrite for_loop_S. cbv zeta in IH.
    destruct (for_loop k (store_residue cf) (s, 0%nat)) as [st resj].
    cbn [fst] in IH. destruct IH as (HN & HL & HP & HS & HD & HF & Hres & Hcnt & Hdata).
    assert (Hsel : isSelected (res_at st k) = isSelected (res_at s k))
      by (specialize (Hres k); injection Hres; auto).
    assert (Hlab : sstype (res_at st k) = label s k)
      by (specialize (Hres k); injection Hres; auto).
    unfold store_residue. rewrite selected_upto_S.
    destruct (isSelected (res_at s k)) eqn:Hk; rewrite Hsel; cbn [negb].
    + set (st1 := upd_res k _ st).
      assert (H1 : ∀ r, but_counts (res_at st1 r) = but_counts (res_at s r)).
      { intros r. rewrite <- Hres. apply (field_upd but_counts). reflexivity. }
      assert (Hc1 : ∀ r, SSprob (res_at st1 r) =
                if decide ((r < S k)%nat ∧ isSelected (res_at s r) = true)
                then count_label (label s r) (SSprob (res_at s r))
                else SSprob (res_at s r)).
      { intros r. unfold st1. rewrite res_at_upd.
        assert (Hklt : (k < length (SecStruct st))%nat).
        { apply selected_in_range. rewrite Hsel. reflexivity. }
        destruct (decide (k = r)) as [<-|Hne].
        - rewrite (decide_True (P := k = k ∧ _)) by auto.
          rewrite (decide_True (P := (k < S k)%nat ∧ _)) by auto.
          cbn [SSprob set_SSprob]. rewrite Hlab, Hcnt.
          rewrite decide_False by lia. reflexivity.
        - rewrite (decide_False (P := k = r ∧ _)) by tauto.
          rewrite Hcnt. apply decide_ext. intuition lia. }
      assert (Hd1 : SSdata st1 = SSdata st) by reflexivity.
      rewrite Hd1. rewrite Hlab.
      destruct (SSdata s) as [d|].
      * destruct Hdata as (Hd & Hline). rewrite Hd. cbn [fst].
        repeat apply conj; try assumption; try (cbn; rewrite ?length_alter; assumption).
        cbn. rewrite map_app, app_assoc. reflexivity.
      * rewrite Hdata. cbn [fst].
        repeat apply conj; try assumption; try (cbn; rewrite ?length_alter; assumption).
    + cbn [fst]. rewrite app_nil_r.
      repeat apply conj; try assumption.
      intros r. rewrite Hcnt. apply decide_ext.
      split; [intros [? ?]; split; [lia|assumption]|].
      intros [Hlt Hr]. split; [|exact Hr].
      destruct (decide (r = k)) as [->|]; [congruence|lia].
Qed.

Lemma residue_eq (r1 r2 : Residue) :
  but_counts r1 = but_counts r2 → SSprob r1 = SSprob r2 → r1 = r2.
Proof.
  destruct r1, r2. unfold but_counts. cbn. intros Hb Hp. injection Hb. congruence.
Qed.

Lemma action_res_at (fac : float) (DIST : Z → Z → float) (cf : nat) (s : State) (r : nat) :
  res_at (action fac DIST cf s) r =
    res_at (store_pass cf (turn_pass (ss_pass (hbond_pass fac DIST s)))) r.
Proof. unfold action. cbv zeta. destruct (printString _); reflexivity. Qed.

(** The three passes before the store loop, together. *)
Lemma passes_preserve (fac : float) (DIST : Z → Z → float) (s : State) :
  let s3 := turn_pass (ss_pass (hbond_pass fac DIST s)) in
  s3 = set_SecStruct (SecStruct s3) s ∧
  length (SecStruct s3) = length (SecStruct s) ∧
  (∀ r, setup_of (res_at s3 r) = setup_of (res_at s r)) ∧
  (∀ r, SSprob (res_at s3 r) = SSprob (res_at s r)).
Proof.
  cbv zeta.
  assert (Hp : preserves backbone s (turn_pass (ss_pass (hbond_pass fac DIST s)))).
  { eapply preserves_trans; [apply hbond_pass_preserves|].
    eapply (preserves_weaken but_label); [|apply classify_preserves].
    intros r r' Hrr. unfold backbone. injection Hrr. congruence. }
  destruct Hp as (He & Hl & Hg). split; [exact He|]. split; [exact Hl|].
  split; intros r; specialize (Hg r); unfold setup_of; injection Hg; congruence.
Qed.

(** What [action] keeps and what it passes over. *)
Lemma action_frame (fac : float) (DIST : Z → Z → float) (cf : nat) (s : State) :
  let s' := action fac DIST cf s in
  Nres s' = Nres s ∧ length (SecStruct s') = length (SecStruct s) ∧
  printString s' = printString s ∧ sumOut s' = sumOut s ∧
  (∀ r, setup_of (res_at s' r) = setup_of (res_at s r)) ∧
  (∀ r, skipped s r → res_at s' r = res_at s r).
Proof.
  cbv zeta.
  destruct (passes_preserve fac DIST s) as (He & Hl & Hsetup & _). cbv zeta in *.
  set (s3 := turn_pass (ss_pass (hbond_pass fac DIST s))) in *.
  destruct (store_loop_spec cf s3 (Nres s3))
    as (HN & HL & HP & HS & _ & _ & Hres & Hcnt & _). cbv zeta in *.
  fold (store_pass cf s3) in *.
  assert (HN3 : Nres s3 = Nres s) by (rewrite He; reflexivity).
  repeat apply conj.
  - unfold action. cbv zeta. fold s3. destruct (printString _); cbn; congruence.
  - unfold action. cbv zeta. fold s3. destruct (printString _); cbn; congruence.
  - unfold action. cbv zeta. fold s3.
    transitivity (printString s3); [|rewrite He; reflexivity].
    destruct (printString (store_pass cf s3)) eqn:Hps; cbn; congruence.
  - unfold action. cbv zeta. fold s3.
    transitivity (sumOut s3); [|rewrite He; reflexivity].
    destruct (printString _); cbn; congruence.
  - intros r. rewrite action_res_at. fold s3. rewrite <- Hsetup.
    specialize (Hres r). unfold setup_of. injection Hres. congruence.
  - intros r Hskip. rewrite action_res_at. fold s3.
    assert (H1 : res_at (hbond_pass fac DIST s) r = res_at s r)
      by (apply hbond_pass_skipped; exact Hskip).
    assert (Hskip1 : skipped (hbond_pass fac DIST s) r).
    { apply (skipped_ext s); [|rewrite H1; reflexivity|exact Hskip].
      apply (preserves_Nres _ _ _ (hbond_pass_preserves fac DIST s)). }
    assert (H3 : res_at s3 r = res_at s r)
      by (unfold s3; rewrite classify_skipped; assumption).
    rewrite <- H3. apply residue_eq; [apply Hres|].
    rewrite Hcnt. apply decide_False. intros [Hlt Hsel].
    rewrite H3 in Hsel. destruct Hskip as [Hs|Hge]; [congruence|lia].
Qed.

(** X10. [action] keeps what [setup] fixed (the number of residues, the
    residue table's length, the selection and the backbone atoms of
    every residue, the output mode and the summary file), and leaves
    every residue it passes over, unselected or at or beyond [Nres],
    exactly as it was: label, bond row and counters. *)
Theorem action_keeps_setup (fac : float) (DIST : Z → Z → float) (cf : nat) (s : State) :
  let s' := action fac DIST cf s in
  Nres s' = Nres s ∧ length (SecStruct s') = length (SecStruct s) ∧
  printString s' = printString s ∧ sumOut s' = sumOut s ∧
  (∀ r, setup_of (res_at s' r) = setup_of (res_at s r)) ∧
  (∀ r, skipped s r → res_at s' r = res_at s r).
Proof. exact (action_frame fac DIST cf s). Qed.

(** The counters after [action]. *)
Lemma action_counters (fac : float) (DIST : Z → Z → float) (cf : nat)
    (s : State) :
  let s' := action fac DIST cf s in
  Nframe s' = (Nframe s + 1)%float ∧
  ∀ r, SSprob (res_at s' r) =
       if decide ((r < Nres s)%nat ∧ isSelected (res_at s r) = true)
       then count_label (label s' r) (SSprob (res_at s r))
       else SSprob (res_at s r).
Proof.
  cbv zeta.
  destruct (passes_preserve fac DIST s) as (He & Hl & Hsetup & Hprob). cbv zeta in *.
  set (s3 := turn_pass (ss_pass (hbond_pass fac DIST s))) in *.
  destruct (store_loop_spec cf s3 (Nres s3))
    as (_ & _ & _ & _ & _ & HF & _ & Hcnt & _). cbv zeta in *.
  fold (store_pass cf s3) in *.
  assert (HN3 : Nres s3 = Nres s) by (rewrite He; reflexivity).
  split.
  - unfold action. cbv zeta. fold s3.
    assert (HF3 : Nframe s3 = Nframe s) by (rewrite He; reflexivity).
    destruct (printString _); cbn; congruence.
  - intros r. rewrite action_res_at. fold s3. rewrite Hcnt, HN3, Hprob.
    assert (Hsel : isSelected (res_at s3 r) = isSelected (res_at s r))
      by (specialize (Hsetup r); unfold setup_of in Hsetup; injection Hsetup; auto).
    rewrite Hsel. rewrite action_label. reflexivity.
Qed.

(** X15. [action] counts the frame once: the frame counter grows by one,
    and of every selected residue below [Nres] exactly the counter of
    its final label grows by one; no other counter changes. *)
Theorem action_counts_final_label (fac : float) (DIST : Z → Z → float) (cf : nat)
    (s : State) :
  let s' := action fac DIST cf s in
  Nframe s' = (Nframe s + 1)%float ∧
  ∀ r, SSprob (res_at s' r) =
       if decide ((r < Nres s)%nat ∧ isSelected (res_at s r) = true)
       then count_label (label s' r) (SSprob (res_at s r))
       else SSprob (res_at s r).
Proof. exact (action_counters fac DIST cf s). Qed.

(** X16. In integer mode ([SSdata] is set) [action] appends one record
    per selected residue below [Nres], in ascending residue order,
    with the residue's final label, and does not write the line
    buffer; with [printString] off the string data set is not written
    either. *)
Theorem integer_mode_records_labels (fac : float) (DIST : Z → Z → float) (cf : nat)
    (s : State) (d : list (nat * nat * SStype)) :
  SSdata s = Some d →
  let s' := action fac DIST cf s in
  SSdata s' = Some (d ++ map (λ r, (cf, r, label s' r)) (selected_upto s (Nres s))) ∧
  SSline s' = SSline s ∧
  (printString s = false → dssp s' = dssp s).
Proof.
  intros Hd. cbv zeta.
  destruct (passes_preserve fac DIST s) as (He & Hl & Hsetup & _). cbv zeta in *.
  set (s3 := turn_pass (ss_pass (hbond_pass fac DIST s))) in *.
  destruct (store_loop_spec cf s3 (Nres s3))
    as (_ & _ & HP & _ & HD & _ & _ & _ & Hdata). cbv zeta in *.
  fold (store_pass cf s3) in *.
  assert (HN3 : Nres s3 = Nres s) by (rewrite He; reflexivity).
  assert (Hd3 : SSdata s3 = Some d) by (rewrite He; exact Hd).
  rewrite Hd3 in Hdata. destruct Hdata as (Hdata & Hline).
  assert (Hsel : ∀ r, isSelected (res_at s3 r) = isSelected (res_at s r))
    by (intros r; specialize (Hsetup r); unfold setup_of in Hsetup; injection Hsetup; auto).
  repeat apply conj.
  - transitivity (SSdata (store_pass cf s3)).
    { unfold action. cbv zeta. fold s3. destruct (printString _); reflexivity. }
    rewrite Hdata, HN3, (selected_upto_ext s s3 (Nres s) Hsel).
    do 2 f_equal. apply map_ext. intros r. rewrite action_label. reflexivity.
  - transitivity (SSline (store_pass cf s3)).
    { unfold action. cbv zeta. fold s3. destruct (printString _); reflexivity. }
    rewrite Hline, He. reflexivity.
  - intros Hps. unfold action. cbv zeta. fold s3.
    assert (Hps3 : printString (store_pass cf s3) = false)
      by (rewrite HP, He; exact Hps).
    rewrite Hps3. cbn. rewrite HD, He. reflexivity.
Qed.

Lemma integer_mode_records_labels_witness :
  SSline (action example_fac example_DIST 0 example_nostring) = SSline example_nostring.
Proof.
  apply (integer_mode_records_labels example_fac example_DIST 0 example_nostring []).
  reflexivity.
Defined.

(** *** Every label has its pattern *)

Section Bonds.

Variables s s' : State.
Hypothesis HN : Nres s' = Nres s.
Hypothesis Hsel : ∀ r, isSelected (res_at s' r) = isSelected (res_at s r).
Hypothesis Hrow : ∀ r, CO_HN_Hbond (res_at s' r) = CO_HN_Hbond (res_at s r).

Lemma isBonded_ext (a b : Z) : isBonded s' a b = isBonded s a b.
Proof. unfold isBonded. rewrite HN, !Hsel, Hrow. reflexivity. Qed.

Lemma helix_start_ext (t : SStype) (i : nat) : helix_start s' t i = helix_start s t i.
Proof. unfold helix_start. cbv zeta. rewrite !isBonded_ext. reflexivity. Qed.

Lemma para_pair_ext (i j : nat) : para_pair s' i j = para_pair s i j.
Proof. unfold para_pair. cbv zeta. rewrite !isBonded_ext. reflexivity. Qed.

Lemma anti_pair_ext (i j : nat) : anti_pair s' i j = anti_pair s i j.
Proof. unfold anti_pair. cbv zeta. rewrite !isBonded_ext. reflexivity. Qed.

Lemma justified_ext (r : nat) (t : SStype) : justified s r t → justified s' r t.
Proof.
  destruct t; cbn [justified]; try exact id.
  - intros (j & Hj & Hs & Hd & Hp). exists j.
    rewrite HN, Hsel, para_pair_ext. auto.
  - intros (j & Hj & Hs & Hd & Hp & Ha). exists j.
    rewrite HN, Hsel, para_pair_ext, anti_pair_ext. auto.
  - intros (i & Hs & Hr & Hh). exists i. rewrite Hsel, helix_start_ext. auto.
  - intros (i & Hs & Hr & Hh). exists i. rewrite Hsel, helix_start_ext. auto.
  - intros (i & Hs & Hr & Hh). exists i. rewrite Hsel, helix_start_ext. auto.
  - intros (i & span & Hs & Hsp & Hr & Hb). exists i, span.
    rewrite Hsel, isBonded_ext. auto.
Qed.

End Bonds.

Lemma but_label_bonds (s s' : State) :
  preserves but_label s s' →
  Nres s' = Nres s ∧
  (∀ r, isSelected (res_at s' r) = isSelected (res_at s r)) ∧
  (∀ r, CO_HN_Hbond (res_at s' r) = CO_HN_Hbond (res_at s r)).
Proof.
  intros Hp. split; [apply (preserves_Nres _ _ _ Hp)|].
  destruct Hp as (_ & _ & Hg).
  split; intros r; specialize (Hg r); unfold but_label in Hg; injection Hg; auto.
Qed.

Lemma justified_preserves (s s' : State) (r : nat) (t : SStype) :
  preserves but_label s s' → justified s r t → justified s' r t.
Proof.
  intros Hp. destruct (but_label_bonds s s' Hp) as (HN & Hsel & Hrow).
  apply justified_ext; assumption.
Qed.

(** The invariant of the two labelling loops. *)
Lemma justified_set_label (s : State) (resi : nat) (t : SStype) :
  (∀ r, (r < Nres s)%nat → isSelected (res_at s r) = true → justified s r (label s r)) →
  justified s resi t →
  ∀ r, (r < Nres s)%nat → isSelected (res_at s r) = true →
       justified (upd_res resi (set_sstype t) s) r
                 (label (upd_res resi (set_sstype t) s) r).
Proof.
  intros Hinv Ht r Hr Hsel.
  apply (justified_preserves s); [apply preserves_upd; reflexivity|].
  rewrite label_upd_sstype. destruct (decide _) as [[<- _]|_]; [exact Ht|].
  apply Hinv; assumption.
Qed.

Lemma justified_SSassign (s : State) (res1 res2 : nat) (t : SStype) :
  (res2 ≤ Nres s)%nat →
  (∀ r, (r < Nres s)%nat → isSelected (res_at s r) = true → justified s r (label s r)) →
  (∀ r, (res1 ≤ r < res2)%nat → justified s r t) →
  ∀ r, (r < Nres s)%nat → isSelected (res_at s r) = true →
       justified (SSassign res1 res2 t s) r (label (SSassign res1 res2 t s) r).
Proof.
  intros Hle Hinv Ht r Hr Hsel.
  apply (justified_preserves s); [apply SSassign_loop_preserves|].
  rewrite SSassign_label by exact Hle.
  destruct (decide _) as [(Hin & _)|_]; [apply Ht; exact Hin|].
  apply Hinv; assumption.
Qed.

Lemma justified_beta_scan (s : State) (resi : nat) (resjs : list nat) :
  (∀ j, j ∈ resjs → (j < Nres s)%nat) →
  (∀ r, (r < Nres s)%nat → isSelected (res_at s r) = true → justified s r (label s r)) →
  ∀ r, (r < Nres s)%nat → isSelected (res_at s r) = true →
       justified (beta_scan resi resjs s) r (label (beta_scan resi resjs s) r).
Proof.
  intros Hjs Hinv. induction resjs as [|resj rest IH]; cbn [beta_scan]; [exact Hinv|].
  assert (IH' := IH (λ j Hj, Hjs j ltac:(right; exact Hj))). clear IH.
  cbv zeta.
  destruct (isSelected (res_at s resj)) eqn:Hselj; cbn [negb]; [|exact IH'].
  destruct (Z.ltb_spec 2 (Z.abs (Z.of_nat resi - Z.of_nat resj))) as [Hd|_]; [|exact IH'].
  assert (Hj : (resj < Nres s)%nat) by (apply Hjs; left).
  change (isBonded s (Z.of_nat resi - 1) (Z.of_nat resj) &&
          isBonded s (Z.of_nat resj) (Z.of_nat resi + 1) ||
          isBonded s (Z.of_nat resj - 1) (Z.of_nat resi) &&
          isBonded s (Z.of_nat resi) (Z.of_nat resj + 1))
    with (para_pair s resi resj).
  change (isBonded s (Z.of_nat resi - 1) (Z.of_nat resj + 1) &&
          isBonded s (Z.of_nat resj - 1) (Z.of_nat resi + 1) ||
          isBonded s (Z.of_nat resi) (Z.of_nat resj) &&
          isBonded s (Z.of_nat resj) (Z.of_nat resi))
    with (anti_pair s resi resj).
  destruct (para_pair s resi resj) eqn:Hpara.
  { apply justified_set_label; [exact Hinv|]. exists resj. auto. }
  destruct (anti_pair s resi resj) eqn:Hanti; [|exact IH'].
  apply justified_set_label; [exact Hinv|]. exists resj. auto 6.
Qed.

Lemma Nres_for_loop_but_label (body : State → nat → State) (n : nat) (s : State) :
  (∀ st k, preserves but_label st (body st k)) → Nres (for_loop n body s) = Nres s.
Proof.
  intros Hb. apply (preserves_Nres but_label), preserves_for_loop, Hb.
Qed.

Lemma justified_ss_residue (s : State) (resi : nat) :
  (∀ r, (r < Nres s)%nat → isSelected (res_at s r) = true → justified s r (label s r)) →
  ∀ r, (r < Nres (ss_residue s resi))%nat →
       isSelected (res_at (ss_residue s resi) r) = true →
       justified (ss_residue s resi) r (label (ss_residue s resi) r).
Proof.
  intros Hinv r.
  destruct (but_label_bonds _ _ (ss_residue_preserves s resi)) as (HN & Hsel & _).
  rewrite HN, Hsel. clear HN Hsel. revert r.
  assert (Hhelix : ∀ (st : State) (t : SStype),
            t = SECSTRUCT_ALPHA ∨ t = SECSTRUCT_3_10 ∨ t = SECSTRUCT_PI →
            Nres st = Nres s →
            (∀ r, isSelected (res_at st r) = isSelected (res_at s r)) →
            isSelected (res_at s resi) = true →
            (∀ r, (r < Nres st)%nat → isSelected (res_at st r) = true →
                  justified st r (label st r)) →
            helix_start st t resi = true →
            ∀ r, (r < Nres s)%nat → isSelected (res_at s r) = true →
                 justified (SSassign resi (resi + helix_length t) t st) r
                           (label (SSassign resi (resi + helix_length t) t st) r)).
  { intros st t Ht HN Hsel Hresi Hst Hstart r Hr Hs.
    apply justified_SSassign; [|exact Hst| |rewrite HN; exact Hr|rewrite Hsel; exact Hs].
    - unfold helix_start in Hstart. cbv zeta in Hstart.
      destruct Ht as [->|[->| ->]]; apply andb_prop in Hstart as (_ & Hb);
        apply isBonded_in_range in Hb; cbn [helix_length]; lia.
    - intros r' Hr'. destruct Ht as [->|[->| ->]]; cbn [justified];
        exists resi; rewrite Hsel; auto. }
  unfold ss_residue. cbv zeta.
  destruct (isSelected (res_at s resi)) eqn:Hresi; cbn [negb]; [|exact Hinv].
  assert (Hfold : ∀ st,
            (isBonded st (Z.of_nat resi - 1) (Z.of_nat resi + 3) &&
             isBonded st (Z.of_nat resi) (Z.of_nat resi + 4) =
             helix_start st SECSTRUCT_ALPHA resi) ∧
            (isBonded st (Z.of_nat resi - 1) (Z.of_nat resi + 2) &&
             isBonded st (Z.of_nat resi) (Z.of_nat resi + 3) =
             helix_start st SECSTRUCT_3_10 resi) ∧
            (isBonded st (Z.of_nat resi - 1) (Z.of_nat resi + 4) &&
             isBonded st (Z.of_nat resi) (Z.of_nat resi + 5) =
             helix_start st SECSTRUCT_PI resi))
    by (intros st; repeat split; reflexivity).
  rewrite (proj1 (Hfold s)).
  destruct (helix_start s SECSTRUCT_ALPHA resi) eqn:Halpha.
  { apply (Hhelix s SECSTRUCT_ALPHA); auto. }
  set (s1 := beta_scan resi (seq 0 (Nres s)) s).
  pose proof (beta_scan_preserves resi (seq 0 (Nres s)) s) as Hp1. fold s1 in Hp1.
  destruct (but_label_bonds _ _ Hp1) as (HN1 & Hsel1 & _).
  assert (Hinv1 : ∀ r, (r < Nres s1)%nat → isSelected (res_at s1 r) = true →
                       justified s1 r (label s1 r)).
  { intros r. rewrite HN1, Hsel1. apply justified_beta_scan; [|exact Hinv].
    intros j Hj. apply elem_of_seq in Hj. lia. }
  destruct (decide (sstype (res_at s resi) = SECSTRUCT_NULL)) as [_|_].
  - destruct (negb (bool_decide (sstype (res_at s1 resi) = SECSTRUCT_NULL))).
    + intros r. specialize (Hinv1 r). rewrite HN1, Hsel1 in Hinv1. exact Hinv1.
    + rewrite (proj1 (proj2 (Hfold s1))), (proj2 (proj2 (Hfold s1))).
      destruct (helix_start s1 SECSTRUCT_3_10 resi) eqn:H310.
      { apply (Hhelix s1 SECSTRUCT_3_10); auto. }
      destruct (helix_start s1 SECSTRUCT_PI resi) eqn:Hpi.
      { apply (Hhelix s1 SECSTRUCT_PI); auto. }
      intros r. specialize (Hinv1 r). rewrite HN1, Hsel1 in Hinv1. exact Hinv1.
  - rewrite (proj1 (proj2 (Hfold s))), (proj2 (proj2 (Hfold s))).
    destruct (helix_start s SECSTRUCT_3_10 resi) eqn:H310.
    { apply (Hhelix s SECSTRUCT_3_10); auto. }
    destruct (helix_start s SECSTRUCT_PI resi) eqn:Hpi.
    { apply (Hhelix s SECSTRUCT_PI); auto. }
    exact Hinv.
Qed.

Lemma justified_turn_residue (s : State) (resi : nat) :
  (∀ r, (r < Nres s)%nat → isSelected (res_at s r) = true → justified s r (label s r)) →
  ∀ r, (r < Nres (turn_residue s resi))%nat →
       isSelected (res_at (turn_residue s resi) r) = true →
       justified (turn_residue s resi) r (label (turn_residue s resi) r).
Proof.
  intros Hinv r.
  destruct (but_label_bonds _ _ (turn_residue_preserves s resi)) as (HN & Hsel & _).
  rewrite HN, Hsel. clear HN Hsel. revert r.
  unfold turn_residue.
  destruct (isSelected (res_at s resi)) eqn:Hresi; cbn [negb]; [|exact Hinv].
  assert (Hspans : ∀ span, span ∈ [5; 4; 3]%nat → (3 ≤ span ≤ 5)%nat).
  { intros span Hin. rewrite !elem_of_cons, elem_of_nil in Hin. lia. }
  revert Hspans. generalize [5; 4; 3]%nat. intros spans Hspans.
  induction spans as [|span rest IH]; cbn [turn_scan]; [exact Hinv|].
  destruct (isBonded _ _ _) eqn:Hb.
  - apply justified_SSassign; [|exact Hinv|].
    + apply isBonded_in_range in Hb. lia.
    + intros r Hr. exists resi, span.
      split; [exact Hresi|]. split; [apply Hspans; left|]. split; [lia|exact Hb].
  - apply IH. intros sp Hsp. apply Hspans. right. exact Hsp.
Qed.

Lemma justified_for_loop (body : State → nat → State) (n : nat) (s : State) :
  (∀ st k,
     (∀ r, (r < Nres st)%nat → isSelected (res_at st r) = true →
           justified st r (label st r)) →
     ∀ r, (r < Nres (body st k))%nat → isSelected (res_at (body st k) r) = true →
          justified (body st k) r (label (body st k) r)) →
  (∀ r, (r < Nres s)%nat → isSelected (res_at s r) = true → justified s r (label s r)) →
  ∀ r, (r < Nres (for_loop n body s))%nat →
       isSelected (res_at (for_loop n body s) r) = true →
       justified (for_loop n body s) r (label (for_loop n body s) r).
Proof.
  intros Hbody Hs.
  apply (for_loop_ind
           (λ _ st, ∀ r, (r < Nres st)%nat → isSelected (res_at st r) = true →
                         justified st r (label st r)) body s n).
  - exact Hs.
  - intros k st _ IH. apply Hbody. exact IH.
Qed.

(** X12. After [action], the label of every selected residue below
    [Nres] has its pattern in the hydrogen bonds of the frame. *)
Theorem labels_justified (fac : float) (DIST : Z → Z → float) (cf : nat)
    (s : State) (r : nat) :
  (r < Nres s)%nat → isSelected (res_at s r) = true →
  let s' := action fac DIST cf s in
  justified s' r (label s' r).
Proof.
  intros Hr Hsel. cbv zeta.
  set (s1 := hbond_pass fac DIST s).
  set (s3 := turn_pass (ss_pass s1)).
  pose proof (hbond_pass_preserves fac DIST s) as Hp1. fold s1 in Hp1.
  assert (HN1 : Nres s1 = Nres s) by apply (preserves_Nres _ _ _ Hp1).
  assert (Hsel1 : ∀ x, isSelected (res_at s1 x) = isSelected (res_at s x))
    by (intros x; apply (preserves_selected_backbone _ _ _ Hp1)).
  assert (H3 : ∀ x, (x < Nres s3)%nat → isSelected (res_at s3 x) = true →
                    justified s3 x (label s3 x)).
  { unfold s3, turn_pass, turn_pass_upto, ss_pass, ss_pass_upto.
    apply justified_for_loop; [apply justified_turn_residue|].
    apply justified_for_loop; [apply justified_ss_residue|].
    intros x Hx Hsx. rewrite HN1 in Hx. rewrite Hsel1 in Hsx.
    unfold s1. rewrite (proj1 (hbond_pass_spec fac DIST s x Hx Hsx)). exact I. }
  destruct (but_label_bonds _ _ (classify_preserves s1)) as (HN3 & Hsel3 & _).
  fold s3 in HN3, Hsel3.
  destruct (store_loop_spec cf s3 (Nres s3)) as (HN4 & _ & _ & _ & _ & _ & Hres & _).
  cbv zeta in *. fold (store_pass cf s3) in *.
  rewrite action_label. fold s1 s3.
  apply (justified_ext s3).
  - unfold action. cbv zeta. fold s1 s3. destruct (printString _); cbn; congruence.
  - intros x. rewrite action_res_at. fold s1 s3.
    specialize (Hres x). unfold but_counts in Hres. injection Hres. auto.
  - intros x. rewrite action_res_at. fold s1 s3.
    specialize (Hres x). unfold but_counts in Hres. injection Hres. auto.
  - apply H3; [rewrite HN3, HN1; exact Hr|rewrite Hsel3, Hsel1; exact Hsel].
Qed.

Lemma labels_justified_witness :
  isSelected (res_at example_setup 1) = true ∧
  justified (action example_fac example_DIST 0 example_setup) 1
            (label (action example_fac example_DIST 0 example_setup) 1).
Proof.
  split; [reflexivity|].
  apply (labels_justified example_fac example_DIST 0 example_setup 1).
  - vm_compute. lia.
  - reflexivity.
Defined.

(** *** Every helix start is labelled *)

Lemma writes_once_keeps (s s' : State) (r : nat) :
  writes_once s s' → label s r ≠ SECSTRUCT_NULL → label s' r = label s r.
Proof. intros Hw Hne. destruct (Hw r) as [E|[E _]]; [exact E|contradiction]. Qed.

Lemma SSassign_loop_either (t : SStype) (rs : list nat) (s : State) (r : nat) :
  label (SSassign_loop t rs s) r = label s r ∨ label (SSassign_loop t rs s) r = t.
Proof.
  revert s. induction rs as [|res rest IH]; intros s; cbn [SSassign_loop]; [auto|].
  destruct (res =? Nres s)%nat; [auto|].
  destruct (negb _); [apply IH|].
  destruct (decide _); [|apply IH].
  destruct (IH (upd_res res (set_sstype t) s)) as [E|E]; [|auto].
  rewrite E, label_upd_sstype. destruct (decide _); auto.
Qed.

(** The body of the assignment loop for [resi] gives other residues
    helix labels only. *)
Lemma ss_residue_other (s : State) (resi r : nat) :
  r ≠ resi →
  label (ss_residue s resi) r = label s r ∨ is_helix (label (ss_residue s resi) r) = true.
Proof.
  intros Hne.
  assert (Hassign : ∀ st res2 t, is_helix t = true → label st r = label s r →
            label (SSassign resi res2 t st) r = label s r ∨
            is_helix (label (SSassign resi res2 t st) r) = true).
  { intros st res2 t Ht Hst. unfold SSassign.
    destruct (SSassign_loop_either t (seq resi (res2 - resi)) st r) as [E|E];
      rewrite E; auto. }
  assert (Hb : label (beta_scan resi (seq 0 (Nres s)) s) r = label s r)
    by (unfold label; rewrite beta_scan_other by exact Hne; reflexivity).
  unfold ss_residue. cbv zeta.
  destruct (negb _); [auto|].
  destruct (isBonded s _ _ && isBonded s _ _); [apply Hassign; reflexivity|].
  destruct (decide _).
  - destruct (negb _); [auto|].
    destruct (isBonded _ _ _ && isBonded _ _ _); [apply Hassign; [reflexivity|exact Hb]|].
    destruct (isBonded _ _ _ && isBonded _ _ _); [apply Hassign; [reflexivity|exact Hb]|].
    auto.
  - destruct (isBonded _ _ _ && isBonded _ _ _); [apply Hassign; reflexivity|].
    destruct (isBonded _ _ _ && isBonded _ _ _); [apply Hassign; reflexivity|].
    auto.
Qed.

(** Before the iteration for residue [k], the residues from [k] on
    that are selected have no label or a helix label. *)
Lemma ss_pass_upto_later (s : State) (k : nat) :
  (∀ r, (r < Nres s)%nat → isSelected (res_at s r) = true → label s r = SECSTRUCT_NULL) →
  ∀ r, (k ≤ r < Nres s)%nat → isSelected (res_at s r) = true →
       label (ss_pass_upto k s) r = SECSTRUCT_NULL ∨
       is_helix (label (ss_pass_upto k s) r) = true.
Proof.
  intros Hnull. unfold ss_pass_upto. induction k as [|k IH]; intros r Hr Hsel.
  - left. apply Hnull; [lia|exact Hsel].
  - rewrite for_loop_S.
    destruct (ss_residue_other (for_loop k ss_residue s) k r ltac:(lia)) as [E|E]; [|auto].
    rewrite E. apply IH; [lia|exact Hsel].
Qed.

(** The iteration for a residue at which a helix starts labels it. *)
Lemma ss_residue_start (s : State) (resi : nat) (t : SStype) :
  isSelected (res_at s resi) = true → helix_start s t resi = true →
  label (ss_residue s resi) resi ≠ SECSTRUCT_NULL.
Proof.
  intros Hsel Hstart.
  destruct (decide (label s resi = SECSTRUCT_NULL)) as [Hnull|Hne].
  2:{ rewrite (writes_once_keeps s _ resi (ss_residue_writes_once s resi) Hne). exact Hne. }
  assert (Hassign : ∀ st t', t' ≠ SECSTRUCT_NULL →
            helix_start st t' resi = true → isSelected (res_at st resi) = true →
            label st resi = SECSTRUCT_NULL →
            label (SSassign resi (resi + helix_length t') t' st) resi ≠ SECSTRUCT_NULL).
  { intros st t' Ht' Hs Hsl Hn.
    assert (Hle : (resi + helix_length t' ≤ Nres st)%nat ∧ (0 < helix_length t')%nat).
    { unfold helix_start in Hs. cbv zeta in Hs.
      destruct t'; try discriminate; apply andb_prop in Hs as (_ & Hb);
        apply isBonded_in_range in Hb; cbn [helix_length]; lia. }
    rewrite SSassign_label by tauto.
    rewrite decide_True by (split; [lia|auto]). exact Ht'. }
  unfold ss_residue. cbv zeta. rewrite Hsel. cbn [negb].
  change (isBonded s (Z.of_nat resi - 1) (Z.of_nat resi + 3) &&
          isBonded s (Z.of_nat resi) (Z.of_nat resi + 4))
    with (helix_start s SECSTRUCT_ALPHA resi).
  destruct (helix_start s SECSTRUCT_ALPHA resi) eqn:Halpha.
  { apply (Hassign s SECSTRUCT_ALPHA); [discriminate|exact Halpha|exact Hsel|exact Hnull]. }
  rewrite decide_True by exact Hnull.
  set (s1 := beta_scan resi (seq 0 (Nres s)) s).
  pose proof (beta_scan_preserves resi (seq 0 (Nres s)) s) as Hp1. fold s1 in Hp1.
  destruct (but_label_bonds _ _ Hp1) as (HN1 & Hsel1 & Hrow1).
  destruct (bool_decide_reflect (sstype (res_at s1 resi) = SECSTRUCT_NULL)) as [Hn1|Hn1];
    cbn [negb]; [|exact Hn1].
  change (isBonded s1 (Z.of_nat resi - 1) (Z.of_nat resi + 2) &&
          isBonded s1 (Z.of_nat resi) (Z.of_nat resi + 3))
    with (helix_start s1 SECSTRUCT_3_10 resi).
  change (isBonded s1 (Z.of_nat resi - 1) (Z.of_nat resi + 4) &&
          isBonded s1 (Z.of_nat resi) (Z.of_nat resi + 5))
    with (helix_start s1 SECSTRUCT_PI resi).
  rewrite !(helix_start_ext s s1 HN1 Hsel1 Hrow1).
  assert (Hsl1 : isSelected (res_at s1 resi) = true) by (rewrite Hsel1; exact Hsel).
  destruct (helix_start s SECSTRUCT_3_10 resi) eqn:H310.
  { apply (Hassign s1 SECSTRUCT_3_10); [discriminate| |exact Hsl1|exact Hn1].
    rewrite (helix_start_ext s s1 HN1 Hsel1 Hrow1). exact H310. }
  destruct (helix_start s SECSTRUCT_PI resi) eqn:Hpi.
  { apply (Hassign s1 SECSTRUCT_PI); [discriminate| |exact Hsl1|exact Hn1].
    rewrite (helix_start_ext s s1 HN1 Hsel1 Hrow1). exact Hpi. }
  exfalso. destruct t; first [congruence|cbn in Hstart; discriminate].
Qed.

(** The iteration for a residue at which an alpha helix starts gives
    its four residues helix labels. *)
Lemma ss_residue_alpha (s : State) (resi r : nat) :
  isSelected (res_at s resi) = true → helix_start s SECSTRUCT_ALPHA resi = true →
  (resi ≤ r < resi + 4)%nat → isSelected (res_at s r) = true →
  label s r = SECSTRUCT_NULL ∨ is_helix (label s r) = true →
  is_helix (label (ss_residue s resi) r) = true.
Proof.
  intros Hsel Hstart Hr Hselr Hlab.
  unfold ss_residue. cbv zeta. rewrite Hsel. cbn [negb].
  change (isBonded s (Z.of_nat resi - 1) (Z.of_nat resi + 3) &&
          isBonded s (Z.of_nat resi) (Z.of_nat resi + 4))
    with (helix_start s SECSTRUCT_ALPHA resi).
  rewrite Hstart. rewrite SSassign_label.
  - destruct (decide _) as [_|Hn]; [reflexivity|].
    destruct Hlab as [Hnull|Hh]; [|exact Hh]. exfalso. apply Hn. auto.
  - unfold helix_start in Hstart. cbv zeta in Hstart.
    apply andb_prop in Hstart as (_ & Hb). apply isBonded_in_range in Hb. lia.
Qed.

(** From the end of an iteration of the assignment loop to the end of
    [action], a label that is set stays. *)
Lemma label_stays (fac : float) (DIST : Z → Z → float) (cf : nat) (s : State) (k r : nat) :
  (k ≤ Nres s)%nat →
  label (ss_pass_upto k (hbond_pass fac DIST s)) r ≠ SECSTRUCT_NULL →
  label (action fac DIST cf s) r = label (ss_pass_upto k (hbond_pass fac DIST s)) r.
Proof.
  intros Hk Hne. rewrite action_label.
  set (s1 := hbond_pass fac DIST s) in *.
  assert (HN1 : Nres s1 = Nres s)
    by apply (preserves_Nres _ _ _ (hbond_pass_preserves fac DIST s)).
  apply writes_once_keeps; [|exact Hne].
  apply (writes_once_trans _ (ss_pass s1)).
  - pose proof (for_loop_writes_once ss_residue s1 k (Nres s1 - k) ss_residue_writes_once)
      as Hw.
    replace (k + (Nres s1 - k))%nat with (Nres s1) in Hw by lia. exact Hw.
  - exact (for_loop_writes_once turn_residue (ss_pass s1) 0 (Nres (ss_pass s1))
             turn_residue_writes_once).
Qed.

(** X13. A selected residue below [Nres] at which a helix pattern starts
    in the bonds of the frame never ends a frame without a label; and
    where an alpha-helix pattern starts, the selected residues among
    the four from there on all end with a helix label (Alpha, or 3-10
    or Pi given by an earlier start). *)
Theorem helix_start_is_labelled (fac : float) (DIST : Z → Z → float) (cf : nat)
    (s : State) (i : nat) (t : SStype) :
  (i < Nres s)%nat → isSelected (res_at s i) = true →
  let s' := action fac DIST cf s in
  helix_start s' t i = true →
  label s' i ≠ SECSTRUCT_NULL ∧
  (t = SECSTRUCT_ALPHA →
   ∀ r, (i ≤ r < i + 4)%nat → isSelected (res_at s r) = true →
        is_helix (label s' r) = true).
Proof.
  intros Hi Hsel. cbv zeta. intros Hstart.
  set (s1 := hbond_pass fac DIST s).
  pose proof (hbond_pass_preserves fac DIST s) as Hp1. fold s1 in Hp1.
  assert (HN1 : Nres s1 = Nres s) by apply (preserves_Nres _ _ _ Hp1).
  assert (Hsel1 : ∀ x, isSelected (res_at s1 x) = isSelected (res_at s x))
    by (intros x; apply (preserves_selected_backbone _ _ _ Hp1)).
  set (sa := ss_pass_upto i s1).
  assert (Hpa : preserves but_label s1 sa)
    by (apply preserves_for_loop, ss_residue_preserves).
  destruct (but_label_bonds _ _ Hpa) as (HNa & Hsela & Hrowa).
  (* the bonds of the final state are those of every state of the frame *)
  set (s3 := turn_pass (ss_pass s1)).
  destruct (but_label_bonds _ _ (classify_preserves s1)) as (HN3 & Hsel3 & Hrow3).
  fold s3 in HN3, Hsel3, Hrow3.
  destruct (store_loop_spec cf s3 (Nres s3)) as (HN4 & _ & _ & _ & _ & _ & Hres & _).
  cbv zeta in *. fold (store_pass cf s3) in *.
  assert (Hstart1 : helix_start s1 t i = true).
  { rewrite <- Hstart. symmetry. transitivity (helix_start s3 t i).
    - apply helix_start_ext.
      + unfold action. cbv zeta. fold s1 s3. destruct (printString _); cbn; congruence.
      + intros x. rewrite action_res_at. fold s1 s3.
        specialize (Hres x). unfold but_counts in Hres. injection Hres. auto.
      + intros x. rewrite action_res_at. fold s1 s3.
        specialize (Hres x). unfold but_counts in Hres. injection Hres. auto.
    - apply helix_start_ext; assumption. }
  assert (Hstarta : helix_start sa t i = true)
    by (rewrite (helix_start_ext s1 sa HNa Hsela Hrowa); exact Hstart1).
  assert (Hselai : isSelected (res_at sa i) = true) by (rewrite Hsela, Hsel1; exact Hsel).
  assert (Hstep : ss_pass_upto (S i) s1 = ss_residue sa i)
    by (unfold ss_pass_upto, sa; apply for_loop_S).
  split.
  - assert (Hli : label (ss_pass_upto (S i) (hbond_pass fac DIST s)) i ≠ SECSTRUCT_NULL).
    { fold s1. rewrite Hstep. apply (ss_residue_start sa i t); assumption. }
    rewrite (label_stays fac DIST cf s (S i) i ltac:(lia) Hli). exact Hli.
  - intros -> r Hr Hselr.
    assert (Hh : is_helix (label (ss_pass_upto (S i) (hbond_pass fac DIST s)) r) = true).
    { fold s1. rewrite Hstep. apply ss_residue_alpha; try assumption.
      - rewrite Hsela, Hsel1. exact Hselr.
      - assert (Hrange : (i + 4 ≤ Nres s)%nat).
        { unfold helix_start in Hstart1. cbv zeta in Hstart1.
          apply andb_prop in Hstart1 as (_ & Hb). apply isBonded_in_range in Hb. lia. }
        apply (ss_pass_upto_later s1 i); [|lia|rewrite Hsel1; exact Hselr].
        intros x Hx Hsx. rewrite HN1 in Hx. rewrite Hsel1 in Hsx.
        apply (hbond_pass_spec fac DIST s x Hx Hsx). }
    rewrite (label_stays fac DIST cf s (S i) r ltac:(lia)); [exact Hh|].
    intros Hnull. rewrite Hnull in Hh. discriminate.
Qed.

(** *** The rows of the bond matrix *)

Lemma hbond_row_length (fac : float) (DIST : Z → Z → float) (s : State) (i : nat) :
  isSelected (res_at s i) = true →
  length (CO_HN_Hbond (res_at (hbond_row fac DIST s i) i)) = Nres s.
Proof.
  intros Hsel. unfold hbond_row. rewrite Hsel. cbn [negb]. cbv zeta.
  pose proof (selected_in_range s i Hsel) as Hi.
  set (s1 := upd_res i (λ r, set_CO_HN_Hbond (replicate (Nres s) false)
                               (set_sstype SECSTRUCT_NULL r)) s).
  assert (H1 : length (CO_HN_Hbond (res_at s1 i)) = Nres s).
  { unfold s1. rewrite res_at_upd_eq by exact Hi. cbn. apply length_replicate. }
  destruct (_ || _); [exact H1|].
  assert (Hi1 : (i < length (SecStruct s1))%nat) by (unfold s1; rewrite length_upd; exact Hi).
  destruct (hbond_pair_loop fac DIST i (atomC (res_at s1 i)) (atomO (res_at s1 i))
              s1 (Nres s1) Hi1) as (_ & _ & _ & Hlen & _).
  cbv zeta in Hlen. rewrite Hlen. exact H1.
Qed.

Lemma hbond_pass_length (fac : float) (DIST : Z → Z → float) (s : State) (i : nat) :
  (i < Nres s)%nat → isSelected (res_at s i) = true →
  length (CO_HN_Hbond (res_at (hbond_pass fac DIST s) i)) = Nres s.
Proof.
  intros Hi Hsel. unfold hbond_pass.
  assert (Hinv : preserves backbone s (for_loop (Nres s) (hbond_row fac DIST) s) ∧
            ((i < Nres s)%nat →
             length (CO_HN_Hbond (res_at (for_loop (Nres s) (hbond_row fac DIST) s) i))
             = Nres s)).
  { apply (for_loop_ind (λ k st,
      preserves backbone s st ∧
      ((i < k)%nat → length (CO_HN_Hbond (res_at st i)) = Nres s))).
    - split; [apply preserves_refl|lia].
    - intros k st _ (Hp & Hlen).
      split; [eapply preserves_trans; [exact Hp|apply hbond_row_preserves]|].
      intros Hlt. destruct (decide (i = k)) as [->|Hne].
      + rewrite hbond_row_length; [apply (preserves_Nres _ _ _ Hp)|].
        rewrite (preserves_selected_backbone _ _ _ Hp). exact Hsel.
      + rewrite (proj1 (hbond_row_spec fac DIST st k) i Hne). apply Hlen. lia. }
  apply Hinv, Hi.
Qed.

(** X11. After [action] the bond row of every selected residue below
    [Nres] has exactly [Nres] entries, so that the reads of [isBonded]
    are within it; its diagonal entry is unset, and so is every entry
    for a residue that is not selected or not below [Nres]. *)
Theorem bond_rows_in_bounds (fac : float) (DIST : Z → Z → float) (cf : nat)
    (s : State) (i : nat) :
  (i < Nres s)%nat → isSelected (res_at s i) = true →
  let s' := action fac DIST cf s in
  length (CO_HN_Hbond (res_at s' i)) = Nres s' ∧
  hbond_entry s' i i = false ∧
  ∀ j, skipped s j → hbond_entry s' i j = false.
Proof.
  intros Hi Hsel. cbv zeta.
  set (s1 := hbond_pass fac DIST s).
  set (s3 := turn_pass (ss_pass s1)).
  destruct (but_label_bonds _ _ (classify_preserves s1)) as (HN3 & _ & Hrow3).
  fold s3 in HN3, Hrow3.
  destruct (store_loop_spec cf s3 (Nres s3)) as (HN4 & _ & _ & _ & _ & _ & Hres & _).
  cbv zeta in *. fold (store_pass cf s3) in *.
  assert (HN1 : Nres s1 = Nres s)
    by apply (preserves_Nres _ _ _ (hbond_pass_preserves fac DIST s)).
  assert (Hrow : ∀ x, CO_HN_Hbond (res_at (action fac DIST cf s) x) =
                      CO_HN_Hbond (res_at s1 x)).
  { intros x. rewrite action_res_at. fold s1 s3. rewrite <- Hrow3.
    specialize (Hres x). unfold but_counts in Hres. injection Hres. auto. }
  assert (HN : Nres (action fac DIST cf s) = Nres s).
  { unfold action. cbv zeta. fold s1 s3. destruct (printString _); cbn; congruence. }
  destruct (hbond_pass_spec fac DIST s i Hi Hsel) as (_ & Hent).
  unfold hbond_entry in *. rewrite Hrow, HN. fold s1 in Hent.
  split; [apply hbond_pass_length; assumption|].
  split.
  - rewrite Hent. unfold hbond_expected, hbond_pair_test.
    rewrite Nat.eqb_refl. cbn [negb]. rewrite !andb_false_r. reflexivity.
  - intros j Hskip. rewrite Hent. unfold hbond_expected, hbond_pair_test.
    destruct Hskip as [Hj|Hj].
    + rewrite Hj. cbn [andb]. rewrite !andb_false_r. reflexivity.
    + replace (j <? Nres s)%nat with false by (symmetry; apply Nat.ltb_ge; lia).
      rewrite andb_false_r. reflexivity.
Qed.

Lemma bond_rows_in_bounds_witness :
  length (CO_HN_Hbond (res_at (action example_fac example_DIST 0 example_setup) 0)) =
  Nres (action example_fac example_DIST 0 example_setup).
Proof.
  apply (bond_rows_in_bounds example_fac example_DIST 0 example_setup 0).
  - vm_compute. lia.
  - reflexivity.
Defined.

(** *** From the first frame to the summary *)

Lemma flat_map_ext_In {A B : Type} (f g : A → list B) (l : list A) :
  (∀ a, In a l → f a = g a) → flat_map f l = flat_map g l.
Proof.
  induction l as [|a l IH]; intros Hfg; [reflexivity|].
  cbn [flat_map]. rewrite (Hfg a) by (left; reflexivity).
  rewrite IH; [reflexivity|]. intros b Hb. apply Hfg. right. exact Hb.
Qed.

Lemma one_count (t : SStype) (ss : nat) :
  (1 ≤ ss ≤ 6)%nat →
  ((count_label t (replicate 7 0%float) !!! ss) / (0 + 1))%float =
  (if decide (ss = SStype_index t) then 1 else 0)%float.
Proof.
  intros Hss.
  destruct ss as [|[|[|[|[|[|[|ss]]]]]]]; try lia; destruct t; reflexivity.
Qed.

(** X17. The first frame, end to end: when [action] has run once on an
    object with a summary file whose frame counter and counters are
    zero, [print] emits for every selected residue below [Nres], in
    ascending order, six fractions: 1 for the type of the residue's
    label and 0 for the other types (six zeros when the label is
    None). *)
Theorem first_frame_fractions (fac : float) (DIST : Z → Z → float) (cf : nat)
    (s : State) (name : string) :
  sumOut s = Some name → Nframe s = 0%float →
  (∀ r, isSelected (res_at s r) = true → SSprob (res_at s r) = replicate 7 0%float) →
  let s' := action fac DIST cf s in
  dsspData (print s') =
    Some (flat_map
            (λ resi, if isSelected (res_at s resi)
                     then map (λ ss, (resi, ss,
                                      if decide (ss = SStype_index (label s' resi))
                                      then 1%float else 0%float))
                              (seq 1 6)
                     else [])
            (seq 0 (Nres s))).
Proof.
  intros Hsum Hzero Hfresh. cbv zeta.
  destruct (action_frame fac DIST cf s) as (HN & _ & _ & HS & Hsetup & _).
  destruct (action_counters fac DIST cf s) as (HF & Hcnt).
  rewrite (print_spec _ name) by (rewrite HS; exact Hsum).
  cbn [dsspData set_dsspData]. rewrite HN. f_equal.
  apply flat_map_ext_In. intros resi Hin. apply in_seq in Hin.
  unfold print_entries.
  assert (Hsel : isSelected (res_at (action fac DIST cf s) resi) = isSelected (res_at s resi))
    by (specialize (Hsetup resi); unfold setup_of in Hsetup; injection Hsetup; auto).
  rewrite Hsel. destruct (isSelected (res_at s resi)) eqn:Hs; [|reflexivity].
  apply map_ext_in. intros ss Hss. apply in_seq in Hss.
  rewrite Hcnt, decide_True by (split; [lia|exact Hs]).
  rewrite HF, Hzero, Hfresh by exact Hs.
  rewrite one_count by lia. reflexivity.
Qed.

(** *** [setup] *)

Lemma setup_push_loop (n : nat) (s : State) (k : nat) :
  for_loop k (setup_push n) s =
    set_SecStruct (SecStruct s ++ replicate (k - length (SecStruct s)) (new_residue n)) s.
Proof.
  induction k as [|k IH].
  - cbn. rewrite app_nil_r. destruct s; reflexivity.
  - rewrite for_loop_S, IH. unfold setup_push. cbn [SecStruct set_SecStruct].
    rewrite length_app, length_replicate.
    destruct (Nat.leb_spec (length (SecStruct s) + (k - length (SecStruct s))) k) as [Hle|Hgt].
    + replace (S k - length (SecStruct s))%nat with (S (k - length (SecStruct s))) by lia.
      rewrite replicate_S_end, app_assoc. reflexivity.
    + replace (S k - length (SecStruct s))%nat with (k - length (SecStruct s))%nat by lia.
      reflexivity.
Qed.



Lemma setup_atom_length (P : AmberParm) (s : State) (atom : nat) :
  length (SecStruct (setup_atom P s atom)) = length (SecStruct s) ∧
  setup_atom P s atom = set_SecStruct (SecStruct (setup_atom P s atom)) s.
Proof.
  unfold setup_atom. cbv zeta.
  destruct (String.eqb _ "C   "); [|destruct (String.eqb _ "O   ");
    [|destruct (String.eqb _ "N   "); [|destruct (String.eqb _ "H   ")]]];
    rewrite ?length_upd; split; reflexivity.
Qed.







(** *** The labels of a frame depend on the frame only *)

Lemma isBonded_agree (s s' : State) (a b : Z) :
  agree s s' → isBonded s a b = isBonded s' a b.
Proof.
  intros (HN & Hsel & Hrow). unfold isBonded. rewrite <- HN, <- !Hsel.
  destruct (Z.ltb_spec a 0); [reflexivity|].
  destruct (Z.ltb_spec b 0); [reflexivity|].
  destruct (Z.leb_spec (Z.of_nat (Nres s)) a); [reflexivity|].
  destruct (Z.leb_spec (Z.of_nat (Nres s)) b); [reflexivity|].
  destruct (isSelected (res_at s (Z.to_nat a))) eqn:Ha; cbn [negb]; [|reflexivity].
  destruct (isSelected (res_at s (Z.to_nat b))); cbn [negb]; [|reflexivity].
  destruct (Hrow (Z.to_nat a) ltac:(lia) Ha) as (_ & Hent).
  specialize (Hent (Z.to_nat b)). unfold hbond_entry in Hent. rewrite Hent. reflexivity.
Qed.

Lemma agree_set_label (s s' : State) (res : nat) (t : SStype) :
  agree s s' → isSelected (res_at s res) = true →
  agree (upd_res res (set_sstype t) s) (upd_res res (set_sstype t) s').
Proof.
  intros (HN & Hsel & Hrow) Hres.
  pose proof (selected_in_range s res Hres) as Hlt.
  assert (Hres' : isSelected (res_at s' res) = true) by (rewrite <- Hsel; exact Hres).
  pose proof (selected_in_range s' res Hres') as Hlt'.
  split; [exact HN|]. split.
  - intros r. rewrite !(field_upd isSelected) by reflexivity. apply Hsel.
  - intros r Hr. rewrite (field_upd isSelected) by reflexivity. intros Hs.
    destruct (Hrow r Hr Hs) as (Hl & Hent). split.
    + rewrite !label_upd_sstype.
      destruct (decide (res = r)) as [->|Hne].
      * rewrite !decide_True by auto. reflexivity.
      * rewrite !decide_False by tauto. exact Hl.
    + intros j. unfold hbond_entry.
      rewrite !(field_upd CO_HN_Hbond) by reflexivity. apply Hent.
Qed.

Lemma SSassign_agree (res2 : nat) (t : SStype) :
  ∀ (res1 : nat) (s s' : State),
    (res1 ≤ Nres s)%nat → agree s s' →
    agree (SSassign res1 res2 t s) (SSassign res1 res2 t s').
Proof.
  intros res1. unfold SSassign. generalize (res2 - res1)%nat as n. intros n.
  revert res1. induction n as [|n IH]; intros res1 s s' Hle Hag; [exact Hag|].
  cbn [seq SSassign_loop]. pose proof Hag as (HN & Hsel & Hrow). rewrite <- HN, <- Hsel.
  destruct (Nat.eqb_spec res1 (Nres s)) as [_|Hne]; [exact Hag|].
  destruct (isSelected (res_at s res1)) eqn:Hres; cbn [negb].
  - destruct (Hrow res1 ltac:(lia) Hres) as (Hl & _). unfold label in Hl. rewrite <- Hl.
    destruct (decide (sstype (res_at s res1) = SECSTRUCT_NULL)) as [_|_].
    + apply IH; [rewrite Nres_upd; lia|].
      apply agree_set_label; [exact Hag|exact Hres].
    + apply IH; [lia|exact Hag].
  - apply IH; [lia|exact Hag].
Qed.

Lemma beta_scan_agree (resi : nat) (resjs : list nat) (s s' : State) :
  agree s s' → isSelected (res_at s resi) = true →
  agree (beta_scan resi resjs s) (beta_scan resi resjs s').
Proof.
  intros Hag Hres. induction resjs as [|resj rest IH]; cbn [beta_scan]; [exact Hag|].
  cbv zeta. rewrite <- !(isBonded_agree s s') by exact Hag.
  rewrite <- (proj1 (proj2 Hag) resj).
  destruct (negb _); [exact IH|].
  destruct (2 <? _); [|exact IH].
  destruct (isBonded s _ _ && isBonded s _ _ || isBonded s _ _ && isBonded s _ _);
    [apply agree_set_label; assumption|].
  destruct (isBonded s _ _ && isBonded s _ _ || isBonded s _ _ && isBonded s _ _);
    [apply agree_set_label; assumption|exact IH].
Qed.

Lemma ss_residue_agree (s s' : State) (resi : nat) :
  (resi < Nres s)%nat → agree s s' → agree (ss_residue s resi) (ss_residue s' resi).
Proof.
  intros Hlt Hag. unfold ss_residue. cbv zeta.
  rewrite <- !(isBonded_agree s s') by exact Hag.
  rewrite <- (proj1 (proj2 Hag) resi), <- (proj1 Hag).
  destruct (isSelected (res_at s resi)) eqn:Hres; cbn [negb]; [|exact Hag].
  destruct (isBonded s _ _ && isBonded s _ _); [apply SSassign_agree; [lia|exact Hag]|].
  destruct (proj2 (proj2 Hag) resi Hlt Hres) as (Hl & _). unfold label in Hl. rewrite <- Hl.
  pose proof (beta_scan_agree resi (seq 0 (Nres s)) s s' Hag Hres) as Hb.
  pose proof (but_label_bonds _ _ (beta_scan_preserves resi (seq 0 (Nres s)) s))
    as (HN1 & Hsel1 & _).
  set (s1 := beta_scan resi (seq 0 (Nres s)) s) in *.
  set (s1' := beta_scan resi (seq 0 (Nres s)) s') in *.
  destruct (decide (sstype (res_at s resi) = SECSTRUCT_NULL)) as [_|_].
  - rewrite <- !(isBonded_agree s1 s1') by exact Hb.
    assert (Hl1 : sstype (res_at s1 resi) = sstype (res_at s1' resi)).
    { apply (proj2 (proj2 Hb) resi); [rewrite HN1; exact Hlt|rewrite Hsel1; exact Hres]. }
    rewrite <- Hl1.
    destruct (negb _); [exact Hb|].
    destruct (isBonded s1 _ _ && isBonded s1 _ _);
      [apply SSassign_agree; [rewrite HN1; lia|exact Hb]|].
    destruct (isBonded s1 _ _ && isBonded s1 _ _);
      [apply SSassign_agree; [rewrite HN1; lia|exact Hb]|exact Hb].
  - rewrite <- !(isBonded_agree s s') by exact Hag.
    destruct (isBonded s _ _ && isBonded s _ _); [apply SSassign_agree; [lia|exact Hag]|].
    destruct (isBonded s _ _ && isBonded s _ _); [apply SSassign_agree; [lia|exact Hag]|].
    exact Hag.
Qed.

Lemma turn_residue_agree (s s' : State) (resi : nat) :
  (resi < Nres s)%nat → agree s s' → agree (turn_residue s resi) (turn_residue s' resi).
Proof.
  intros Hlt Hag. unfold turn_residue. rewrite <- (proj1 (proj2 Hag) resi).
  destruct (negb _); [exact Hag|].
  generalize [5; 4; 3]%nat. intros spans.
  induction spans as [|span rest IH]; cbn [turn_scan]; [exact Hag|].
  rewrite <- (isBonded_agree s s') by exact Hag.
  destruct (isBonded s _ _); [apply SSassign_agree; [lia|exact Hag]|exact IH].
Qed.

Lemma for_loop_agree (body : State → nat → State) (s s' : State) (n : nat) :
  (∀ st k, Nres (body st k) = Nres st) →
  (∀ st st' k, (k < Nres st)%nat → agree st st' → agree (body st k) (body st' k)) →
  (n ≤ Nres s)%nat → agree s s' →
  agree (for_loop n body s) (for_loop n body s').
Proof.
  intros HNb Hbody Hn Hag. induction n as [|n IH]; [exact Hag|].
  rewrite !for_loop_S. apply Hbody; [|apply IH; lia].
  assert (HNs : Nres (for_loop n body s) = Nres s).
  { apply (for_loop_ind (λ _ st, Nres st = Nres s)); [reflexivity|].
    intros k st _ E. rewrite HNb. exact E. }
  rewrite HNs. lia.
Qed.

Lemma hbond_pass_agree (fac : float) (DIST : Z → Z → float) (s s' : State) :
  same_setup s s' → agree (hbond_pass fac DIST s) (hbond_pass fac DIST s').
Proof.
  intros (HN & Hset).
  assert (Hf : ∀ r, isSelected (res_at s r) = isSelected (res_at s' r) ∧
                    atomC (res_at s r) = atomC (res_at s' r) ∧
                    atomO (res_at s r) = atomO (res_at s' r) ∧
                    atomN (res_at s r) = atomN (res_at s' r) ∧
                    atomH (res_at s r) = atomH (res_at s' r)).
  { intros r. specialize (Hset r). unfold setup_of in Hset. injection Hset. auto. }
  pose proof (hbond_pass_preserves fac DIST s) as Hp.
  pose proof (hbond_pass_preserves fac DIST s') as Hp'.
  split; [rewrite (preserves_Nres _ _ _ Hp), (preserves_Nres _ _ _ Hp'); exact HN|].
  split.
  - intros r. rewrite (preserves_selected_backbone _ _ _ Hp),
      (preserves_selected_backbone _ _ _ Hp'). apply Hf.
  - intros r. rewrite (preserves_Nres _ _ _ Hp), (preserves_selected_backbone _ _ _ Hp).
    intros Hr Hsel.
    destruct (hbond_pass_spec fac DIST s r Hr Hsel) as (Hl & Hent).
    destruct (hbond_pass_spec fac DIST s' r) as (Hl' & Hent');
      [rewrite <- HN; exact Hr|rewrite <- (proj1 (Hf r)); exact Hsel|].
    split; [congruence|]. intros j. rewrite Hent, Hent'.
    unfold hbond_expected, hbond_pair_test, hbond_energy. rewrite <- HN.
    destruct (Hf r) as (_ & -> & -> & _ & _).
    destruct (Hf j) as (-> & _ & _ & -> & ->). reflexivity.
Qed.

(** X14. The labels that [action] gives depend on the frame and on the
    setup only: on two objects with the same setup (the same number of
    residues, selection and backbone atoms), whatever labels, bond
    rows, counters and output they hold from earlier frames, the same
    frame leaves every selected residue below [Nres] with the same
    label. *)
Theorem labels_depend_on_frame_only (fac : float) (DIST : Z → Z → float)
    (cf cf' : nat) (s s' : State) (r : nat) :
  same_setup s s' → (r < Nres s)%nat → isSelected (res_at s r) = true →
  label (action fac DIST cf s) r = label (action fac DIST cf' s') r.
Proof.
  intros Hsame Hr Hsel. rewrite !action_label.
  pose proof (hbond_pass_agree fac DIST s s' Hsame) as H1.
  set (s1 := hbond_pass fac DIST s) in *. set (s1' := hbond_pass fac DIST s') in *.
  assert (HNss : ∀ st k, Nres (ss_residue st k) = Nres st)
    by (intros st k; apply (preserves_Nres _ _ _ (ss_residue_preserves st k))).
  assert (HNt : ∀ st k, Nres (turn_residue st k) = Nres st)
    by (intros st k; apply (preserves_Nres _ _ _ (turn_residue_preserves st k))).
  assert (H2 : agree (ss_pass s1) (ss_pass s1')).
  { unfold ss_pass, ss_pass_upto. rewrite <- (proj1 H1).
    apply for_loop_agree; [exact HNss|apply ss_residue_agree|lia|exact H1]. }
  assert (H3 : agree (turn_pass (ss_pass s1)) (turn_pass (ss_pass s1'))).
  { unfold turn_pass, turn_pass_upto. rewrite <- (proj1 H2).
    apply for_loop_agree; [exact HNt|apply turn_residue_agree|lia|exact H2]. }
  destruct (but_label_bonds _ _ (classify_preserves s1)) as (HN3 & Hsel3 & _).
  pose proof (hbond_pass_preserves fac DIST s) as Hp. fold s1 in Hp.
  apply (proj2 (proj2 H3) r).
  - rewrite HN3, (preserves_Nres _ _ _ Hp). exact Hr.
  - rewrite Hsel3, (preserves_selected_backbone _ _ _ Hp). exact Hsel.
Qed.

(** *** The properties on the examples *)

Lemma helix_start_is_labelled_witness :
  helix_start (action example_fac example_helix_DIST 0 example_helix_setup)
    SECSTRUCT_3_10 1 = true ∧
  label (action example_fac example_helix_DIST 0 example_helix_setup) 1 ≠ SECSTRUCT_NULL.
Proof.
  split; [vm_compute; reflexivity|].
  apply (helix_start_is_labelled example_fac example_helix_DIST 0 example_helix_setup 1
           SECSTRUCT_3_10).
  - vm_compute. lia.
  - reflexivity.
  - vm_compute. reflexivity.
Defined.

Lemma first_frame_fractions_witness :
  dsspData (print (action example_fac example_DIST 0 example_no_frames)) =
    Some (flat_map
            (λ resi, if isSelected (res_at example_no_frames resi)
                     then map (λ ss, (resi, ss,
                                      if decide (ss = SStype_index
                                                   (label (action example_fac example_DIST 0
                                                             example_no_frames) resi))
                                      then 1%float else 0%float))
                              (seq 1 6)
                     else [])
            (seq 0 (Nres example_no_frames))).
Proof.
  apply (first_frame_fractions example_fac example_DIST 0 example_no_frames "dssp.sum").
  - reflexivity.
  - reflexivity.
  - intros r. destruct r as [|[|[|[|r]]]]; vm_compute; (reflexivity || discriminate).
Defined.



Lemma labels_depend_on_frame_only_witness :
  label (action example_fac example_DIST 1 example_setup) 1 =
  label (action example_fac example_DIST 2 example_after_frame) 1.
Proof.
  apply (labels_depend_on_frame_only example_fac example_DIST 1 2
           example_setup example_after_frame 1).
  - split; [reflexivity|].
    intros r. destruct r as [|[|[|[|r]]]]; vm_compute; reflexivity.
  - vm_compute. lia.
  - reflexivity.
Defined.

(** *** The summary file, from [init] to [print] *)

Lemma setup_keeps_sumOut (P : AmberParm) (Sel : list nat) (s s' : State) :
  setup P Sel s = Some s' → sumOut s' = sumOut s.
Proof.
  unfold setup. destruct (decide (Sel = [])) as [|_]; [discriminate|]. cbv zeta.
  set (n := if (0 <? finalSoluteRes P) then Z.to_nat (finalSoluteRes P) else nres P).
  set (s3 := foldl (setup_atom P) (for_loop n (setup_push n) (set_Nres n s)) Sel).
  assert (H3 : sumOut s3 = sumOut s).
  { unfold s3. clear. induction Sel as [|atom Sel IH] using rev_ind.
    - cbn [foldl]. rewrite setup_push_loop. reflexivity.
    - rewrite foldl_snoc. rewrite (proj2 (setup_atom_length P _ atom)). exact IH. }
  intros Hs. destruct (negb (printString s3)).
  - injection Hs as <-. destruct (SSdata s3); exact H3.
  - injection Hs as <-. exact H3.
Qed.

Lemma frames_keep_sumOut (frames : list (float * (Z → Z → float) * nat)) (s : State) :
  sumOut (foldl (λ st '(fac, DIST, cf), action fac DIST cf st) s frames) = sumOut s.
Proof.
  induction frames as [|[[fac DIST] cf] frames IH] using rev_ind; [reflexivity|].
  rewrite foldl_snoc.
  destruct (action_frame fac DIST cf
              (foldl (λ st '(fac, DIST, cf), action fac DIST cf st) s frames))
    as (_ & _ & _ & HS & _).
  cbv zeta in HS. rewrite HS. exact IH.
Qed.

(** X26. The summary file that [init] chooses decides what [print] does
    after any run of [setup] and frames: with neither [out] nor
    [sumout], [print] changes nothing; with
    [sumout], or else with [out] (whose name gets the suffix .sum),
    [print] emits the averages of every selected residue below [Nres]
    in ascending order. *)
Theorem summary_follows_keywords (out sumout : option string) (nostring : bool)
    (P : AmberParm) (Sel : list nat) (s1 : State)
    (frames : list (float * (Z → Z → float) * nat)) :
  setup P Sel (init out sumout nostring DSSP_new) = Some s1 →
  let s2 := foldl (λ st '(fac, DIST, cf), action fac DIST cf st) s1 frames in
  sumOut s2 = match sumout with
              | Some temp => Some temp
              | None => (λ outfilename, (outfilename ++ ".sum")%string) <$> out
              end ∧
  (out = None → sumout = None → print s2 = s2) ∧
  (is_Some out ∨ is_Some sumout →
   dsspData (print s2) = Some (flat_map (print_entries s2) (seq 0 (Nres s2)))).
Proof.
  intros Hsetup. cbv zeta.
  set (s2 := foldl (λ st '(fac, DIST, cf), action fac DIST cf st) s1 frames).
  assert (Hsum : sumOut s2 = match sumout with
              | Some temp => Some temp
              | None => (λ outfilename, (outfilename ++ ".sum")%string) <$> out
              end).
  { unfold s2. rewrite frames_keep_sumOut, (setup_keeps_sumOut _ _ _ _ Hsetup).
    unfold init. destruct sumout as [temp|], out as [o|], nostring; reflexivity. }
  split; [exact Hsum|]. split.
  - intros -> ->. cbn in Hsum. unfold print. rewrite Hsum. reflexivity.
  - intros Hsome.
    assert (∃ name, sumOut s2 = Some name) as (name & Hname).
    { rewrite Hsum. destruct sumout as [temp|]; [eauto|].
      destruct out as [o|]; [cbn; eauto|].
      destruct Hsome as [[x Hx]|[x Hx]]; discriminate. }
    rewrite (print_spec s2 name Hname). reflexivity.
Qed.

Lemma summary_follows_keywords_witness :
  sumOut (foldl (λ st '(fac, DIST, cf), action fac DIST cf st)
            (default DSSP_new
               (setup example_parm [0; 1; 2; 3; 4; 5]%nat
                  (init (Some "dssp.dat"%string) None false DSSP_new)))
            [(example_fac, example_DIST, 0%nat)]) = Some "dssp.dat.sum"%string.
Proof.
  apply (summary_follows_keywords (Some "dssp.dat"%string) None false example_parm
           [0; 1; 2; 3; 4; 5]%nat _ [(example_fac, example_DIST, 0%nat)]).
  vm_compute. reflexivity.
Defined.

End DSSPFacts.

(** *** Properties of the clustering *)

Module DBSCANFacts.

Import DBSCAN.

(** *** Reading and writing the arrays *)

Lemma visited_set_Visited (n : nat) (w : Work) (f : nat) :
  visited (set_Visited n w) f =
    if decide (n = f ∧ (n < length (Visited w))%nat) then true else visited w f.
Proof.
  unfold visited, set_Visited. cbn [Visited]. rewrite list_lookup_insert.
  case_decide; reflexivity.
Qed.

Lemma status_set_Status (n : nat) (v : FrameStatus) (w : Work) (f : nat) :
  status (set_Status n v w) f =
    if decide (n = f ∧ (n < length (Status w))%nat) then v else status w f.
Proof. unfold status, set_Status. cbn [Status]. apply list_lookup_total_insert. Qed.

(** A frame that reads as visited is an index of the array. *)
Lemma visited_in_range (w : Work) (f : nat) :
  visited w f = true → (f < length (Visited w))%nat.
Proof.
  unfold visited. intros Hv. apply lookup_lt_is_Some.
  destruct (Visited w !! f); [eauto|discriminate].
Qed.

Lemma owners_app (f : nat) (cls : list (list nat)) (cl : list nat) :
  owners f (cls ++ [cl]) = (owners f cls + (if decide (f ∈ cl) then 1 else 0))%nat.
Proof.
  unfold owners. rewrite filter_app, length_app. f_equal.
  rewrite filter_cons, filter_nil. case_decide; reflexivity.
Qed.

Lemma elem_of_unique (l : list nat) (x : nat) : x ∈ unique l ↔ x ∈ l.
Proof.
  induction l as [|a [|b rest] IH]; [reflexivity|reflexivity|].
  change (unique (a :: b :: rest))
    with (if (a =? b)%nat then unique (b :: rest) else a :: unique (b :: rest)).
  destruct (Nat.eqb_spec a b) as [->|Hne].
  - rewrite IH. rewrite !elem_of_cons. tauto.
  - rewrite (elem_of_cons (unique _)), IH, !elem_of_cons. tauto.
Qed.

(** Sorting and removing duplicates keeps the members. *)
Lemma elem_of_sort_unique (l : list nat) (x : nat) :
  x ∈ unique (merge_sort Nat.le l) ↔ x ∈ l.
Proof. rewrite elem_of_unique. rewrite merge_sort_Permutation. reflexivity. Qed.

Lemma status_le_refl (a : FrameStatus) : status_le a a.
Proof. destruct a; exact I. Qed.

Lemma status_le_trans (a b c : FrameStatus) :
  status_le a b → status_le b c → status_le a c.
Proof. destruct a, b, c; simpl; tauto. Qed.

Section ClusterFacts.

Variable M : ClusterMatrix.
Variable minPoints : Z.
Variable eps : float.

Local Abbreviation FTC := (FramesToCluster M).
Local Abbreviation nb := (RegionQuery M eps).
Local Abbreviation core := (DBSCAN.core M minPoints eps).
Local Abbreviation unvisited_count := (DBSCAN.unvisited_count M).
Local Abbreviation OInv := (DBSCAN.OInv M minPoints eps).
Local Abbreviation IInv := (DBSCAN.IInv M minPoints eps).

Lemma elem_of_FTC (f : nat) :
  f ∈ FTC ↔ (f < Nframes M)%nat ∧ IgnoringRow M f = false.
Proof.
  unfold FramesToCluster. rewrite list_elem_of_filter, elem_of_seq. intuition lia.
Qed.

Lemma NoDup_FTC : NoDup FTC.
Proof. apply NoDup_filter, NoDup_seq. Qed.

Lemma elem_of_nb (p x : nat) :
  x ∈ nb p ↔ x ∈ FTC ∧ p ≠ x ∧ (GetElement M p x <? eps)%float = true.
Proof. unfold RegionQuery. rewrite list_elem_of_filter. tauto. Qed.

Lemma GetElement_sym (i j : nat) : GetElement M i j = GetElement M j i.
Proof.
  unfold GetElement.
  destruct (Nat.ltb_spec i j), (Nat.ltb_spec j i); try reflexivity; try lia.
  replace j with i by lia. reflexivity.
Qed.

(** The neighbourhood relation is symmetric on the clustered frames. *)
Lemma nb_sym (p x : nat) : x ∈ nb p → p ∈ FTC → p ∈ nb x.
Proof.
  rewrite !elem_of_nb. intros (Hx & Hne & Hd) Hp.
  rewrite GetElement_sym. auto.
Qed.

Lemma unvisited_count_le (w : Work) : (unvisited_count w ≤ Nframes M)%nat.
Proof.
  unfold unvisited_count. etransitivity; [apply length_filter|].
  unfold FramesToCluster. etransitivity; [apply length_filter|].
  rewrite length_seq. reflexivity.
Qed.

Lemma unvisited_count_ext (w w' : Work) :
  Visited w' = Visited w → unvisited_count w' = unvisited_count w.
Proof. intros HV. unfold unvisited_count, visited. rewrite HV. reflexivity. Qed.

Lemma unvisited_count_set (w : Work) (x : nat) :
  x ∈ FTC → visited w x = false → (x < length (Visited w))%nat →
  (unvisited_count (set_Visited x w) < unvisited_count w)%nat.
Proof.
  intros Hx Hv Hlt. unfold unvisited_count.
  assert (Heq : filter (λ f, visited (set_Visited x w) f = false) FTC =
                filter (λ f, f ≠ x) (filter (λ f, visited w f = false) FTC)).
  { rewrite list_filter_filter. apply list_filter_iff. intros f.
    rewrite visited_set_Visited. case_decide as Hd.
    - destruct Hd as [-> _]. split; [discriminate|tauto].
    - split; [intros Hf; split; [|exact Hf]; intros ->; tauto|tauto]. }
  rewrite Heq. apply (length_filter_lt _ _ x).
  - apply list_elem_of_filter. auto.
  - tauto.
Qed.

(** *** The expansion loop keeps its invariant *)

(** A frame of the queue is never a seed of an earlier cluster that
    kept status Unassigned: all neighbours of such a seed were visited
    before this expansion began. *)
Lemma queue_not_old_seed (w0 : Work) (p : nat) (Q : list nat) (w : Work) (x : nat) :
  IInv w0 p Q w → x ∈ Q → visited w0 x = true → status w0 x = UNASSIGNED → False.
Proof.
  intros HI Hx Hv0 Hs0.
  destruct (i_queue _ _ _ _ HI x Hx) as (c & Hc0 & Hc & Hcore & Hxc).
  pose proof (i_base _ _ _ _ HI) as HO.
  destruct (o_seed _ HO x Hv0 Hs0) as (Hcorex & _).
  assert (Hcx : c ∈ nb x).
  { apply nb_sym; [exact Hxc|]. apply (i_vis_ftc _ _ _ _ HI). exact Hc. }
  pose proof (o_core _ HO x Hv0 Hcorex c Hcx) as HsC.
  destruct (o_unvis _ HO c Hc0) as (HsU & _). congruence.
Qed.

Lemma status_le_INCLUSTER (a : FrameStatus) : status_le a INCLUSTER.
Proof. destruct a; exact I. Qed.

(** One step of the expansion loop, described by what it does to the
    arrays: the frame [x] read from the queue is visited and
    InCluster afterwards, it joins [cluster_frames] unless it was
    InCluster, and its neighbours join the queue if it was not visited
    and is a core point. *)
Lemma IInv_step (w0 : Work) (p x : nat) (rest Q' : list nat) (w w' : Work) :
  IInv w0 p (x :: rest) w →
  length (Visited w') = length (Visited w) →
  length (Status w') = length (Status w) →
  clusters w' = clusters w →
  (∀ f, visited w' f = if decide (f = x) then true else visited w f) →
  (∀ f, status w' f = if decide (f = x) then INCLUSTER else status w f) →
  cluster_frames w' =
    (if decide (status w x ≠ INCLUSTER)
     then cluster_frames w ++ [x] else cluster_frames w) →
  (∀ y, y ∈ rest → y ∈ Q') →
  (∀ y, y ∈ Q' → y ∈ rest ∨ (visited w x = false ∧ core x ∧ y ∈ nb x)) →
  (visited w x = false → core x → ∀ y, y ∈ nb x → y ∈ Q') →
  IInv w0 p Q' w'.
Proof.
  intros HI HlenV HlenS Hcls Hvis Hst Hcf Hsub Hsup Hnew.
  pose proof (i_base _ _ _ _ HI) as HO.
  destruct (i_queue _ _ _ _ HI x ltac:(left)) as (c0 & Hc00 & Hc0 & Hc0core & Hxc0).
  assert (HxF : x ∈ FTC) by (apply elem_of_nb in Hxc0; tauto).
  assert (Hold : visited w0 x = true → status w0 x = UNASSIGNED → False)
    by (apply (queue_not_old_seed w0 p (x :: rest) w x HI); left).
  assert (Hfresh : status w x ≠ INCLUSTER →
            status w0 x ≠ INCLUSTER ∧ owners x (clusters w0) = 0%nat).
  { intros Hne.
    assert (Hne0 : status w0 x ≠ INCLUSTER).
    { intros H0. pose proof (i_smono _ _ _ _ HI x) as Hm. rewrite H0 in Hm.
      destruct (status w x); simpl in Hm; tauto. }
    split; [exact Hne0|].
    destruct (visited w0 x) eqn:Hv0; [|apply (o_unvis _ HO x Hv0)].
    destruct (status w0 x) eqn:Hs0; [exfalso; auto|apply (o_noise _ HO x Hs0)|congruence]. }
  assert (Hvmono : ∀ f, visited w f = true → visited w' f = true).
  { intros f Hf. rewrite Hvis. destruct (decide (f = x)); [reflexivity|exact Hf]. }
  assert (Hcfsub : ∀ f, f ∈ cluster_frames w → f ∈ cluster_frames w').
  { intros f Hf. rewrite Hcf.
    destruct (decide (status w x ≠ INCLUSTER)); [apply elem_of_app; left|]; exact Hf. }
  assert (Hcfnot : ∀ f, f ≠ x → f ∉ cluster_frames w → f ∉ cluster_frames w').
  { intros f Hfx Hf. rewrite Hcf.
    destruct (decide (status w x ≠ INCLUSTER)); [|exact Hf].
    rewrite elem_of_app, list_elem_of_singleton. tauto. }
  constructor.
  - exact HO.
  - apply (i_p0 _ _ _ _ HI).
  - apply (i_pftc _ _ _ _ HI).
  - rewrite HlenV. apply (i_len_v _ _ _ _ HI).
  - rewrite HlenS. apply (i_len_s _ _ _ _ HI).
  - rewrite Hcls. apply (i_cls _ _ _ _ HI).
  - intros f. rewrite Hvis. destruct (decide (f = x)) as [Hd|Hd]; [subst; intros _; exact HxF|].
    apply (i_vis_ftc _ _ _ _ HI).
  - intros f Hf. apply Hvmono, (i_mono_v _ _ _ _ HI), Hf.
  - apply Hvmono, (i_p_vis _ _ _ _ HI).
  - apply (i_p_core _ _ _ _ HI).
  - apply Hcfsub, (i_p_in _ _ _ _ HI).
  - intros f. rewrite Hvis, Hst. destruct (decide (f = x)) as [Hd|Hd]; [discriminate|].
    intros Hf. destruct (i_unvis _ _ _ _ HI f Hf) as (HU & Hn).
    split; [exact HU|]. apply Hcfnot; assumption.
  - intros f. rewrite Hst. destruct (decide (f = x)) as [Hd|Hd]; [discriminate|].
    intros Hf. destruct (i_noise _ _ _ _ HI f Hf) as (HN & Hn).
    split; [exact HN|]. apply Hcfnot; assumption.
  - intros f. rewrite Hst. destruct (decide (f = x)) as [Hd|Hd].
    + subst f. intros _. destruct (decide (status w x = INCLUSTER)) as [HC|HnC].
      * destruct (i_inclu _ _ _ _ HI x HC) as (Halt & c & Hc & Hcc & Hxc).
        split; [|exists c; auto].
        rewrite Hcf, decide_False by tauto. exact Halt.
      * destruct (Hfresh HnC) as (Hn0 & Hown).
        split; [|exists c0; auto].
        right. split; [exact Hn0|]. split; [exact Hown|].
        rewrite Hcf, decide_True by exact HnC.
        apply elem_of_app. right. left.
    + intros Hf. destruct (i_inclu _ _ _ _ HI f Hf) as (Halt & c & Hc & Hcc & Hxc).
      split; [|exists c; auto].
      destruct Halt as [(H0 & Hn)|(H0 & Hown & Hin)].
      * left. split; [exact H0|]. apply Hcfnot; assumption.
      * right. split; [exact H0|]. split; [exact Hown|]. apply Hcfsub, Hin.
  - intros f. rewrite Hvis, Hst. destruct (decide (f = x)) as [Hd|Hd]; [discriminate|].
    intros Hv HU. destruct (i_unass _ _ _ _ HI f Hv HU) as [->|(Hv0 & Hs0 & Hn)].
    + left. reflexivity.
    + right. split; [exact Hv0|]. split; [exact Hs0|]. apply Hcfnot; assumption.
  - intros c Hc Hcore y Hy.
    destruct (visited w c) eqn:Hcw.
    + destruct (i_core _ _ _ _ HI c Hcw Hcore y Hy) as [HC|Hin].
      * left. rewrite Hst. destruct (decide (y = x)); [reflexivity|exact HC].
      * apply elem_of_cons in Hin as [->|Hin].
        -- left. rewrite Hst, decide_True by reflexivity. reflexivity.
        -- right. apply Hsub, Hin.
    + assert (c = x) as ->.
      { rewrite Hvis in Hc. destruct (decide (c = x)); [assumption|congruence]. }
      right. apply Hnew; assumption.
  - intros y Hy. destruct (Hsup y Hy) as [Hin|(Hxv & Hxcore & Hin)].
    + destruct (i_queue _ _ _ _ HI y ltac:(right; exact Hin)) as (c & Hc0' & Hc & Hcc & Hyc).
      exists c. auto.
    + exists x. split; [|split; [|split; assumption]].
      * destruct (visited w0 x) eqn:Hv0; [|reflexivity].
        rewrite (i_mono_v _ _ _ _ HI x Hv0) in Hxv. discriminate.
      * rewrite Hvis, decide_True by reflexivity. reflexivity.
  - intros f. rewrite Hst. destruct (decide (f = x)); [apply status_le_INCLUSTER|].
    apply (i_smono _ _ _ _ HI).
Qed.

Lemma add_neighbor_spec (x : nat) (w : Work) :
  (x < length (Status w))%nat →
  Visited (add_neighbor x w) = Visited w ∧
  length (Status (add_neighbor x w)) = length (Status w) ∧
  clusters (add_neighbor x w) = clusters w ∧
  (∀ f, status (add_neighbor x w) f =
          if decide (f = x) then INCLUSTER else status w f) ∧
  cluster_frames (add_neighbor x w) =
    (if decide (status w x ≠ INCLUSTER)
     then cluster_frames w ++ [x] else cluster_frames w).
Proof.
  intros Hlt. unfold add_neighbor.
  destruct (decide (status w x ≠ INCLUSTER)) as [Hne|He].
  - split; [reflexivity|]. split; [apply length_insert|]. split; [reflexivity|].
    split; [|reflexivity].
    intros f. rewrite status_set_Status. cbn [Status set_cluster_frames].
    destruct (decide (f = x)) as [->|Hfx].
    + rewrite decide_True by tauto. reflexivity.
    + rewrite decide_False by (intros [? _]; congruence). reflexivity.
  - repeat split; try reflexivity.
    intros f. destruct (decide (f = x)) as [->|Hfx]; [|reflexivity].
    destruct (decide (status w x = INCLUSTER)); tauto.
Qed.

Lemma expand_nil (fuel : nat) (w : Work) :
  expand M minPoints eps fuel [] w = Some w.
Proof. destruct fuel; reflexivity. Qed.

Lemma expand_visited (fuel : nat) (x : nat) (rest : list nat) (w : Work) :
  visited w x = true →
  expand M minPoints eps fuel (x :: rest) w =
    expand M minPoints eps fuel rest (add_neighbor x w).
Proof. intros Hv. destruct fuel; cbn [expand]; rewrite Hv; reflexivity. Qed.

Lemma expand_unvisited_O (x : nat) (rest : list nat) (w : Work) :
  visited w x = false → expand M minPoints eps 0 (x :: rest) w = None.
Proof. intros Hv. cbn [expand]. rewrite Hv. reflexivity. Qed.

Lemma expand_unvisited_S (fuel : nat) (x : nat) (rest : list nat) (w : Work) :
  visited w x = false →
  expand M minPoints eps (S fuel) (x :: rest) w =
    expand M minPoints eps fuel
      (if minPoints <=? Z.of_nat (length (nb x)) then rest ++ nb x else rest)
      (add_neighbor x (set_Visited x w)).
Proof. intros Hv. cbn [expand]. rewrite Hv. reflexivity. Qed.

(** The expansion loop ends, with fuel to spare, in a state that
    satisfies the invariant for the empty queue. *)
Lemma expand_inv (w0 : Work) (p : nat) (fuel : nat) :
  ∀ (Q : list nat) (w : Work),
    IInv w0 p Q w → (unvisited_count w ≤ fuel)%nat →
    ∃ w', expand M minPoints eps fuel Q w = Some w' ∧ IInv w0 p [] w'.
Proof.
  induction fuel as [|fuel IHf]; intros Q; induction Q as [|x rest IHQ];
    intros w HI Hfuel.
  - exists w. split; [apply expand_nil|exact HI].
  - destruct (i_queue _ _ _ _ HI x ltac:(left)) as (c0 & _ & _ & _ & Hxc0).
    assert (HxF : x ∈ FTC) by (apply elem_of_nb in Hxc0; tauto).
    assert (Hxlt : (x < Nframes M)%nat) by (apply elem_of_FTC in HxF; tauto).
    destruct (visited w x) eqn:Hv.
    + rewrite expand_visited by exact Hv.
      destruct (add_neighbor_spec x w) as (HV & HL & HC & HS & HF);
        [rewrite (i_len_s _ _ _ _ HI); exact Hxlt|].
      apply IHQ.
      * apply (IInv_step w0 p x rest rest w); try assumption.
        -- rewrite HV. reflexivity.
        -- intros f. unfold visited. rewrite HV. fold (visited w f).
           destruct (decide (f = x)) as [->|]; [exact Hv|reflexivity].
        -- tauto.
        -- tauto.
        -- congruence.
      * rewrite (unvisited_count_ext w _ HV). exact Hfuel.
    + exfalso. unfold unvisited_count in Hfuel.
      assert (Hin : x ∈ filter (λ f, visited w f = false) FTC)
        by (apply list_elem_of_filter; auto).
      destruct (filter _ FTC); [inversion Hin|simpl in Hfuel; lia].
  - exists w. split; [apply expand_nil|exact HI].
  - destruct (i_queue _ _ _ _ HI x ltac:(left)) as (c0 & _ & _ & _ & Hxc0).
    assert (HxF : x ∈ FTC) by (apply elem_of_nb in Hxc0; tauto).
    assert (Hxlt : (x < Nframes M)%nat) by (apply elem_of_FTC in HxF; tauto).
    destruct (visited w x) eqn:Hv.
    + rewrite expand_visited by exact Hv.
      destruct (add_neighbor_spec x w) as (HV & HL & HC & HS & HF);
        [rewrite (i_len_s _ _ _ _ HI); exact Hxlt|].
      apply IHQ.
      * apply (IInv_step w0 p x rest rest w); try assumption.
        -- rewrite HV. reflexivity.
        -- intros f. unfold visited. rewrite HV. fold (visited w f).
           destruct (decide (f = x)) as [->|]; [exact Hv|reflexivity].
        -- tauto.
        -- tauto.
        -- congruence.
      * rewrite (unvisited_count_ext w _ HV). exact Hfuel.
    + rewrite expand_unvisited_S by exact Hv.
      set (w1 := set_Visited x w).
      destruct (add_neighbor_spec x w1) as (HV & HL & HC & HS & HF);
        [cbn; rewrite (i_len_s _ _ _ _ HI); exact Hxlt|].
      assert (Hxv : (x < length (Visited w))%nat)
        by (rewrite (i_len_v _ _ _ _ HI); exact Hxlt).
      apply IHf.
      * apply (IInv_step w0 p x rest _ w); try assumption.
        -- rewrite HV. cbn. apply length_insert.
        -- intros f. unfold visited. rewrite HV. fold (visited w1 f).
           unfold w1. rewrite visited_set_Visited.
           destruct (decide (f = x)) as [->|Hfx].
           ++ rewrite decide_True by tauto. reflexivity.
           ++ rewrite decide_False by (intros [? _]; congruence). reflexivity.
        -- intros y Hy. destruct (minPoints <=? _); [apply elem_of_app; left|]; exact Hy.
        -- intros y Hy. destruct (Z.leb_spec minPoints (Z.of_nat (length (nb x)))) as [Hc|Hc].
           ++ apply elem_of_app in Hy as [Hy|Hy]; [left; exact Hy|].
              right. split; [exact Hv|]. split; [exact Hc|exact Hy].
           ++ left. exact Hy.
        -- intros _ Hcore y Hy. unfold core in Hcore.
           destruct (Z.leb_spec minPoints (Z.of_nat (length (nb x)))) as [Hc|Hc]; [|lia].
           apply elem_of_app. right. exact Hy.
      * pose proof (unvisited_count_set w x HxF Hv Hxv) as Hdec.
        rewrite (unvisited_count_ext w1 _ HV). fold w1 in Hdec. lia.
Qed.

(** The noise branch of the loop body keeps the invariant. *)
Lemma OInv_noise (w : Work) (p : nat) :
  OInv w → p ∈ FTC → visited w p = false → ¬ core p →
  OInv (set_Status p NOISE (set_Visited p w)).
Proof.
  intros HO HpF Hv Hncore.
  assert (Hplt : (p < Nframes M)%nat) by (apply elem_of_FTC in HpF; tauto).
  destruct (o_unvis _ HO p Hv) as (HpU & Hpown).
  set (w' := set_Status p NOISE (set_Visited p w)).
  assert (Hvis : ∀ f, visited w' f = if decide (f = p) then true else visited w f).
  { intros f. unfold w', visited. cbn [Visited set_Status]. fold (visited (set_Visited p w) f).
    rewrite visited_set_Visited, (o_len_v _ HO).
    destruct (decide (f = p)) as [->|Hfp].
    - rewrite decide_True by tauto. reflexivity.
    - rewrite decide_False by (intros [? _]; congruence). reflexivity. }
  assert (Hst : ∀ f, status w' f = if decide (f = p) then NOISE else status w f).
  { intros f. unfold w'. rewrite status_set_Status. cbn [Status set_Visited].
    rewrite (o_len_s _ HO).
    destruct (decide (f = p)) as [->|Hfp].
    - rewrite decide_True by tauto. reflexivity.
    - rewrite decide_False by (intros [? _]; congruence). reflexivity. }
  constructor.
  - cbn. rewrite length_insert. apply (o_len_v _ HO).
  - cbn. rewrite length_insert. apply (o_len_s _ HO).
  - intros f. rewrite Hvis. destruct (decide (f = p)) as [->|]; [intros _; exact HpF|].
    apply (o_vis_ftc _ HO).
  - intros f. rewrite Hvis, Hst. destruct (decide (f = p)); [discriminate|].
    apply (o_unvis _ HO).
  - intros f. rewrite Hst. destruct (decide (f = p)) as [->|].
    + intros _. split; [exact Hncore|exact Hpown].
    + apply (o_noise _ HO).
  - intros f. rewrite Hst. destruct (decide (f = p)); [discriminate|].
    intros Hf. destruct (o_inclu _ HO f Hf) as (Hown & c & Hc & Hcc & Hfc).
    split; [exact Hown|]. exists c. split; [|tauto].
    rewrite Hvis. destruct (decide (c = p)); [reflexivity|exact Hc].
  - intros f. rewrite Hvis, Hst. destruct (decide (f = p)); [discriminate|].
    apply (o_seed _ HO).
  - intros c. rewrite Hvis. destruct (decide (c = p)) as [->|]; [tauto|].
    intros Hc Hcore x Hx. rewrite Hst.
    pose proof (o_core _ HO c Hc Hcore x Hx) as HxC.
    destruct (decide (x = p)) as [->|]; [congruence|exact HxC].
Qed.

(** The state in which the expansion starts satisfies its invariant. *)
Lemma IInv_init (w : Work) (p : nat) :
  OInv w → p ∈ FTC → visited w p = false → core p →
  IInv w p (nb p) (set_cluster_frames [p] (set_Visited p w)).
Proof.
  intros HO HpF Hv Hcore.
  assert (Hplt : (p < Nframes M)%nat) by (apply elem_of_FTC in HpF; tauto).
  destruct (o_unvis _ HO p Hv) as (HpU & Hpown).
  set (w1 := set_cluster_frames [p] (set_Visited p w)).
  assert (Hvis : ∀ f, visited w1 f = if decide (f = p) then true else visited w f).
  { intros f. unfold w1, visited. cbn [Visited set_cluster_frames].
    fold (visited (set_Visited p w) f).
    rewrite visited_set_Visited, (o_len_v _ HO).
    destruct (decide (f = p)) as [->|Hfp].
    - rewrite decide_True by tauto. reflexivity.
    - rewrite decide_False by (intros [? _]; congruence). reflexivity. }
  assert (Hst : ∀ f, status w1 f = status w f) by reflexivity.
  assert (Hnotin : ∀ f, f ≠ p → f ∉ cluster_frames w1).
  { intros f Hfp. cbn. rewrite list_elem_of_singleton. exact Hfp. }
  constructor; try assumption.
  - cbn. rewrite length_insert. apply (o_len_v _ HO).
  - apply (o_len_s _ HO).
  - reflexivity.
  - intros f. rewrite Hvis. destruct (decide (f = p)) as [->|]; [intros _; exact HpF|].
    apply (o_vis_ftc _ HO).
  - intros f Hf. rewrite Hvis. destruct (decide (f = p)); [reflexivity|exact Hf].
  - rewrite Hvis, decide_True by reflexivity. reflexivity.
  - cbn. left.
  - intros f. rewrite Hvis, Hst. destruct (decide (f = p)) as [|Hfp]; [discriminate|].
    intros Hf. split; [apply (o_unvis _ HO f Hf)|apply Hnotin, Hfp].
  - intros f. rewrite Hst. intros Hf. split; [exact Hf|].
    apply Hnotin. intros ->. congruence.
  - intros f. rewrite Hst. intros Hf.
    destruct (o_inclu _ HO f Hf) as (Hown & c & Hc & Hcc & Hfc).
    split.
    + left. split; [exact Hf|]. apply Hnotin. intros ->. congruence.
    + exists c. split; [|tauto]. rewrite Hvis. destruct (decide (c = p)); [reflexivity|exact Hc].
  - intros f. rewrite Hvis, Hst. destruct (decide (f = p)) as [|Hfp]; [left; assumption|].
    intros Hf HU. right. split; [exact Hf|]. split; [exact HU|]. apply Hnotin, Hfp.
  - intros c. rewrite Hvis. destruct (decide (c = p)) as [->|].
    + intros _ _ x Hx. right. exact Hx.
    + intros Hc Hcc x Hx. left. rewrite Hst. apply (o_core _ HO c Hc Hcc x Hx).
  - intros x Hx. exists p. split; [exact Hv|]. split; [|tauto].
    rewrite Hvis, decide_True by reflexivity. reflexivity.
  - intros f. rewrite Hst. apply status_le_refl.
Qed.

(** When the expansion has ended, adding the cluster restores the
    invariant of the outer loop. *)
Lemma OInv_final (w0 : Work) (p : nat) (w : Work) :
  IInv w0 p [] w →
  OInv (AddCluster (unique (merge_sort Nat.le (cluster_frames w))) w).
Proof.
  intros HI. pose proof (i_base _ _ _ _ HI) as HO.
  set (cl := unique (merge_sort Nat.le (cluster_frames w))).
  assert (Hcl : ∀ f, f ∈ cl ↔ f ∈ cluster_frames w) by (intros f; apply elem_of_sort_unique).
  assert (Hown : ∀ f, owners f (clusters (AddCluster cl w)) =
                   (owners f (clusters w0) + (if decide (f ∈ cl) then 1 else 0))%nat).
  { intros f. cbn [clusters AddCluster]. rewrite owners_app, (i_cls _ _ _ _ HI). reflexivity. }
  assert (Hv0 : ∀ f, visited w f = false → visited w0 f = false).
  { intros f Hf. destruct (visited w0 f) eqn:H0; [|reflexivity].
    rewrite (i_mono_v _ _ _ _ HI f H0) in Hf. discriminate. }
  constructor.
  - apply (i_len_v _ _ _ _ HI).
  - apply (i_len_s _ _ _ _ HI).
  - apply (i_vis_ftc _ _ _ _ HI).
  - intros f Hf. change (visited w f = false) in Hf.
    destruct (i_unvis _ _ _ _ HI f Hf) as (HU & Hn).
    split; [exact HU|]. rewrite Hown, decide_False by (rewrite Hcl; exact Hn).
    rewrite (proj2 (o_unvis _ HO f (Hv0 f Hf))). reflexivity.
  - intros f Hf. change (status w f = NOISE) in Hf.
    destruct (i_noise _ _ _ _ HI f Hf) as (HN & Hn).
    destruct (o_noise _ HO f HN) as (Hnc & Ho).
    split; [exact Hnc|]. rewrite Hown, decide_False by (rewrite Hcl; exact Hn).
    rewrite Ho. reflexivity.
  - intros f Hf. change (status w f = INCLUSTER) in Hf.
    destruct (i_inclu _ _ _ _ HI f Hf) as (Halt & Hex).
    split; [|exact Hex].
    rewrite Hown. destruct Halt as [(H0 & Hn)|(H0 & Ho & Hin)].
    + rewrite decide_False by (rewrite Hcl; exact Hn).
      rewrite (proj1 (o_inclu _ HO f H0)). reflexivity.
    + rewrite decide_True by (rewrite Hcl; exact Hin). rewrite Ho. reflexivity.
  - intros f Hf HU. change (visited w f = true) in Hf. change (status w f = UNASSIGNED) in HU.
    rewrite Hown.
    destruct (i_unass _ _ _ _ HI f Hf HU) as [->|(Hf0 & HU0 & Hn)].
    + split; [apply (i_p_core _ _ _ _ HI)|].
      rewrite decide_True by (rewrite Hcl; apply (i_p_in _ _ _ _ HI)).
      rewrite (proj2 (o_unvis _ HO p (i_p0 _ _ _ _ HI))). reflexivity.
    + destruct (o_seed _ HO f Hf0 HU0) as (Hc & Ho).
      split; [exact Hc|]. rewrite decide_False by (rewrite Hcl; exact Hn).
      rewrite Ho. reflexivity.
  - intros c Hc Hcc x Hx. change (visited w c = true) in Hc.
    destruct (i_core _ _ _ _ HI c Hc Hcc x Hx) as [HC|Hin]; [exact HC|inversion Hin].
Qed.

(** One iteration of the loop over [FramesToCluster]: it returns,
    keeps the invariant, leaves its point visited, and moves statuses
    upwards only. *)
Lemma cluster_point_inv (w : Work) (p : nat) :
  OInv w → p ∈ FTC →
  ∃ w', cluster_point M minPoints eps w p = Some w' ∧ OInv w' ∧
        visited w' p = true ∧
        (∀ f, visited w f = true → visited w' f = true) ∧
        (∀ f, status_le (status w f) (status w' f)).
Proof.
  intros HO HpF. unfold cluster_point.
  destruct (visited w p) eqn:Hv.
  { exists w. split; [reflexivity|]. split; [exact HO|]. split; [exact Hv|].
    split; [tauto|]. intros f. apply status_le_refl. }
  assert (Hplt : (p < Nframes M)%nat) by (apply elem_of_FTC in HpF; tauto).
  cbv zeta.
  destruct (Z.ltb_spec (Z.of_nat (length (nb p))) minPoints) as [Hnc|Hc].
  - exists (set_Status p NOISE (set_Visited p w)).
    split; [reflexivity|]. split; [apply OInv_noise; try assumption; unfold core; lia|].
    split; [|split].
    + unfold visited. cbn [Visited set_Status]. fold (visited (set_Visited p w) p).
      rewrite visited_set_Visited, decide_True; [reflexivity|].
      split; [reflexivity|]. rewrite (o_len_v _ HO). exact Hplt.
    + intros f Hf. unfold visited. cbn [Visited set_Status].
      fold (visited (set_Visited p w) f). rewrite visited_set_Visited.
      destruct (decide _); [reflexivity|exact Hf].
    + intros f. rewrite status_set_Status. cbn [Status set_Visited].
      destruct (decide _) as [[<- _]|]; [|apply status_le_refl].
      rewrite (proj1 (o_unvis _ HO p Hv)). exact I.
  - pose proof (IInv_init w p HO HpF Hv Hc) as HI0.
    destruct (expand_inv w p (Nframes M) _ _ HI0 (unvisited_count_le _)) as (w2 & He & HI).
    rewrite He. eexists. split; [reflexivity|].
    split; [apply (OInv_final w p w2 HI)|]. split; [|split].
    + apply (i_p_vis _ _ _ _ HI).
    + apply (i_mono_v _ _ _ _ HI).
    + apply (i_smono _ _ _ _ HI).
Qed.

Lemma cluster_loop_None (pts : list nat) :
  foldl (λ ow point, ow ≫= λ w', cluster_point M minPoints eps w' point) None pts = None.
Proof. induction pts as [|p pts IH]; [reflexivity|exact IH]. Qed.

Lemma cluster_loop_cons (p : nat) (pts : list nat) (w : Work) :
  cluster_loop M minPoints eps (p :: pts) w =
    cluster_point M minPoints eps w p ≫= cluster_loop M minPoints eps pts.
Proof.
  unfold cluster_loop. cbn [foldl mbind option_bind].
  destruct (cluster_point M minPoints eps w p); [reflexivity|apply cluster_loop_None].
Qed.

Lemma cluster_loop_app (l1 l2 : list nat) (w : Work) :
  cluster_loop M minPoints eps (l1 ++ l2) w =
    cluster_loop M minPoints eps l1 w ≫= cluster_loop M minPoints eps l2.
Proof.
  revert w. induction l1 as [|p l1 IH]; intros w; [reflexivity|].
  rewrite <- app_comm_cons, !cluster_loop_cons.
  destruct (cluster_point M minPoints eps w p) as [w'|]; [apply IH|reflexivity].
Qed.

(** The loop over any list of clustered frames. *)
Lemma cluster_loop_inv (pts : list nat) (w : Work) :
  OInv w → (∀ p, p ∈ pts → p ∈ FTC) →
  ∃ w', cluster_loop M minPoints eps pts w = Some w' ∧ OInv w' ∧
        (∀ p, p ∈ pts → visited w' p = true) ∧
        (∀ f, visited w f = true → visited w' f = true) ∧
        (∀ f, status_le (status w f) (status w' f)).
Proof.
  revert w. induction pts as [|p pts IH]; intros w HO Hpts.
  - exists w. split; [reflexivity|]. split; [exact HO|].
    split; [intros p Hp; inversion Hp|]. split; [tauto|].
    intros f. apply status_le_refl.
  - destruct (cluster_point_inv w p HO (Hpts p ltac:(left)))
      as (w1 & E1 & HO1 & Hp1 & Hv1 & Hs1).
    destruct (IH w1 HO1 (λ q Hq, Hpts q ltac:(right; exact Hq)))
      as (w2 & E2 & HO2 & Hp2 & Hv2 & Hs2).
    exists w2. rewrite cluster_loop_cons, E1. split; [exact E2|].
    split; [exact HO2|]. split; [|split].
    + intros q Hq. apply elem_of_cons in Hq as [->|Hq]; [apply Hv2, Hp1|apply Hp2, Hq].
    + intros f Hf. apply Hv2, Hv1, Hf.
    + intros f. eapply status_le_trans; [apply Hs1|apply Hs2].
Qed.

Lemma OInv_initial : OInv (initial_work M).
Proof.
  assert (Hv : ∀ f, visited (initial_work M) f = false).
  { intros f. unfold visited, initial_work. cbn [Visited].
    destruct (replicate _ false !! f) as [b|] eqn:Hl; [|reflexivity].
    apply lookup_replicate in Hl as [-> _]. reflexivity. }
  assert (Hs : ∀ f, status (initial_work M) f = UNASSIGNED).
  { intros f. unfold status, initial_work. cbn [Status].
    rewrite list_lookup_total_alt.
    destruct (replicate _ UNASSIGNED !! f) as [b|] eqn:Hl; [|reflexivity].
    apply lookup_replicate in Hl as [-> _]. reflexivity. }
  constructor.
  - apply length_replicate.
  - apply length_replicate.
  - intros f. rewrite Hv. discriminate.
  - intros f _. split; [apply Hs|reflexivity].
  - intros f. rewrite Hs. discriminate.
  - intros f. rewrite Hs. discriminate.
  - intros f. rewrite Hv. discriminate.
  - intros c. rewrite Hv. discriminate.
Qed.

(** The loop of [Cluster] returns, and its final state satisfies the
    invariant with every clustered frame visited. *)
Lemma cluster_work_inv :
  ∃ w, cluster_work M minPoints eps = Some w ∧ OInv w ∧
       ∀ f, f ∈ FTC → visited w f = true.
Proof.
  destruct (cluster_loop_inv FTC (initial_work M) OInv_initial (λ p Hp, Hp))
    as (w & E & HO & Hall & _).
  exists w. split; [exact E|]. split; [exact HO|exact Hall].
Qed.

Lemma owners_le_1 (w : Work) (f : nat) : OInv w → (owners f (clusters w) ≤ 1)%nat.
Proof.
  intros HO. destruct (visited w f) eqn:Hv.
  - destruct (status w f) eqn:Hs.
    + rewrite (proj2 (o_seed _ HO f Hv Hs)). lia.
    + rewrite (proj2 (o_noise _ HO f Hs)). lia.
    + rewrite (proj1 (o_inclu _ HO f Hs)). lia.
  - rewrite (proj2 (o_unvis _ HO f Hv)). lia.
Qed.

(** At the end of the loop a clustered frame is in exactly one cluster
    and not Noise, or in no cluster and Noise. *)
Lemma final_partition (w : Work) (f : nat) :
  OInv w → visited w f = true →
  (owners f (clusters w) = 1%nat ∧ status w f ≠ NOISE) ∨
  (owners f (clusters w) = 0%nat ∧ status w f = NOISE).
Proof.
  intros HO Hv. destruct (status w f) eqn:Hs.
  - left. split; [apply (o_seed _ HO f Hv Hs)|discriminate].
  - right. split; [apply (o_noise _ HO f Hs)|reflexivity].
  - left. split; [apply (o_inclu _ HO f Hs)|discriminate].
Qed.

(** At the end of the loop the frames with status InCluster are the
    neighbours of the core points. *)
Lemma final_incluster_iff (w : Work) (f : nat) :
  OInv w → (∀ c, c ∈ FTC → visited w c = true) →
  status w f = INCLUSTER ↔ ∃ c, c ∈ FTC ∧ core c ∧ f ∈ nb c.
Proof.
  intros HO Hall. split.
  - intros Hs. destruct (o_inclu _ HO f Hs) as (_ & c & Hc & Hcc & Hfc).
    exists c. split; [apply (o_vis_ftc _ HO c Hc)|tauto].
  - intros (c & HcF & Hcc & Hfc). apply (o_core _ HO c (Hall c HcF) Hcc f Hfc).
Qed.

(** Every prefix of the loop returns, and from a shorter prefix to a
    longer one statuses move upwards only. *)
Lemma cluster_upto_inv (k : nat) :
  ∃ w, cluster_upto M minPoints eps k = Some w ∧ OInv w.
Proof.
  destruct (cluster_loop_inv (take k FTC) (initial_work M) OInv_initial)
    as (w & E & HO & _).
  - intros p Hp. apply (subseteq_take k FTC p Hp).
  - exists w. split; [exact E|exact HO].
Qed.

Lemma cluster_upto_mono (j d : nat) (wj wk : Work) (f : nat) :
  cluster_upto M minPoints eps j = Some wj →
  cluster_upto M minPoints eps (j + d) = Some wk →
  status_le (status wj f) (status wk f).
Proof.
  intros Ej Ek. destruct (cluster_upto_inv j) as (wj' & Ej' & HOj).
  assert (wj' = wj) as -> by congruence.
  unfold cluster_upto in Ek.
  assert (Hsplit : take (j + d) FTC = take j FTC ++ take d (drop j FTC))
    by (symmetry; apply take_take_drop).
  rewrite Hsplit, cluster_loop_app in Ek.
  fold (cluster_upto M minPoints eps j) in Ek. rewrite Ej in Ek. cbn in Ek.
  destruct (cluster_loop_inv (take d (drop j FTC)) wj HOj) as (w' & E' & _ & _ & _ & Hs).
  - intros p Hp. apply (subseteq_drop j FTC), (subseteq_take d _ p Hp).
  - assert (w' = wk) as -> by congruence. apply Hs.
Qed.

End ClusterFacts.

(** *** The partition property of [Cluster] *)

Lemma status_le_allowed (a b : FrameStatus) : status_le a b → allowed_move a b.
Proof. unfold allowed_move. destruct a, b; simpl; intros H; try tauto; auto. Qed.

(** C1, as stated, fails in its rule for the moves: with minPoints 2
    and epsilon 1 on the three frames in a row, frame 0 has one
    neighbour and is marked Noise in the first iteration; the second
    iteration starts a cluster at frame 1, reaches frame 0 and marks
    it InCluster. *)
Lemma noise_is_upgraded :
  ¬ moves_only_from_unassigned example_row 2 1%float.
Proof.
  intros Hrule.
  specialize (Hrule 1%nat 1%nat
    {| Visited := [true; false; false]; Status := [NOISE; UNASSIGNED; UNASSIGNED];
       cluster_frames := []; clusters := [] |}
    {| Visited := [true; true; true]; Status := [INCLUSTER; UNASSIGNED; INCLUSTER];
       cluster_frames := [1; 0; 2]%nat; clusters := [[0; 1; 2]%nat] |}
    0%nat).
  assert (H : NOISE = UNASSIGNED); [|discriminate H].
  apply Hrule.
  - vm_compute. reflexivity.
  - vm_compute. reflexivity.
  - vm_compute. discriminate.
Qed.

(** If no frame is in two clusters, the cluster of a frame is unique
    by position. *)
Lemma owners_pos (f : nat) (cls : list (list nat)) (j : nat) (cj : list nat) :
  cls !! j = Some cj → f ∈ cj → (1 ≤ owners f cls)%nat.
Proof.
  revert j. induction cls as [|c cls IH]; intros j Hj Hf; [discriminate|].
  unfold owners. rewrite filter_cons.
  destruct j as [|j]; cbn in Hj.
  - injection Hj as ->. rewrite decide_True by exact Hf. cbn. lia.
  - specialize (IH j Hj Hf). unfold owners in IH.
    destruct (decide (f ∈ c)); cbn; lia.
Qed.

Lemma owners_unique (f : nat) (cls : list (list nat)) (i j : nat) (ci cj : list nat) :
  (owners f cls ≤ 1)%nat →
  cls !! i = Some ci → cls !! j = Some cj → f ∈ ci → f ∈ cj → i = j.
Proof.
  revert i j. induction cls as [|c cls IH]; intros i j Hle Hi Hj Hfi Hfj; [discriminate|].
  unfold owners in Hle. rewrite filter_cons in Hle.
  destruct i as [|i], j as [|j]; cbn in Hi, Hj.
  - reflexivity.
  - injection Hi as ->. rewrite decide_True in Hle by exact Hfi.
    pose proof (owners_pos f cls j cj Hj Hfj) as Hpos. unfold owners in Hpos.
    cbn in Hle. lia.
  - injection Hj as ->. rewrite decide_True in Hle by exact Hfj.
    pose proof (owners_pos f cls i ci Hi Hfi) as Hpos. unfold owners in Hpos.
    cbn in Hle. lia.
  - f_equal. apply IH; try assumption.
    unfold owners. destruct (decide (f ∈ c)); cbn in Hle; lia.
Qed.

Lemma Cluster_spec {Centroid : Type} `{!ClusterDist Centroid}
    (M : ClusterMatrix) (s : State Centroid) :
  ∃ w s', cluster_work M (minPoints_ s) (epsilon_ s) = Some w ∧
          Cluster M s = Some s' ∧
          Status_ s' = Status w ∧ frameList <$> clusters_ s' = clusters w ∧
          minPoints_ s' = minPoints_ s ∧ epsilon_ s' = epsilon_ s ∧
          sieveToCentroid_ s' = sieveToCentroid_ s ∧
          OInv M (minPoints_ s) (epsilon_ s) w ∧
          ∀ f, f ∈ FramesToCluster M → visited w f = true.
Proof.
  destruct (cluster_work_inv M (minPoints_ s) (epsilon_ s)) as (w & E & HO & Hall).
  exists w. unfold Cluster. rewrite E. eexists. split; [reflexivity|].
  split; [reflexivity|]. cbn [Status_ clusters_ minPoints_ epsilon_ sieveToCentroid_].
  split; [reflexivity|]. split; [|auto].
  rewrite <- list_fmap_compose. apply list_fmap_id.
Qed.

(** C1 (amended). For every configuration and every (symmetric)
    distance matrix, [Cluster] returns, and afterwards every frame
    that is not sieved is in exactly one of two states: a member of
    exactly one recorded cluster and not marked Noise, or a member of
    none and marked Noise; no frame occurs in the frame lists of two
    different clusters. Statuses move upwards only: between any two
    points of the run (after [j] and after [j + d] iterations of the
    loop, each of which returns) the status of a frame is unchanged or
    went from Unassigned to Noise, from Unassigned to InCluster, or
    from Noise to InCluster; in particular InCluster never reverts. *)
Theorem cluster_partition {Centroid : Type} `{!ClusterDist Centroid}
    (M : ClusterMatrix) (s : State Centroid) :
  ∃ s', Cluster M s = Some s' ∧
    (∀ f, (f < Nframes M)%nat → IgnoringRow M f = false →
       (owners f (frameList <$> clusters_ s') = 1%nat ∧ Status_ s' !!! f ≠ NOISE) ∨
       (owners f (frameList <$> clusters_ s') = 0%nat ∧ Status_ s' !!! f = NOISE)) ∧
    (∀ f i j ci cj,
       (frameList <$> clusters_ s') !! i = Some ci →
       (frameList <$> clusters_ s') !! j = Some cj →
       f ∈ ci → f ∈ cj → i = j) ∧
    (∀ k, ∃ wk, cluster_upto M (minPoints_ s) (epsilon_ s) k = Some wk) ∧
    (∀ j d wj wk f,
       cluster_upto M (minPoints_ s) (epsilon_ s) j = Some wj →
       cluster_upto M (minPoints_ s) (epsilon_ s) (j + d) = Some wk →
       allowed_move (status wj f) (status wk f) ∧
       (status wj f = INCLUSTER → status wk f = INCLUSTER)) ∧
    Some (Status_ s') =
      Status <$> cluster_upto M (minPoints_ s) (epsilon_ s) (length (FramesToCluster M)).
Proof.
  destruct (Cluster_spec M s) as (w & s' & Ew & Es & HS & HC & _ & _ & _ & HO & Hall).
  exists s'. split; [exact Es|]. rewrite HS, HC.
  split; [|split; [|split; [|split]]].
  - intros f Hlt Hign. apply (final_partition M _ _ w f HO).
    apply Hall, elem_of_FTC. auto.
  - intros f i j ci cj. apply owners_unique, (owners_le_1 M _ _ w f HO).
  - intros k. destruct (cluster_upto_inv M (minPoints_ s) (epsilon_ s) k) as (wk & E & _).
    exists wk. exact E.
  - intros j d wj wk f Ej Ek.
    pose proof (cluster_upto_mono M _ _ j d wj wk f Ej Ek) as Hle.
    split; [apply status_le_allowed, Hle|].
    intros HC'. rewrite HC' in Hle. destruct (status wk f); simpl in Hle; tauto.
  - unfold cluster_upto. rewrite take_ge by reflexivity.
    fold (cluster_work M (minPoints_ s) (epsilon_ s)). rewrite Ew. reflexivity.
Qed.

(** *** Monotonicity in epsilon *)

Lemma length_filter_mono {A : Type} (P Q : A → Prop)
    `{∀ x, Decision (P x)} `{∀ x, Decision (Q x)} (l : list A) :
  (∀ x, P x → Q x) → (length (filter P l) ≤ length (filter Q l))%nat.
Proof.
  intros HPQ. induction l as [|x l IH]; [reflexivity|].
  rewrite !filter_cons. destruct (decide (P x)) as [HP|HP].
  - rewrite decide_True by auto. cbn. lia.
  - destruct (decide (Q x)); cbn; lia.
Qed.

Lemma RegionQuery_mono (M : ClusterMatrix) (e1 e2 : float) (p x : nat) :
  (e1 <=? e2)%float = true → x ∈ RegionQuery M e1 p → x ∈ RegionQuery M e2 p.
Proof.
  intros Hle. rewrite !elem_of_nb. intros (HF & Hne & Hlt).
  split; [exact HF|]. split; [exact Hne|].
  apply (float_ltb_leb_trans _ e1); assumption.
Qed.

Lemma core_mono (M : ClusterMatrix) (minPoints : Z) (e1 e2 : float) (p : nat) :
  (e1 <=? e2)%float = true → core M minPoints e1 p → core M minPoints e2 p.
Proof.
  intros Hle. unfold core, RegionQuery. intros Hc.
  assert (Hlen : (length (filter (λ o, p ≠ o ∧ (GetElement M p o <? e1)%float = true)
                            (FramesToCluster M)) ≤
                  length (filter (λ o, p ≠ o ∧ (GetElement M p o <? e2)%float = true)
                            (FramesToCluster M)))%nat).
  { apply length_filter_mono. intros o (Hne & Hlt). split; [exact Hne|].
    apply (float_ltb_leb_trans _ e1); assumption. }
  lia.
Qed.

Lemma count_incluster_mono (l1 l2 : list FrameStatus) :
  length l1 = length l2 →
  (∀ i, l1 !!! i = INCLUSTER → l2 !!! i = INCLUSTER) →
  (length (filter (λ stat, stat = INCLUSTER) l1) ≤
   length (filter (λ stat, stat = INCLUSTER) l2))%nat.
Proof.
  revert l2. induction l1 as [|a l1 IH]; intros [|b l2] Hlen Himp;
    try discriminate; [reflexivity|].
  rewrite !filter_cons.
  assert (IH' : (length (filter (λ stat, stat = INCLUSTER) l1) ≤
                 length (filter (λ stat, stat = INCLUSTER) l2))%nat).
  { apply IH; [cbn in Hlen; lia|]. intros i. apply (Himp (S i)). }
  destruct (decide (a = INCLUSTER)) as [Ha|Ha].
  - rewrite decide_True by (apply (Himp 0%nat); exact Ha). cbn. lia.
  - destruct (decide (b = INCLUSTER)); cbn; lia.
Qed.

(** C8. For one distance matrix (hence one set of candidate frames)
    and one [minPoints], if [Cluster] is run with epsilon [e1] and
    with [e2 >= e1], both runs return and the number of frames whose
    final status is InCluster with [e2] is at least that with [e1]. *)
Theorem epsilon_monotone {Centroid : Type} `{!ClusterDist Centroid}
    (M : ClusterMatrix) (s1 s2 : State Centroid) :
  minPoints_ s1 = minPoints_ s2 →
  (epsilon_ s1 <=? epsilon_ s2)%float = true →
  ∃ s1' s2', Cluster M s1 = Some s1' ∧ Cluster M s2 = Some s2' ∧
             (incluster_count s1' ≤ incluster_count s2')%nat.
Proof.
  intros Hmp Hle.
  destruct (Cluster_spec M s1) as (w1 & s1' & _ & E1 & HS1 & _ & _ & _ & _ & HO1 & Hall1).
  destruct (Cluster_spec M s2) as (w2 & s2' & _ & E2 & HS2 & _ & _ & _ & _ & HO2 & Hall2).
  exists s1', s2'. split; [exact E1|]. split; [exact E2|].
  unfold incluster_count. rewrite HS1, HS2.
  apply count_incluster_mono.
  - rewrite (o_len_s _ HO1), (o_len_s _ HO2). reflexivity.
  - intros f Hf. change (status w1 f = INCLUSTER) in Hf. change (status w2 f = INCLUSTER).
    apply (final_incluster_iff M _ _ w1 f HO1 Hall1) in Hf as (c & HcF & Hcc & Hfc).
    apply (final_incluster_iff M _ _ w2 f HO2 Hall2).
    exists c. split; [exact HcF|]. rewrite <- Hmp. split.
    + apply (core_mono M _ (epsilon_ s1)); assumption.
    + apply (RegionQuery_mono M (epsilon_ s1)); assumption.
Qed.

(** *** Validation of the configuration *)

(** C7. [SetupCluster] returns 1 for every argument set with
    [minpoints] missing or less than 1 or with [epsilon] missing or at
    most 0, leaving the statuses and the clusters untouched, and for
    all other argument sets it returns 0 with [minPoints_],
    [epsilon_] and [sieveToCentroid_] set from the arguments. *)
Theorem SetupCluster_validates {Centroid : Type} (a : ArgList) (s : State Centroid) :
  (invalid_args a →
     snd (SetupCluster a s) = 1 ∧
     Status_ (fst (SetupCluster a s)) = Status_ s ∧
     clusters_ (fst (SetupCluster a s)) = clusters_ s) ∧
  (¬ invalid_args a →
     snd (SetupCluster a s) = 0 ∧
     Some (minPoints_ (fst (SetupCluster a s))) = minpoints a ∧
     Some (epsilon_ (fst (SetupCluster a s))) = epsilon a ∧
     sieveToCentroid_ (fst (SetupCluster a s)) = negb (sievetoframe a)).
Proof.
  unfold invalid_args, SetupCluster, getKeyInt, getKeyDouble.
  destruct a as [[n|] [e|] stf];
    cbn [minpoints epsilon sievetoframe default from_option id minPoints_ epsilon_].
  - destruct (Z.ltb_spec n 1) as [Hn|Hn]; cbn [fst snd Status_ clusters_].
    + split; [intros _; repeat split|intros Hv; exfalso; apply Hv; left; exact Hn].
    + destruct (e <=? 0)%float eqn:He;
        cbn [fst snd Status_ clusters_ minPoints_ epsilon_ sieveToCentroid_].
      * split; [intros _; repeat split|intros Hv; exfalso; apply Hv; right; reflexivity].
      * split; [intros [H|H]; [lia|discriminate]|intros _; repeat split].
  - destruct (Z.ltb_spec n 1) as [Hn|Hn]; cbn [fst snd Status_ clusters_].
    + split; [intros _; repeat split|intros Hv; exfalso; apply Hv; left; exact Hn].
    + change ((-1) <=? 0)%float with true. cbn [fst snd Status_ clusters_].
      split; [intros _; repeat split|intros Hv; exfalso; apply Hv; right; exact I].
  - change (-1 <? 1) with true. cbn [fst snd Status_ clusters_].
    split; [intros _; repeat split|intros Hv; exfalso; apply Hv; left; exact I].
  - change (-1 <? 1) with true. cbn [fst snd Status_ clusters_].
    split; [intros _; repeat split|intros Hv; exfalso; apply Hv; left; exact I].
Qed.

Lemma SetupCluster_validates_witness :
  snd (SetupCluster {| minpoints := Some 0; epsilon := Some 1%float; sievetoframe := false |}
         (DBSCAN_new unit)) = 1 ∧
  snd (SetupCluster {| minpoints := Some 4; epsilon := Some 1.5%float; sievetoframe := true |}
         (DBSCAN_new unit)) = 0.
Proof.
  split.
  - apply (SetupCluster_validates
             {| minpoints := Some 0; epsilon := Some 1%float; sievetoframe := false |}
             (DBSCAN_new unit)).
    left. cbn. lia.
  - apply (SetupCluster_validates
             {| minpoints := Some 4; epsilon := Some 1.5%float; sievetoframe := true |}
             (DBSCAN_new unit)).
    intros [H|H]; cbn in H; [lia|]. vm_compute in H. discriminate H.
Defined.

(** *** Restoring sieved frames *)

Section SieveFacts.

Context {Centroid : Type} `{!ClusterDist Centroid}.

(** The search for the closest centroid: the distance it ends with is
    the start value or smaller, no cluster of the list is closer, and
    when it moved, the position returned is that of a cluster at
    exactly that distance. *)
Lemma closest_from_spec (frame : nat) (cls : list (ClusterNode Centroid)) :
  ∀ (idx : nat) (acc : float * option nat),
    let r := closest_from frame idx cls acc in
    (fst r = fst acc ∨ (fst r <? fst acc)%float = true) ∧
    (∀ k node, cls !! k = Some node →
       (FrameCentroidDist frame (Cent node) <? fst r)%float = false) ∧
    (r = acc ∨ ∃ k node, cls !! k = Some node ∧ snd r = Some (idx + k)%nat ∧
                         fst r = FrameCentroidDist frame (Cent node)).
Proof.
  induction cls as [|Cnode rest IH]; intros idx acc; cbn [closest_from]; cbv zeta.
  - split; [left; reflexivity|]. split; [intros k node Hk; discriminate|left; reflexivity].
  - set (dist := FrameCentroidDist frame (Cent Cnode)).
    destruct (dist <? fst acc)%float eqn:Hlt.
    + destruct (IH (S idx) (dist, Some idx)) as (Hle & Hmin & Hpos). cbn [fst snd] in *.
      set (r := closest_from frame (S idx) rest (dist, Some idx)) in *.
      split; [|split].
      * right. destruct Hle as [->|Hle]; [exact Hlt|].
        apply (float_ltb_trans _ dist); assumption.
      * intros [|k] node Hk; cbn in Hk.
        -- injection Hk as <-. fold dist.
           destruct Hle as [->|Hle]; [apply float_ltb_irrefl|].
           destruct (dist <? fst r)%float eqn:Hd; [|reflexivity].
           pose proof (float_ltb_trans _ _ _ Hd Hle) as Hirr.
           rewrite float_ltb_irrefl in Hirr. discriminate.
        -- apply (Hmin k node Hk).
      * right. destruct Hpos as [->|(k & node & Hk & Hs & Hf)].
        -- exists 0%nat, Cnode. cbn. rewrite Nat.add_0_r. auto.
        -- exists (S k), node. cbn. rewrite Hs, Hf.
           split; [exact Hk|]. split; [f_equal; lia|reflexivity].
    + destruct (IH (S idx) acc) as (Hle & Hmin & Hpos).
      set (r := closest_from frame (S idx) rest acc) in *.
      split; [exact Hle|]. split.
      * intros [|k] node Hk; cbn in Hk.
        -- injection Hk as <-. fold dist.
           destruct Hle as [->|Hle]; [exact Hlt|].
           destruct (dist <? fst r)%float eqn:Hd; [|reflexivity].
           rewrite (float_ltb_trans _ _ _ Hd Hle) in Hlt. discriminate.
        -- apply (Hmin k node Hk).
      * destruct Hpos as [->|(k & node & Hk & Hs & Hf)]; [left; reflexivity|].
        right. exists (S k), node. cbn. rewrite Hs, Hf.
        split; [exact Hk|]. split; [f_equal; lia|reflexivity].
Qed.

Lemma closest_centroid_spec (frame : nat) (cls : list (ClusterNode Centroid)) :
  (∀ k node, cls !! k = Some node →
     (FrameCentroidDist frame (Cent node) <? fst (closest_centroid frame cls))%float = false) ∧
  match snd (closest_centroid frame cls) with
  | Some c => ∃ node, cls !! c = Some node ∧
                      fst (closest_centroid frame cls) = FrameCentroidDist frame (Cent node)
  | None => fst (closest_centroid frame cls) = DBL_MAX
  end.
Proof.
  unfold closest_centroid.
  destruct (closest_from_spec frame cls 0 (DBL_MAX, None)) as (_ & Hmin & Hpos).
  split; [exact Hmin|].
  destruct Hpos as [->|(k & node & Hk & Hs & Hf)]; [reflexivity|].
  rewrite Hs. exists node. split; [exact Hk|exact Hf].
Qed.

(** The decision for a sieved frame under the frame-distance policy. *)
Lemma sieve_frame_assigned (s : State Centroid) (frame c : nat) :
  sieveToCentroid_ s = false →
  sieve_frame s frame = Some (Some c) →
  ∃ node, clusters_ s !! c = Some node ∧
    (∀ c' node', clusters_ s !! c' = Some node' →
       (FrameCentroidDist frame (Cent node') <?
        FrameCentroidDist frame (Cent node))%float = false) ∧
    ((FrameCentroidDist frame (Cent node) <? epsilon_ s)%float = true ∨
     ∃ m, m ∈ frameList node ∧ (FrameDist frame m <? epsilon_ s)%float = true).
Proof.
  intros Hpol. unfold sieve_frame.
  destruct (closest_centroid_spec frame (clusters_ s)) as (Hmin & Hpos).
  destruct (closest_centroid frame (clusters_ s)) as [mindist minNode].
  cbn [fst snd] in *. rewrite Hpol. cbn [orb].
  destruct (mindist <? epsilon_ s)%float eqn:Hlt.
  - intros Hm. injection Hm as ->. destruct Hpos as (node & Hc & Hd).
    exists node. split; [exact Hc|]. rewrite <- Hd. split; [exact Hmin|left; exact Hlt].
  - destruct minNode as [c0|]; [|discriminate].
    destruct Hpos as (node & Hc & Hd). rewrite Hc.
    destruct (existsb _ _) eqn:Hex; [|discriminate].
    intros Hm. injection Hm as <-.
    exists node. split; [exact Hc|]. rewrite <- Hd. split; [exact Hmin|right].
    apply existsb_exists in Hex as (m & Hin & Hm). exists m.
    split; [apply list_elem_of_In; exact Hin|exact Hm].
Qed.

(** A sieved frame whose closest centroid is exactly at epsilon and
    that has no member of that cluster within epsilon is discarded. *)
Lemma sieve_frame_boundary (s : State Centroid) (frame c : nat) (node : ClusterNode Centroid) :
  sieveToCentroid_ s = false →
  closest_centroid frame (clusters_ s) = (epsilon_ s, Some c) →
  clusters_ s !! c = Some node →
  (∀ m, m ∈ frameList node → (FrameDist frame m <? epsilon_ s)%float = false) →
  sieve_frame s frame = Some None.
Proof.
  intros Hpol Hclose Hc Hnone. unfold sieve_frame. rewrite Hclose, Hpol, Hc.
  rewrite float_ltb_irrefl. cbn [orb].
  destruct (existsb _ _) eqn:Hex; [|reflexivity].
  apply existsb_exists in Hex as (m & Hin & Hm).
  rewrite (Hnone m) in Hm by (apply list_elem_of_In; exact Hin). discriminate.
Qed.

(** The last loop: the members of a cluster afterwards are its members
    before and the frames whose entry of [frameToCluster] is that
    cluster. *)
Lemma add_sieved_members (fts : list (nat * option nat)) :
  ∀ (cls : list (ClusterNode Centroid)) (c : nat) (node' : ClusterNode Centroid),
    foldl add_sieved cls fts !! c = Some node' →
    ∃ node, cls !! c = Some node ∧ Cent node' = Cent node ∧
            ∀ f, f ∈ frameList node' ↔ f ∈ frameList node ∨ (f, Some c) ∈ fts.
Proof.
  induction fts as [|[f0 t0] fts IH]; intros cls c node' Hl; cbn [foldl] in Hl.
  - exists node'. split; [exact Hl|]. split; [reflexivity|].
    intros f. split; [tauto|]. intros [Hf|Hf]; [exact Hf|inversion Hf].
  - destruct (IH _ c node' Hl) as (node1 & H1 & HC & Hmem).
    unfold add_sieved in H1. cbn [fst snd] in H1.
    destruct t0 as [c0|].
    + rewrite list_lookup_alter in H1. destruct (decide (c0 = c)) as [->|Hne].
      * destruct (cls !! c) as [node|] eqn:Hc; [|discriminate].
        cbn in H1. injection H1 as <-. exists node. split; [reflexivity|].
        split; [exact HC|]. intros f. rewrite Hmem. cbn [frameList AddFrameToCluster].
        rewrite elem_of_app, list_elem_of_singleton, elem_of_cons.
        split; [intros [[Hf| ->]|Hf]; auto|intros [Hf|[Heq|Hf]]; auto].
        injection Heq as ->. auto.
      * exists node1. split; [exact H1|]. split; [exact HC|].
        intros f. rewrite Hmem, elem_of_cons.
        split; [intros [?|?]; auto|intros [?|[Heq|?]]; auto].
        injection Heq as _ Heq. congruence.
    + exists node1. split; [exact H1|]. split; [exact HC|].
      intros f. rewrite Hmem, elem_of_cons.
      split; [intros [?|?]; auto|intros [?|[Heq|?]]; auto]. discriminate.
Qed.

(** The frames added to cluster [c] by [AddSievedFrames] are the sieved
    frames whose decision is [c]. *)
Lemma AddSievedFrames_members (M : ClusterMatrix) (s s' : State Centroid)
    (c : nat) (node' : ClusterNode Centroid) :
  AddSievedFrames M s = Some s' → clusters_ s' !! c = Some node' →
  ∃ node, clusters_ s !! c = Some node ∧ Cent node' = Cent node ∧
    ∀ f, f ∈ frameList node' ↔
         f ∈ frameList node ∨
         ((f < Nframes M)%nat ∧ IgnoringRow M f = true ∧
          sieve_frame s f = Some (Some c)).
Proof.
  unfold AddSievedFrames. destruct (frameToCluster M s) as [targets|] eqn:Ht; [|discriminate].
  intros Hs Hc. injection Hs as <-. cbn [clusters_] in Hc.
  destruct (add_sieved_members _ _ c node' Hc) as (node & Hn & HC & Hmem).
  exists node. split; [exact Hn|]. split; [exact HC|].
  apply mapM_Some_1 in Ht.
  intros f. rewrite Hmem. apply or_iff_compat_l.
  split.
  - intros Hin. apply elem_of_lookup_zip_with in Hin as (i & x & y & Heq & Hx & Hy).
    injection Heq as Hfx Hcy. subst x y.
    apply lookup_seq in Hx as (Hfi & Hlt). cbn in Hfi. subst i.
    pose proof (Forall2_lookup_lr _ _ _ f f (Some c) Ht
                  (lookup_seq_lt 0 _ f Hlt) Hy) as Hg.
    cbn in Hg. destruct (IgnoringRow M f); [auto|discriminate].
  - intros (Hlt & Hign & Hsf).
    destruct (Forall2_lookup_l _ _ _ f f Ht (lookup_seq_lt 0 _ f Hlt)) as (y & Hy & Hg).
    cbn in Hg. rewrite Hign, Hsf in Hg. injection Hg as <-.
    apply elem_of_lookup_zip_with.
    exists f, f, (Some c). split; [reflexivity|].
    split; [apply (lookup_seq_lt 0 _ f Hlt)|exact Hy].
Qed.

(** C5. Under the frame-distance policy, when [AddSievedFrames] has
    added a frame [f] to the cluster at position [c] (it is in the
    frame list afterwards and was not before), [f] is a sieved frame,
    no cluster has a centroid strictly closer to [f] than that of [c],
    and the distance from [f] to that centroid is strictly below
    epsilon or some frame that was a member of [c] is strictly closer
    to [f] than epsilon. With the closest centroid exactly at epsilon
    and no member of that cluster strictly within epsilon, the frame
    is added to no cluster. *)
Theorem sieved_frame_goes_to_closest (M : ClusterMatrix) (s s' : State Centroid) :
  sieveToCentroid_ s = false →
  AddSievedFrames M s = Some s' →
  (∀ c node node' f,
     clusters_ s !! c = Some node → clusters_ s' !! c = Some node' →
     f ∈ frameList node' → f ∉ frameList node →
     ((f < Nframes M)%nat ∧ IgnoringRow M f = true) ∧
     (∀ c' n', clusters_ s !! c' = Some n' →
        (FrameCentroidDist f (Cent n') <? FrameCentroidDist f (Cent node))%float = false) ∧
     ((FrameCentroidDist f (Cent node) <? epsilon_ s)%float = true ∨
      ∃ m, m ∈ frameList node ∧ (FrameDist f m <? epsilon_ s)%float = true)) ∧
  (∀ c node f,
     closest_centroid f (clusters_ s) = (epsilon_ s, Some c) →
     clusters_ s !! c = Some node →
     (∀ m, m ∈ frameList node → (FrameDist f m <? epsilon_ s)%float = false) →
     ∀ c' node0 node',
       clusters_ s !! c' = Some node0 → clusters_ s' !! c' = Some node' →
       f ∈ frameList node' → f ∈ frameList node0).
Proof.
  intros Hpol Hadd. split.
  - intros c node node' f Hc Hc' Hin Hnotin.
    destruct (AddSievedFrames_members M s s' c node' Hadd Hc') as (node1 & H1 & _ & Hmem).
    assert (node1 = node) as -> by congruence.
    apply Hmem in Hin as [Hin|(Hlt & Hign & Hsf)]; [contradiction|].
    split; [auto|].
    destruct (sieve_frame_assigned s f c Hpol Hsf) as (node2 & H2 & Hmin & Hclose).
    assert (node2 = node) as -> by congruence. auto.
  - intros c node f Hclose Hc Hnone c' node0 node' H0 H' Hin.
    destruct (AddSievedFrames_members M s s' c' node' Hadd H') as (node1 & H1 & _ & Hmem).
    assert (node1 = node0) as -> by congruence.
    apply Hmem in Hin as [Hin|(_ & _ & Hsf)]; [exact Hin|].
    rewrite (sieve_frame_boundary s f c node Hpol Hclose Hc Hnone) in Hsf. discriminate.
Qed.

Lemma elem_of_ClusterResults (s : State Centroid) (n : nat) :
  n ∈ ClusterResults s ↔ ∃ i, n = (i + 1)%nat ∧ Status_ s !! i = Some NOISE.
Proof.
  unfold ClusterResults. rewrite list_elem_of_omap. split.
  - intros ([i stat] & Hin & Hf).
    apply elem_of_lookup_imap in Hin as (i' & stat' & Heq & Hl).
    injection Heq as -> ->. destruct (decide (stat' = NOISE)) as [->|]; [|discriminate].
    injection Hf as <-. exists i'. auto.
  - intros (i & -> & Hl). exists (i, NOISE). split.
    + apply elem_of_lookup_imap. exists i, NOISE. auto.
    + rewrite decide_True by reflexivity. reflexivity.
Qed.

(** The decision for a frame is defined under the centroid-only
    policy, and under the frame-distance policy as soon as there is a
    cluster and every centroid distance is below [DBL_MAX]. *)
Lemma sieve_frame_defined (s : State Centroid) (frame : nat) :
  sieveToCentroid_ s = true ∨
  (clusters_ s ≠ [] ∧
   ∀ node, node ∈ clusters_ s →
           (FrameCentroidDist frame (Cent node) <? DBL_MAX)%float = true) →
  is_Some (sieve_frame s frame).
Proof.
  intros Hcase. unfold sieve_frame.
  destruct (closest_centroid_spec frame (clusters_ s)) as (Hmin & Hpos).
  destruct (closest_centroid frame (clusters_ s)) as [mindist minNode].
  cbn [fst snd] in *.
  destruct (sieveToCentroid_ s || (mindist <? epsilon_ s)%float) eqn:Hgood; [eauto|].
  destruct Hcase as [Hpol|(Hne & Hfin)]; [rewrite Hpol in Hgood; discriminate|].
  destruct minNode as [c|].
  - destruct Hpos as (node & -> & _). destruct (existsb _ _); eauto.
  - exfalso. destruct (clusters_ s) as [|node rest]; [congruence|].
    specialize (Hmin 0%nat node eq_refl). rewrite Hpos in Hmin.
    rewrite (Hfin node) in Hmin by left. discriminate.
Qed.

(** C10. [AddSievedFrames] does not write [Status_]: when it returns,
    the status array, and with it the noise listing of
    [ClusterResults], is what it was; it returns under the
    centroid-only policy, and under the frame-distance policy when
    there is a cluster and all centroid distances are below
    [DBL_MAX]. After [Cluster] and [AddSievedFrames], every sieved
    frame, whether added to a cluster or discarded as noise, has
    status Unassigned and its number is absent from the noise
    listing. *)
Theorem sieve_restoration_keeps_status (M : ClusterMatrix) (s : State Centroid) :
  (∀ s', AddSievedFrames M s = Some s' →
         Status_ s' = Status_ s ∧ ClusterResults s' = ClusterResults s) ∧
  (sieveToCentroid_ s = true ∨
   (clusters_ s ≠ [] ∧
    ∀ f node, node ∈ clusters_ s →
              (FrameCentroidDist f (Cent node) <? DBL_MAX)%float = true) →
   is_Some (AddSievedFrames M s)) ∧
  (∀ s0 s', Cluster M s0 = Some s → AddSievedFrames M s = Some s' →
     ∀ f, (f < Nframes M)%nat → IgnoringRow M f = true →
       Status_ s' !! f = Some UNASSIGNED ∧ (f + 1)%nat ∉ ClusterResults s').
Proof.
  assert (Hkeep : ∀ s', AddSievedFrames M s = Some s' →
                        Status_ s' = Status_ s ∧ ClusterResults s' = ClusterResults s).
  { intros s'. unfold AddSievedFrames.
    destruct (frameToCluster M s); [|discriminate].
    intros Hs. injection Hs as <-. split; reflexivity. }
  split; [exact Hkeep|]. split.
  - intros Hcase. unfold AddSievedFrames.
    assert (Hsome : is_Some (frameToCluster M s)).
    { apply mapM_is_Some_2, Forall_forall. intros f _. cbn.
      destruct (IgnoringRow M f); [|eauto].
      apply sieve_frame_defined.
      destruct Hcase as [Hpol|(Hne & Hfin)]; [left; exact Hpol|right].
      split; [exact Hne|]. intros node. apply Hfin. }
    destruct Hsome as [targets ->]. eauto.
  - intros s0 s' Hcl Hadd f Hlt Hign.
    destruct (Cluster_spec M s0) as (w & s1 & _ & E1 & HS & _ & _ & _ & _ & HO & _).
    assert (s1 = s) as -> by congruence.
    destruct (Hkeep s' Hadd) as (Hst & _).
    assert (Hv : visited w f = false).
    { destruct (visited w f) eqn:Hv; [|reflexivity].
      apply (o_vis_ftc _ HO), elem_of_FTC in Hv. destruct Hv as [_ Hv]. congruence. }
    assert (HU : Status_ s' !! f = Some UNASSIGNED).
    { rewrite Hst, HS. rewrite <- (proj1 (o_unvis _ HO f Hv)).
      apply list_lookup_lookup_total_lt. rewrite (o_len_s _ HO). exact Hlt. }
    split; [exact HU|].
    rewrite elem_of_ClusterResults. intros (i & Hi & Hl).
    assert (i = f) as -> by lia. congruence.
Qed.

End SieveFacts.

(** *** The worked example *)

Lemma cluster_partition_witness :
  owners 1 (frameList <$> clusters_ example_clustered) = 1%nat ∧
  Status_ example_clustered !!! 1%nat ≠ NOISE.
Proof.
  destruct (cluster_partition example_sieved example_config) as (s' & Hs & Hpart & _).
  assert (s' = example_clustered) as ->.
  { unfold example_clustered. rewrite Hs. reflexivity. }
  destruct (Hpart 1%nat) as [H|[_ H]].
  - vm_compute. lia.
  - reflexivity.
  - exact H.
  - vm_compute in H. discriminate H.
Defined.

Lemma epsilon_monotone_witness :
  ∃ s1' s2', Cluster example_sieved example_config = Some s1' ∧
             Cluster example_sieved example_config_wide = Some s2' ∧
             (incluster_count s1' ≤ incluster_count s2')%nat.
Proof.
  apply (epsilon_monotone example_sieved example_config example_config_wide).
  - reflexivity.
  - vm_compute. reflexivity.
Defined.

Lemma sieved_frame_goes_to_closest_witness :
  (FrameCentroidDist 4 0%nat <? 1)%float = true ∨
  ∃ m, m ∈ [0; 1; 2]%nat ∧ (FrameDist 4 m <? 1)%float = true.
Proof.
  destruct (sieved_frame_goes_to_closest example_sieved example_clustered example_restored)
    as (Hassigned & _).
  - reflexivity.
  - vm_compute. reflexivity.
  - destruct (Hassigned 0%nat
                {| frameList := [0; 1; 2]%nat; Cent := 0%nat |}
                {| frameList := [0; 1; 2; 4]%nat; Cent := 0%nat |} 4%nat)
      as (_ & _ & H).
    + vm_compute. reflexivity.
    + vm_compute. reflexivity.
    + cbn [frameList]. rewrite !elem_of_cons. auto.
    + cbn [frameList]. rewrite !elem_of_cons, elem_of_nil. lia.
    + exact H.
Defined.

Lemma sieve_restoration_keeps_status_witness :
  Status_ example_restored !! 3%nat = Some UNASSIGNED ∧
  4%nat ∉ ClusterResults example_restored.
Proof.
  destruct (sieve_restoration_keeps_status example_sieved example_clustered)
    as (_ & _ & Hsieved).
  apply (Hsieved example_config example_restored).
  - vm_compute. reflexivity.
  - vm_compute. reflexivity.
  - vm_compute. lia.
  - reflexivity.
Defined.

(** ** Further properties of the clustering *)

Lemma owners_pos_inv (f : nat) (cls : list (list nat)) :
  (1 ≤ owners f cls)%nat → ∃ cl, cl ∈ cls ∧ f ∈ cl.
Proof.
  unfold owners. intros Hpos.
  destruct (filter (λ cl, f ∈ cl) cls) as [|cl rest] eqn:Hf; [cbn in Hpos; lia|].
  assert (Hin : cl ∈ filter (λ cl, f ∈ cl) cls) by (rewrite Hf; left).
  apply list_elem_of_filter in Hin. exists cl. tauto.
Qed.

Lemma owners_pos_elem (f : nat) (cls : list (list nat)) (cl : list nat) :
  cl ∈ cls → f ∈ cl → (1 ≤ owners f cls)%nat.
Proof.
  intros Hcl Hf. apply list_elem_of_lookup in Hcl as (j & Hj).
  apply (owners_pos f cls j cl Hj Hf).
Qed.

Section More.
Variable M : ClusterMatrix.
Variable minPoints : Z.
Variable eps : float.

Local Abbreviation FTC := (FramesToCluster M).
Local Abbreviation nb := (RegionQuery M eps).
Local Abbreviation core := (DBSCAN.core M minPoints eps).
Local Abbreviation OInv := (DBSCAN.OInv M minPoints eps).

Lemma clustered_visited (w : Work) (f : nat) (cl : list nat) :
  OInv w → cl ∈ clusters w → f ∈ cl → visited w f = true.
Proof.
  intros HO Hcl Hf. destruct (visited w f) eqn:Hv; [reflexivity|].
  destruct (o_unvis _ HO f Hv) as (_ & Hown).
  pose proof (owners_pos_elem f _ cl Hcl Hf). lia.
Qed.

Lemma final_clustered_iff (w : Work) (f : nat) :
  OInv w → (∀ c, c ∈ FTC → visited w c = true) →
  (∃ cl, cl ∈ clusters w ∧ f ∈ cl) ↔
  f ∈ FTC ∧ (core f ∨ near_core M minPoints eps f).
Proof.
  intros HO Hall. split.
  - intros (cl & Hcl & Hf).
    pose proof (clustered_visited w f cl HO Hcl Hf) as Hv.
    split; [apply (o_vis_ftc _ HO f Hv)|].
    destruct (status w f) eqn:Hs.
    + left. apply (o_seed _ HO f Hv Hs).
    + destruct (o_noise _ HO f Hs) as (_ & Hown).
      pose proof (owners_pos_elem f _ cl Hcl Hf). lia.
    + right. apply (final_incluster_iff M minPoints eps w f HO Hall). exact Hs.
  - intros (HF & Hcase). pose proof (Hall f HF) as Hv.
    apply owners_pos_inv.
    destruct (final_partition M minPoints eps w f HO Hv) as [(Hown & _)|(_ & Hs)]; [lia|].
    exfalso. destruct (o_noise _ HO f Hs) as (Hnc & _).
    destruct Hcase as [Hc|Hn]; [exact (Hnc Hc)|].
    apply (final_incluster_iff M minPoints eps w f HO Hall) in Hn. congruence.
Qed.

Lemma final_noise_iff (w : Work) (f : nat) :
  OInv w → (∀ c, c ∈ FTC → visited w c = true) →
  status w f = NOISE ↔
  f ∈ FTC ∧ ¬ core f ∧ ¬ near_core M minPoints eps f.
Proof.
  intros HO Hall. split.
  - intros Hs. destruct (o_noise _ HO f Hs) as (Hnc & _).
    assert (Hv : visited w f = true).
    { destruct (visited w f) eqn:Hv; [reflexivity|].
      destruct (o_unvis _ HO f Hv) as (HU & _). congruence. }
    split; [apply (o_vis_ftc _ HO f Hv)|]. split; [exact Hnc|].
    intros Hn. apply (final_incluster_iff M minPoints eps w f HO Hall) in Hn. congruence.
  - intros (HF & Hnc & Hnn). pose proof (Hall f HF) as Hv.
    destruct (status w f) eqn:Hs; [|reflexivity|].
    + exfalso. apply Hnc, (o_seed _ HO f Hv Hs).
    + exfalso. apply Hnn, (final_incluster_iff M minPoints eps w f HO Hall), Hs.
Qed.

End More.

(** The noise listing is in ascending order, whatever the statuses. *)
Lemma noise_numbers_sorted (l : list FrameStatus) (k : nat) :
  StronglySorted lt
    (omap (λ '(i, stat), if decide (stat = NOISE) then Some (i + 1)%nat else None)
          (imap (λ i stat, (k + i, stat)%nat) l)) ∧
  Forall (λ n, (k < n)%nat)
    (omap (λ '(i, stat), if decide (stat = NOISE) then Some (i + 1)%nat else None)
          (imap (λ i stat, (k + i, stat)%nat) l)).
Proof.
  revert k. induction l as [|stat l IH]; intros k; [split; constructor|].
  cbn [imap omap].
  assert (Hext : imap ((λ i stat, (k + i, stat)%nat) ∘ S) l =
                 imap (λ i stat, (S k + i, stat)%nat) l).
  { apply imap_ext. intros i x _. cbn. f_equal. lia. }
  rewrite Hext. destruct (IH (S k)) as (Hs & Hf).
  unfold omap in *. cbn [list_omap]. fold (@omap list _ (nat * FrameStatus)%type nat) in *.
  destruct (decide (stat = NOISE)) as [_|_].
  - split.
    + constructor; [exact Hs|]. eapply Forall_impl; [exact Hf|]. cbn. intros n Hn. lia.
    + constructor; [lia|]. eapply Forall_impl; [exact Hf|]. cbn. intros n Hn. lia.
  - split; [exact Hs|]. eapply Forall_impl; [exact Hf|]. cbn. intros n Hn. lia.
Qed.

Lemma ClusterResults_sorted {Centroid : Type} (s : State Centroid) :
  StronglySorted lt (ClusterResults s).
Proof.
  unfold ClusterResults.
  destruct (noise_numbers_sorted (Status_ s) 0) as (Hs & _).
  erewrite imap_ext; [exact Hs|]. intros i x _. reflexivity.
Qed.

Lemma status_lookup_NOISE (w : Work) (i : nat) :
  Status w !! i = Some NOISE ↔ status w i = NOISE.
Proof.
  unfold status. split.
  - intros Hl. apply list_lookup_total_correct. exact Hl.
  - intros Hs. destruct (Status w !! i) as [x|] eqn:Hl.
    + rewrite (list_lookup_total_correct _ _ _ Hl) in Hs. congruence.
    + rewrite list_lookup_total_alt, Hl in Hs. discriminate Hs.
Qed.

(** X1. After [Cluster], a frame belongs to a cluster exactly when it is
    clustered (in range and not sieved) and is a core frame or lies
    within epsilon of a clustered core frame. *)
Theorem clusters_cover_core_and_border {Centroid : Type} `{!ClusterDist Centroid}
    (M : ClusterMatrix) (s : State Centroid) :
  ∃ s', Cluster M s = Some s' ∧
    ∀ f, (∃ cl, cl ∈ frameList <$> clusters_ s' ∧ f ∈ cl) ↔
         ((f < Nframes M)%nat ∧ IgnoringRow M f = false) ∧
         (core M (minPoints_ s) (epsilon_ s) f ∨
          near_core M (minPoints_ s) (epsilon_ s) f).
Proof.
  destruct (Cluster_spec M s) as (w & s' & _ & Es & _ & HC & _ & _ & _ & HO & Hall).
  exists s'. split; [exact Es|]. intros f. rewrite HC, <- elem_of_FTC.
  apply final_clustered_iff; assumption.
Qed.

(** X2. After [Cluster], the listing of [ClusterResults] is in strictly
    ascending order and holds the 1-based numbers of exactly the
    clustered frames that are neither core frames nor within epsilon
    of a clustered core frame. *)
Theorem noise_listing_characterised {Centroid : Type} `{!ClusterDist Centroid}
    (M : ClusterMatrix) (s : State Centroid) :
  ∃ s', Cluster M s = Some s' ∧
    StronglySorted lt (ClusterResults s') ∧
    ∀ n, n ∈ ClusterResults s' ↔
         ∃ f, n = (f + 1)%nat ∧
              ((f < Nframes M)%nat ∧ IgnoringRow M f = false) ∧
              ¬ core M (minPoints_ s) (epsilon_ s) f ∧
              ¬ near_core M (minPoints_ s) (epsilon_ s) f.
Proof.
  destruct (Cluster_spec M s) as (w & s' & _ & Es & HS & _ & _ & _ & _ & HO & Hall).
  exists s'. split; [exact Es|]. split; [apply ClusterResults_sorted|].
  intros n. rewrite elem_of_ClusterResults. rewrite HS.
  split; intros (f & -> & Hf); exists f; (split; [reflexivity|]).
  - apply status_lookup_NOISE in Hf. rewrite <- elem_of_FTC.
    apply (final_noise_iff M _ _ w f HO Hall). exact Hf.
  - apply status_lookup_NOISE. rewrite <- elem_of_FTC in Hf.
    apply (final_noise_iff M _ _ w f HO Hall). exact Hf.
Qed.

(** *** The frame lists of the clusters *)

(** [std::unique] on a sorted list leaves a strictly ascending one. *)
Lemma unique_sorted (l : list nat) :
  StronglySorted le l → StronglySorted lt (unique l).
Proof.
  induction l as [|x rest IH]; intros Hs; [constructor|].
  apply StronglySorted_inv in Hs as (Hrest & Hx).
  specialize (IH Hrest). cbn [unique].
  destruct rest as [|y rest']; [repeat constructor|].
  destruct (Nat.eqb_spec x y) as [->|Hne]; [exact IH|].
  constructor; [exact IH|].
  apply Forall_forall. intros z Hz. apply (proj1 (elem_of_unique _ _)) in Hz.
  apply StronglySorted_inv in Hrest as (_ & Hy).
  pose proof (Forall_inv Hx) as Hxy.
  apply elem_of_cons in Hz as [->|Hz]; [lia|].
  rewrite Forall_forall in Hy. specialize (Hy z Hz). lia.
Qed.

Lemma sort_unique_sorted (l : list nat) :
  StronglySorted lt (unique (merge_sort Nat.le l)).
Proof. apply unique_sorted, StronglySorted_merge_sort; apply _. Qed.

Section Shape.

Variable M : ClusterMatrix.
Variable minPoints : Z.
Variable eps : float.

Local Abbreviation FTC := (FramesToCluster M).
Local Abbreviation nb := (RegionQuery M eps).
Local Abbreviation core := (DBSCAN.core M minPoints eps).
Local Abbreviation reach := (reachable M minPoints eps).

Lemma add_neighbor_frames (x : nat) (w : Work) :
  clusters (add_neighbor x w) = clusters w ∧
  (cluster_frames (add_neighbor x w) = cluster_frames w ∨
   cluster_frames (add_neighbor x w) = cluster_frames w ++ [x]).
Proof.
  unfold add_neighbor. destruct (decide (status w x ≠ INCLUSTER)); cbn; auto.
Qed.

(** The expansion loop leaves the clusters alone and adds to
    [cluster_frames] only frames read from the queue; a property that
    holds of the queue, and passes from a core frame to its
    neighbours, holds of every frame added. *)
Lemma expand_closed (R : nat → Prop) :
  (∀ x y, R x → core x → y ∈ nb x → R y) →
  ∀ (fuel : nat) (Q : list nat) (w w' : Work),
    expand M minPoints eps fuel Q w = Some w' →
    (∀ f, f ∈ cluster_frames w → R f) → (∀ x, x ∈ Q → R x) →
    clusters w' = clusters w ∧
    (∀ f, f ∈ cluster_frames w → f ∈ cluster_frames w') ∧
    (∀ f, f ∈ cluster_frames w' → R f).
Proof.
  intros Hstep.
  assert (Hadd : ∀ x w, R x → (∀ f, f ∈ cluster_frames w → R f) →
            ∀ f, f ∈ cluster_frames (add_neighbor x w) → R f).
  { intros x w Hx Hw f. destruct (add_neighbor_frames x w) as (_ & [->| ->]); [apply Hw|].
    rewrite elem_of_app, list_elem_of_singleton. intros [Hf| ->]; auto. }
  assert (Hsub : ∀ x w f, f ∈ cluster_frames w → f ∈ cluster_frames (add_neighbor x w)).
  { intros x w f Hf. destruct (add_neighbor_frames x w) as (_ & [->| ->]); [exact Hf|].
    apply elem_of_app. left. exact Hf. }
  induction fuel as [|fuel IHf]; intros Q; induction Q as [|x rest IHQ];
    intros w w' He Hw HQ.
  - rewrite expand_nil in He. injection He as <-. auto.
  - destruct (visited w x) eqn:Hv.
    + rewrite expand_visited in He by exact Hv.
      destruct (IHQ _ _ He) as (Hc & Hs & Hr).
      * apply Hadd; [apply HQ; left|exact Hw].
      * intros y Hy. apply HQ. right. exact Hy.
      * split; [rewrite Hc; apply add_neighbor_frames|]. split; [|exact Hr].
        intros f Hf. apply Hs, Hsub, Hf.
    + rewrite expand_unvisited_O in He by exact Hv. discriminate.
  - rewrite expand_nil in He. injection He as <-. auto.
  - destruct (visited w x) eqn:Hv.
    + rewrite expand_visited in He by exact Hv.
      destruct (IHQ _ _ He) as (Hc & Hs & Hr).
      * apply Hadd; [apply HQ; left|exact Hw].
      * intros y Hy. apply HQ. right. exact Hy.
      * split; [rewrite Hc; apply add_neighbor_frames|]. split; [|exact Hr].
        intros f Hf. apply Hs, Hsub, Hf.
    + rewrite expand_unvisited_S in He by exact Hv.
      destruct (IHf _ _ _ He) as (Hc & Hs & Hr).
      * apply Hadd; [apply HQ; left|exact Hw].
      * intros y Hy.
        destruct (Z.leb_spec minPoints (Z.of_nat (length (nb x)))) as [Hcore|_].
        -- apply elem_of_app in Hy as [Hy|Hy]; [apply HQ; right; exact Hy|].
           apply (Hstep x y); [apply HQ; left|exact Hcore|exact Hy].
        -- apply HQ. right. exact Hy.
      * split; [rewrite Hc; apply (add_neighbor_frames x (set_Visited x w))|].
        split; [|exact Hr].
        intros f Hf. apply Hs, Hsub. exact Hf.
Qed.

(** What one iteration of the loop over [FramesToCluster] does to the
    clusters: nothing, or, for a core frame, one cluster is added: the
    sorted frames collected from the seed. *)
Lemma cluster_point_clusters (w w' : Work) (p : nat) :
  cluster_point M minPoints eps w p = Some w' →
  clusters w' = clusters w ∨
  (core p ∧ ∃ cf, clusters w' = clusters w ++ [unique (merge_sort Nat.le cf)] ∧
                  p ∈ cf ∧ ∀ f, f ∈ cf → reach p f).
Proof.
  unfold cluster_point. destruct (visited w p); [intros H; injection H as <-; auto|].
  destruct (Z.ltb_spec (Z.of_nat (length (nb p))) minPoints) as [_|Hcore].
  { intros H. injection H as <-. left. reflexivity. }
  destruct (expand _ _ _ _ _ _) as [w2|] eqn:He; [|discriminate].
  intros H. injection H as <-. right. split; [exact Hcore|].
  destruct (expand_closed (reach p) (reach_step M minPoints eps p) _ _ _ _ He)
    as (Hc & Hs & Hr).
  - cbn. intros f Hf. apply list_elem_of_singleton in Hf as ->. constructor.
  - intros x Hx. apply (reach_step M minPoints eps p p x); [constructor|exact Hcore|exact Hx].
  - exists (cluster_frames w2). cbn [clusters AddCluster]. rewrite Hc. cbn.
    split; [reflexivity|]. split; [|exact Hr]. apply Hs. cbn. left.
Qed.

Lemma cluster_loop_recorded (pts : list nat) :
  ∀ (w w' : Work),
    (∀ p, p ∈ pts → p ∈ FTC) → Forall (recorded M minPoints eps) (clusters w) →
    cluster_loop M minPoints eps pts w = Some w' → Forall (recorded M minPoints eps) (clusters w').
Proof.
  induction pts as [|p pts IH]; intros w w' HF Hw Hl.
  - cbn in Hl. injection Hl as <-. exact Hw.
  - rewrite cluster_loop_cons in Hl.
    destruct (cluster_point M minPoints eps w p) as [w1|] eqn:Hp; [|discriminate].
    cbn in Hl.
    apply (IH w1 w'); [intros q Hq; apply HF; right; exact Hq| |exact Hl].
    apply cluster_point_clusters in Hp as [->|(Hcore & cf & -> & Hin & Hr)]; [exact Hw|].
    apply Forall_app. split; [exact Hw|]. constructor; [|constructor].
    split; [apply sort_unique_sorted|].
    exists p. split; [apply elem_of_sort_unique; exact Hin|].
    split; [apply HF; left|]. split; [exact Hcore|].
    intros f Hf. apply Hr, elem_of_sort_unique, Hf.
Qed.

Lemma reachable_FTC (p f : nat) : p ∈ FTC → reach p f → f ∈ FTC.
Proof.
  intros Hp Hr. induction Hr as [|c f _ _ _ Hf]; [exact Hp|].
  apply elem_of_nb in Hf. tauto.
Qed.

Lemma cluster_work_recorded (w : Work) :
  cluster_work M minPoints eps = Some w → Forall (recorded M minPoints eps) (clusters w).
Proof.
  intros Hw. apply (cluster_loop_recorded FTC (initial_work M) w); [auto|constructor|exact Hw].
Qed.

End Shape.

(** X3. Every frame list that [Cluster] records is non-empty, strictly
    ascending (sorted, without duplicates) and holds only clustered
    frames: in range and not sieved. *)
Theorem cluster_lists_well_formed {Centroid : Type} `{!ClusterDist Centroid}
    (M : ClusterMatrix) (s : State Centroid) :
  ∃ s', Cluster M s = Some s' ∧
    ∀ cl, cl ∈ frameList <$> clusters_ s' →
      cl ≠ [] ∧ StronglySorted lt cl ∧
      ∀ f, f ∈ cl → (f < Nframes M)%nat ∧ IgnoringRow M f = false.
Proof.
  destruct (Cluster_spec M s) as (w & s' & Ew & Es & _ & HC & _).
  exists s'. split; [exact Es|]. rewrite HC. intros cl Hcl.
  pose proof (cluster_work_recorded M _ _ w Ew) as Hrec.
  rewrite Forall_forall in Hrec.
  destruct (Hrec cl Hcl) as (Hsorted & p & Hp & HpF & _ & Hreach).
  split; [intros ->; inversion Hp|]. split; [exact Hsorted|].
  intros f Hf. apply elem_of_FTC. apply (reachable_FTC M (minPoints_ s) (epsilon_ s) p f HpF), Hreach, Hf.
Qed.

(** X4. Every cluster that [Cluster] records holds a core frame, its
    seed, from which each of its frames is density-reachable: reached
    from the seed by a chain of core frames, each within epsilon of
    the next frame of the chain. *)
Theorem cluster_density_reachable {Centroid : Type} `{!ClusterDist Centroid}
    (M : ClusterMatrix) (s : State Centroid) :
  ∃ s', Cluster M s = Some s' ∧
    ∀ cl, cl ∈ frameList <$> clusters_ s' →
      ∃ p, p ∈ cl ∧ core M (minPoints_ s) (epsilon_ s) p ∧
           ∀ f, f ∈ cl → reachable M (minPoints_ s) (epsilon_ s) p f.
Proof.
  destruct (Cluster_spec M s) as (w & s' & Ew & Es & _ & HC & _).
  exists s'. split; [exact Es|]. rewrite HC. intros cl Hcl.
  pose proof (cluster_work_recorded M _ _ w Ew) as Hrec.
  rewrite Forall_forall in Hrec.
  destruct (Hrec cl Hcl) as (_ & p & Hp & _ & Hcore & Hreach).
  exists p. auto.
Qed.

(** *** Centroids and centroid distances *)

Lemma centroid_distances_length {Centroid : Type} `{!ClusterDist Centroid}
    (l : list (ClusterNode Centroid)) :
  (2 * length (centroid_distances l) = length l * (length l - 1))%nat.
Proof.
  induction l as [|C1 rest IH]; [reflexivity|].
  cbn [centroid_distances length]. rewrite length_app, length_map.
  destruct rest as [|C2 rest']; [reflexivity|].
  cbn [length] in *. nia.
Qed.

Lemma centroid_distances_pair {Centroid : Type} `{!ClusterDist Centroid}
    (l : list (ClusterNode Centroid)) :
  ∀ i j Ci Cj, (i < j)%nat → l !! i = Some Ci → l !! j = Some Cj →
    CentroidDist (Cent Ci) (Cent Cj) ∈ centroid_distances l.
Proof.
  induction l as [|C1 rest IH]; intros i j Ci Cj Hij Hi Hj; [discriminate|].
  cbn [centroid_distances]. apply elem_of_app.
  destruct j as [|j]; [lia|]. cbn in Hj.
  destruct i as [|i].
  - cbn in Hi. injection Hi as <-. left.
    apply list_elem_of_fmap. exists Cj. split; [reflexivity|].
    apply list_elem_of_lookup. exists j. exact Hj.
  - right. cbn in Hi. apply (IH i j); [lia|exact Hi|exact Hj].
Qed.

(** X5. [Cluster] leaves every cluster with the centroid of its frame
    list, and [ClusterDistances_] with one centroid distance for each
    unordered pair of clusters: n (n - 1) / 2 values for n clusters,
    among them the distance of every pair. *)
Theorem centroid_distances_per_pair {Centroid : Type} `{!ClusterDist Centroid}
    (M : ClusterMatrix) (s : State Centroid) :
  ∃ s', Cluster M s = Some s' ∧
    (∀ node, node ∈ clusters_ s' → Cent node = CalculateCentroid (frameList node)) ∧
    (2 * length (ClusterDistances_ s') =
       length (clusters_ s') * (length (clusters_ s') - 1))%nat ∧
    (∀ i j Ci Cj, (i < j)%nat →
       clusters_ s' !! i = Some Ci → clusters_ s' !! j = Some Cj →
       CentroidDist (Cent Ci) (Cent Cj) ∈ ClusterDistances_ s').
Proof.
  unfold Cluster.
  destruct (cluster_work_inv M (minPoints_ s) (epsilon_ s)) as (w & -> & _).
  eexists. split; [reflexivity|]. cbn [clusters_ ClusterDistances_].
  split; [|split].
  - intros node Hn. apply list_elem_of_fmap in Hn as (l & -> & _). reflexivity.
  - apply centroid_distances_length.
  - apply centroid_distances_pair.
Qed.

(** *** More on the restoration of sieved frames *)

Section SieveMore.

Context {Centroid : Type} `{!ClusterDist Centroid}.

(** The search for the closest centroid returns its start value or a
    strictly smaller distance, found at a position of the list; every
    cluster before that position is strictly farther away. *)
Lemma closest_from_first (frame : nat) (cls : list (ClusterNode Centroid)) :
  ∀ (idx : nat) (acc : float * option nat),
    let r := closest_from frame idx cls acc in
    r = acc ∨
    ((fst r <? fst acc)%float = true ∧
     ∃ k, snd r = Some (idx + k)%nat ∧
          ∀ k' node, (k' < k)%nat → cls !! k' = Some node →
            (FrameCentroidDist frame (Cent node) <=? fst r)%float = false).
Proof.
  induction cls as [|Cnode rest IH]; intros idx acc; cbn [closest_from]; cbv zeta;
    [left; reflexivity|].
  set (dist := FrameCentroidDist frame (Cent Cnode)).
  destruct (dist <? fst acc)%float eqn:Hlt.
  - right. destruct (IH (S idx) (dist, Some idx)) as [->|(Hless & k & Hk & Hfirst)];
      cbn [fst snd] in *.
    + split; [exact Hlt|]. exists 0%nat. split; [f_equal; lia|]. intros k' node Hk'. lia.
    + split; [apply (float_ltb_trans _ dist); assumption|].
      exists (S k). split; [rewrite Hk; f_equal; lia|].
      intros [|k'] node Hk' Hn; cbn in Hn.
      * injection Hn as <-. fold dist. apply float_ltb_not_leb. exact Hless.
      * apply (Hfirst k' node); [lia|exact Hn].
  - destruct (IH (S idx) acc) as [->|(Hless & k & Hk & Hfirst)]; [left; reflexivity|].
    right. split; [exact Hless|].
    exists (S k). split; [rewrite Hk; f_equal; lia|].
    intros [|k'] node Hk' Hn; cbn in Hn.
    + injection Hn as <-. fold dist.
      destruct (dist <=? _)%float eqn:Hle; [|reflexivity].
      rewrite (float_leb_ltb_trans _ _ _ Hle Hless) in Hlt. discriminate.
    + apply (Hfirst k' node); [lia|exact Hn].
Qed.

Lemma add_sieved_length (fts : list (nat * option nat)) :
  ∀ cls : list (ClusterNode Centroid), length (foldl add_sieved cls fts) = length cls.
Proof.
  induction fts as [|[f t] fts IH]; intros cls; [reflexivity|].
  cbn [foldl]. rewrite IH. unfold add_sieved. cbn [fst snd].
  destruct t; [apply length_alter|reflexivity].
Qed.

Lemma AddSievedFrames_length (M : ClusterMatrix) (s s' : State Centroid) :
  AddSievedFrames M s = Some s' → length (clusters_ s') = length (clusters_ s).
Proof.
  unfold AddSievedFrames. destruct (frameToCluster M s); [|discriminate].
  intros Hs. injection Hs as <-. apply add_sieved_length.
Qed.

(** X6. Restoring the sieved frames after [Cluster] keeps the number of
    clusters, every member and every centroid (no centroid is
    recomputed), adds only sieved frames, and leaves the clusters
    disjoint. *)
Theorem restoration_keeps_clusters_disjoint (M : ClusterMatrix) (s0 s s' : State Centroid) :
  Cluster M s0 = Some s → AddSievedFrames M s = Some s' →
  length (clusters_ s') = length (clusters_ s) ∧
  (∀ c node, clusters_ s !! c = Some node →
     ∃ node', clusters_ s' !! c = Some node' ∧ Cent node' = Cent node ∧
       (∀ f, f ∈ frameList node → f ∈ frameList node') ∧
       (∀ f, f ∈ frameList node' → f ∉ frameList node →
             (f < Nframes M)%nat ∧ IgnoringRow M f = true)) ∧
  (∀ f i j ni nj,
     clusters_ s' !! i = Some ni → clusters_ s' !! j = Some nj →
     f ∈ frameList ni → f ∈ frameList nj → i = j).
Proof.
  intros Hcl Hadd.
  pose proof (AddSievedFrames_length M s s' Hadd) as Hlen.
  split; [exact Hlen|]. split.
  - intros c node Hc.
    destruct (lookup_lt_is_Some_2 (clusters_ s') c) as (node' & Hc').
    { rewrite Hlen. apply lookup_lt_Some in Hc. exact Hc. }
    exists node'. split; [exact Hc'|].
    destruct (AddSievedFrames_members M s s' c node' Hadd Hc') as (node1 & H1 & HC & Hmem).
    assert (node1 = node) as -> by congruence.
    split; [exact HC|]. split.
    + intros f Hf. apply Hmem. left. exact Hf.
    + intros f Hf Hnot. apply Hmem in Hf as [Hf|(Hlt & Hign & _)]; [contradiction|auto].
  - destruct (Cluster_spec M s0) as (w & s1 & _ & Es & _ & HC & _ & _ & _ & HO & _).
    assert (s1 = s) as -> by congruence.
    assert (Hold : ∀ f c node, clusters_ s !! c = Some node → f ∈ frameList node →
              clusters w !! c = Some (frameList node) ∧ IgnoringRow M f = false).
    { intros f c node Hc Hf.
      assert (Hw : clusters w !! c = Some (frameList node))
        by (rewrite <- HC, list_lookup_fmap, Hc; reflexivity).
      split; [exact Hw|].
      assert (Hv : visited w f = true).
      { apply (clustered_visited M _ _ w f (frameList node) HO); [|exact Hf].
        apply list_elem_of_lookup. exists c. exact Hw. }
      apply (o_vis_ftc _ HO), elem_of_FTC in Hv. tauto. }
    intros f i j ni nj Hi Hj Hfi Hfj.
    destruct (AddSievedFrames_members M s s' i ni Hadd Hi) as (oi & Hoi & _ & Hmi).
    destruct (AddSievedFrames_members M s s' j nj Hadd Hj) as (oj & Hoj & _ & Hmj).
    apply Hmi in Hfi. apply Hmj in Hfj.
    destruct Hfi as [Hfi|(_ & Hsi & Hti)], Hfj as [Hfj|(_ & Hsj & Htj)].
    + destruct (Hold f i oi Hoi Hfi) as (Hwi & _).
      destruct (Hold f j oj Hoj Hfj) as (Hwj & _).
      apply (owners_unique f (clusters w) i j _ _
               (owners_le_1 M _ _ w f HO) Hwi Hwj Hfi Hfj).
    + destruct (Hold f i oi Hoi Hfi) as (_ & Hign). congruence.
    + destruct (Hold f j oj Hoj Hfj) as (_ & Hign). congruence.
    + congruence.
Qed.

(** X7. Under the centroid-only policy [AddSievedFrames] returns, and
    epsilon plays no part: a sieved frame goes to at most one cluster;
    it goes to one as soon as some centroid is closer than [DBL_MAX];
    and the cluster it goes to has a centroid closer than [DBL_MAX],
    no other centroid is strictly closer, and every cluster before it
    in the list is strictly farther away (of equally close clusters
    the first wins). *)
Theorem centroid_policy_first_closest (M : ClusterMatrix) (s : State Centroid) :
  sieveToCentroid_ s = true →
  ∃ s', AddSievedFrames M s = Some s' ∧
    ∀ f, (f < Nframes M)%nat → IgnoringRow M f = true →
      (∀ c node node',
         clusters_ s !! c = Some node → clusters_ s' !! c = Some node' →
         f ∈ frameList node' → f ∉ frameList node →
         (FrameCentroidDist f (Cent node) <? DBL_MAX)%float = true ∧
         (∀ c' n', clusters_ s !! c' = Some n' →
            (FrameCentroidDist f (Cent n') <? FrameCentroidDist f (Cent node))%float = false) ∧
         (∀ c' n', (c' < c)%nat → clusters_ s !! c' = Some n' →
            (FrameCentroidDist f (Cent n') <=? FrameCentroidDist f (Cent node))%float = false)) ∧
      (∀ c1 c2 n1 n2 n1' n2',
         clusters_ s !! c1 = Some n1 → clusters_ s' !! c1 = Some n1' →
         clusters_ s !! c2 = Some n2 → clusters_ s' !! c2 = Some n2' →
         f ∈ frameList n1' → f ∉ frameList n1 →
         f ∈ frameList n2' → f ∉ frameList n2 → c1 = c2) ∧
      ((∃ node, node ∈ clusters_ s ∧
                (FrameCentroidDist f (Cent node) <? DBL_MAX)%float = true) →
       ∃ c node', clusters_ s' !! c = Some node' ∧ f ∈ frameList node').
Proof.
  intros Hpol.
  destruct (AddSievedFrames M s) as [s'|] eqn:Hadd.
  2:{ exfalso. revert Hadd. unfold AddSievedFrames.
      assert (Hsome : is_Some (frameToCluster M s)).
      { apply mapM_is_Some_2, Forall_forall. intros f _. cbn.
        destruct (IgnoringRow M f); [|eauto]. apply sieve_frame_defined. left. exact Hpol. }
      destruct Hsome as [targets ->]. discriminate. }
  exists s'. split; [reflexivity|]. intros f Hlt Hign.
  assert (Hsf : sieve_frame s f = Some (snd (closest_centroid f (clusters_ s)))).
  { unfold sieve_frame. destruct (closest_centroid f (clusters_ s)) as [mindist minNode].
    rewrite Hpol. reflexivity. }
  assert (Hadded : ∀ c node node',
            clusters_ s !! c = Some node → clusters_ s' !! c = Some node' →
            f ∈ frameList node' → f ∉ frameList node →
            snd (closest_centroid f (clusters_ s)) = Some c).
  { intros c node node' Hc Hc' Hin Hnot.
    destruct (AddSievedFrames_members M s s' c node' Hadd Hc') as (node1 & H1 & _ & Hmem).
    assert (node1 = node) as -> by congruence.
    apply Hmem in Hin as [Hin|(_ & _ & Hs)]; [contradiction|]. congruence. }
  split; [|split].
  - intros c node node' Hc Hc' Hin Hnot.
    pose proof (Hadded c node node' Hc Hc' Hin Hnot) as Hsel.
    destruct (closest_centroid_spec f (clusters_ s)) as (Hmin & Hpos).
    rewrite Hsel in Hpos. destruct Hpos as (node2 & H2 & Hd).
    assert (node2 = node) as -> by congruence.
    unfold closest_centroid in *.
    destruct (closest_from_first f (clusters_ s) 0 (DBL_MAX, None))
      as [Heq|(Hless & k & Hk & Hfirst)].
    { rewrite Heq in Hsel. discriminate. }
    cbn [fst snd] in *. rewrite Hd in *.
    split; [exact Hless|]. split; [exact Hmin|].
    intros c' n' Hlt' Hn'. apply (Hfirst c' n'); [|exact Hn'].
    rewrite Hsel in Hk. injection Hk as ->. exact Hlt'.
  - intros c1 c2 n1 n2 n1' n2' H1 H1' H2 H2' Hin1 Hnot1 Hin2 Hnot2.
    pose proof (Hadded c1 n1 n1' H1 H1' Hin1 Hnot1) as Hs1.
    pose proof (Hadded c2 n2 n2' H2 H2' Hin2 Hnot2) as Hs2. congruence.
  - intros (node & Hnode & Hfin).
    destruct (closest_centroid_spec f (clusters_ s)) as (Hmin & Hpos).
    destruct (snd (closest_centroid f (clusters_ s))) as [c|] eqn:Hsel.
    + destruct Hpos as (nodec & Hc & _).
      destruct (lookup_lt_is_Some_2 (clusters_ s') c) as (node' & Hc').
      { rewrite (AddSievedFrames_length M s s' Hadd). apply lookup_lt_Some in Hc. exact Hc. }
      exists c, node'. split; [exact Hc'|].
      destruct (AddSievedFrames_members M s s' c node' Hadd Hc') as (node1 & _ & _ & Hmem).
      apply Hmem. right. auto.
    + exfalso. apply list_elem_of_lookup in Hnode as (k & Hk).
      specialize (Hmin k node Hk). rewrite Hpos in Hmin. congruence.
Qed.

End SieveMore.

(** *** The further properties on the examples *)

Lemma restoration_keeps_clusters_disjoint_witness :
  length (clusters_ example_restored) = length (clusters_ example_clustered).
Proof.
  apply (restoration_keeps_clusters_disjoint example_sieved example_config
           example_clustered example_restored).
  - vm_compute. reflexivity.
  - vm_compute. reflexivity.
Defined.

Lemma centroid_policy_first_closest_witness :
  ∃ s', AddSievedFrames example_sieved example_clustered_centroid = Some s' ∧
        ∃ c node', clusters_ s' !! c = Some node' ∧ 3%nat ∈ frameList node'.
Proof.
  destruct (centroid_policy_first_closest example_sieved example_clustered_centroid)
    as (s' & Hs' & Hall).
  - reflexivity.
  - exists s'. split; [exact Hs'|].
    destruct (Hall 3%nat) as (_ & _ & Hsome).
    + vm_compute. lia.
    + reflexivity.
    + apply Hsome. exists {| frameList := [0; 1; 2]%nat; Cent := 0%nat |}.
      split; [vm_compute; left|vm_compute; reflexivity].
Defined.

(** *** An epsilon that is not a number *)

Lemma RegionQuery_nan (M : ClusterMatrix) (eps : float) (p : nat) :
  is_nan eps = true → RegionQuery M eps p = [].
Proof.
  intros He. unfold RegionQuery.
  induction (FramesToCluster M) as [|x l IH]; [reflexivity|].
  rewrite filter_cons. rewrite IH. case_decide as Hd; [|reflexivity].
  destruct Hd as (_ & Hlt). rewrite (float_ltb_nan _ _ He) in Hlt. discriminate.
Qed.

(** X25. [SetupCluster] does not reject an epsilon that is not a number:
    the test [epsilon_ <= 0.0] is false for a NaN. [Cluster] then finds
    no frame within epsilon of another, records no cluster and marks
    every clustered frame Noise. *)
Theorem nan_epsilon_all_noise {Centroid : Type} `{!ClusterDist Centroid}
    (M : ClusterMatrix) (a : ArgList) (s : State Centroid) (n : Z) (e : float) :
  minpoints a = Some n → 1 ≤ n → epsilon a = Some e → is_nan e = true →
  snd (SetupCluster a s) = 0 ∧
  ∃ s', Cluster M (fst (SetupCluster a s)) = Some s' ∧
        clusters_ s' = [] ∧
        ∀ f, (f < Nframes M)%nat → IgnoringRow M f = false →
             Status_ s' !! f = Some NOISE.
Proof.
  intros Hn Hle He Hnan.
  assert (Hset : SetupCluster a s =
    ({| minPoints_ := n; epsilon_ := e; sieveToCentroid_ := negb (sievetoframe a);
        Status_ := Status_ s; clusters_ := clusters_ s;
        ClusterDistances_ := ClusterDistances_ s |}, 0)).
  { unfold SetupCluster, getKeyInt, getKeyDouble. rewrite Hn, He.
    cbn [default from_option id minPoints_ epsilon_ sieveToCentroid_ Status_ clusters_
         ClusterDistances_].
    destruct (Z.ltb_spec n 1) as [Hlt|_]; [lia|].
    rewrite (float_nan_leb e 0 Hnan). reflexivity. }
  rewrite Hset. cbn [fst snd]. split; [reflexivity|].
  match goal with |- ∃ s', Cluster M ?s0 = _ ∧ _ => set (s1 := s0) end.
  destruct (Cluster_spec M s1) as (w & s' & Ew & Es & HS & HC & _ & _ & _ & HO & Hall).
  cbn [minPoints_ epsilon_ s1] in Ew, HO, Hall.
  exists s'. split; [exact Es|].
  assert (Hcore : ∀ f, ¬ core M n e f).
  { intros f. unfold core. rewrite (RegionQuery_nan M e f Hnan). cbn. lia. }
  assert (Hnear : ∀ f, ¬ near_core M n e f).
  { intros f (c & _ & Hc & _). exact (Hcore c Hc). }
  split.
  - pose proof (cluster_work_recorded M n e w Ew) as Hrec.
    destruct (clusters w) as [|cl rest].
    + apply fmap_nil_inv in HC. exact HC.
    + exfalso. apply Forall_cons in Hrec as ((_ & p & _ & _ & Hp & _) & _).
      exact (Hcore p Hp).
  - intros f Hf Hig. rewrite HS. apply status_lookup_NOISE.
    apply (final_noise_iff M n e w f HO Hall).
    split; [apply elem_of_FTC; auto|]. split; [apply Hcore|apply Hnear].
Qed.

Lemma nan_epsilon_all_noise_witness :
  snd (SetupCluster {| minpoints := Some 2; epsilon := Some nan; sievetoframe := true |}
         (DBSCAN_new nat)) = 0 ∧
  ∃ s', Cluster example_sieved
          (fst (SetupCluster {| minpoints := Some 2; epsilon := Some nan;
                                sievetoframe := true |} (DBSCAN_new nat))) = Some s' ∧
        clusters_ s' = [] ∧
        ∀ f, (f < Nframes example_sieved)%nat → IgnoringRow example_sieved f = false →
             Status_ s' !! f = Some NOISE.
Proof.
  apply (nan_epsilon_all_noise example_sieved
           {| minpoints := Some 2; epsilon := Some nan; sievetoframe := true |}
           (DBSCAN_new nat) 2 nan).
  - reflexivity.
  - lia.
  - reflexivity.
  - reflexivity.
Defined.

End DBSCANFacts.

(** ** Properties of the data sets of doubles *)

Module DataSet_doubleFacts.

Import DataSet_double.

(** [Add] in one equation, and what follows for the places. *)
Lemma Add_appends_lemma (frame : nat) (vIn : float) (Data_ : list float) :
  Add frame vIn Data_ =
    Data_ ++ replicate (frame - length Data_) 0%float ++ [vIn] ∧
  length (Add frame vIn Data_) = S (Nat.max frame (length Data_)) ∧
  Add frame vIn Data_ !! Nat.max frame (length Data_) = Some vIn ∧
  ∀ i x, Data_ !! i = Some x → Add frame vIn Data_ !! i = Some x.
Proof.
  assert (Heq : Add frame vIn Data_ =
                Data_ ++ replicate (frame - length Data_) 0%float ++ [vIn]).
  { unfold Add. cbv zeta. destruct (Nat.ltb_spec (length Data_) frame) as [Hlt|Hge].
    - rewrite resize_ge by lia. rewrite <- app_assoc. reflexivity.
    - replace (frame - length Data_)%nat with 0%nat by lia. reflexivity. }
  split; [exact Heq|]. rewrite Heq. split; [|split].
  - rewrite !length_app, length_replicate. cbn. lia.
  - rewrite app_assoc. apply list_lookup_middle.
    rewrite length_app, length_replicate. lia.
  - intros i x Hi. apply lookup_app_l_Some. exact Hi.
Qed.

(** X18. [Add] never moves or changes a value that is stored: the data
    before is a prefix of the data after. The new value is always the
    last one; it lands at index [frame] when [frame] is at or beyond
    the size, with 0.0 in the places between, and at the end of the
    data, not at [frame], when [frame] is below the size. *)
Theorem Add_appends (frame : nat) (vIn : float) (Data_ : list float) :
  Add frame vIn Data_ =
    Data_ ++ replicate (frame - length Data_) 0%float ++ [vIn] ∧
  length (Add frame vIn Data_) = S (Nat.max frame (length Data_)) ∧
  Add frame vIn Data_ !! Nat.max frame (length Data_) = Some vIn ∧
  ∀ i x, Data_ !! i = Some x → Add frame vIn Data_ !! i = Some x.
Proof. exact (Add_appends_lemma frame vIn Data_). Qed.

(** X19. What is written for a frame: 0.0 for a frame without data; the
    value just added, when it was added for a frame at or beyond the
    size; and, when a value is added for a frame that has one, still
    the value stored before (there is no check for duplicate
    frames). *)
Theorem WriteBuffer_after_Add (frame : nat) (vIn : float) (Data_ : list float) :
  (∀ f, (length Data_ ≤ f)%nat → WriteBuffer f Data_ = 0%float) ∧
  ((length Data_ ≤ frame)%nat → WriteBuffer frame (Add frame vIn Data_) = vIn) ∧
  ((frame < length Data_)%nat →
     WriteBuffer frame (Add frame vIn Data_) = WriteBuffer frame Data_ ∧
     WriteBuffer (length Data_) (Add frame vIn Data_) = vIn).
Proof.
  destruct (Add_appends_lemma frame vIn Data_) as (_ & Hlen & Hlast & Hkeep).
  split; [|split].
  - intros f Hf. unfold WriteBuffer.
    destruct (Nat.leb_spec (length Data_) f); [reflexivity|lia].
  - intros Hge. unfold WriteBuffer. rewrite Hlen.
    destruct (Nat.leb_spec (S (Nat.max frame (length Data_))) frame); [lia|].
    apply list_lookup_total_correct.
    replace (Nat.max frame (length Data_)) with frame in Hlast by lia. exact Hlast.
  - intros Hlt. unfold WriteBuffer. rewrite Hlen.
    destruct (Nat.leb_spec (S (Nat.max frame (length Data_))) frame); [lia|].
    destruct (Nat.leb_spec (length Data_) frame); [lia|].
    destruct (Nat.leb_spec (S (Nat.max frame (length Data_))) (length Data_)); [lia|].
    split.
    + destruct (lookup_lt_is_Some_2 Data_ frame Hlt) as (x & Hx).
      rewrite (list_lookup_total_correct _ _ _ Hx).
      apply list_lookup_total_correct, Hkeep, Hx.
    + apply list_lookup_total_correct.
      replace (Nat.max frame (length Data_)) with (length Data_) in Hlast by lia.
      exact Hlast.
Qed.

Lemma add_frames_cons (first : nat) (v : float) (values : list float) (Data_ : list float) :
  add_frames first (v :: values) Data_ = add_frames (S first) values (Add first v Data_).
Proof. reflexivity. Qed.

Lemma add_frames_next (values : list float) :
  ∀ (first : nat) (Data_ : list float),
    (first ≤ length Data_)%nat → add_frames first values Data_ = Data_ ++ values.
Proof.
  induction values as [|v values IH]; intros first Data_ Hle.
  - cbn. rewrite app_nil_r. reflexivity.
  - rewrite add_frames_cons.
    destruct (Add_appends_lemma first v Data_) as (Heq & Hlen & _).
    rewrite IH by (rewrite Hlen; lia). rewrite Heq.
    replace (first - length Data_)%nat with 0%nat by lia.
    cbn [replicate app]. rewrite <- app_assoc. reflexivity.
Qed.

(** X20. Values added frame by frame, for the frames [first],
    [first + 1], ..., are stored in that order behind the data that
    was there, after [first - size] places of 0.0 when [first] is
    beyond the size. On an empty set and from frame 0 the data is
    the list of values, and what is written for frame [f] is the
    value added for [f]. *)
Theorem add_frames_in_order (first : nat) (v : float) (values : list float)
    (Data_ : list float) :
  add_frames first (v :: values) Data_ =
    Data_ ++ replicate (first - length Data_) 0%float ++ v :: values ∧
  add_frames 0 (v :: values) [] = v :: values ∧
  ∀ f x, (v :: values) !! f = Some x →
         WriteBuffer f (add_frames 0 (v :: values) []) = x.
Proof.
  assert (Hgen : ∀ first Data_,
            add_frames first (v :: values) Data_ =
            Data_ ++ replicate (first - length Data_) 0%float ++ v :: values).
  { intros fr d. rewrite add_frames_cons.
    destruct (Add_appends_lemma fr v d) as (Heq & Hlen & _).
    rewrite add_frames_next by (rewrite Hlen; lia).
    rewrite Heq, <- !app_assoc. reflexivity. }
  split; [apply Hgen|].
  assert (H0 : add_frames 0 (v :: values) [] = v :: values) by (rewrite Hgen; reflexivity).
  split; [exact H0|].
  intros f x Hf. rewrite H0. unfold WriteBuffer.
  pose proof (lookup_lt_Some _ _ _ Hf) as Hlt.
  destruct (Nat.leb_spec (length (v :: values)) f); [lia|].
  apply list_lookup_total_correct, Hf.
Qed.

Lemma copy_at_spec (dataIn : list float) :
  ∀ (pre : list float),
    foldl (λ '(d, i) x, (<[i := x]> d, S i))
          (pre ++ replicate (length dataIn) 0%float, length pre) dataIn =
    (pre ++ dataIn, (length pre + length dataIn)%nat).
Proof.
  induction dataIn as [|x rest IH]; intros pre.
  - cbn. rewrite Nat.add_0_r. reflexivity.
  - cbn [foldl length replicate].
    replace (<[length pre := x]> (pre ++ 0%float :: replicate (length rest) 0%float))
      with ((pre ++ [x]) ++ replicate (length rest) 0%float).
    + replace (S (length pre)) with (length (pre ++ [x]))
        by (rewrite length_app; cbn; lia).
      rewrite IH, <- app_assoc, length_app. cbn. f_equal. lia.
    + rewrite <- app_assoc. cbn.
      rewrite insert_app_r_alt by lia. rewrite Nat.sub_diag. reflexivity.
Qed.

Lemma push_loop_spec (dval : nat → float) (n : nat) (Data_ : list float) :
  for_loop n (λ d i, d ++ [dval i]) Data_ = Data_ ++ map dval (seq 0 n).
Proof.
  induction n as [|n IH]; [cbn; rewrite app_nil_r; reflexivity|].
  rewrite for_loop_S, IH, seq_S, map_app, app_assoc. reflexivity.
Qed.

(** X21. [Append] fails (returns 1) exactly on an argument that is not
    empty and not one-dimensional, and then, as for an empty argument,
    the data is as before. Otherwise the values of the argument, the
    vector of a set of doubles or [Dval(0)], ..., [Dval(Size - 1)] of
    another set, follow the data that was there: no value stored
    before is moved or changed. *)
Theorem Append_concatenates (dsIn : DataSetArg) (Data_ : list float) :
  let values := if is_DOUBLE dsIn then Data_in dsIn
                else map (Dval dsIn) (seq 0 (Size dsIn)) in
  (snd (Append dsIn Data_) = 1 ↔ Empty dsIn = false ∧ is_SCALAR_1D dsIn = false) ∧
  (snd (Append dsIn Data_) = 0 ∨ snd (Append dsIn Data_) = 1) ∧
  fst (Append dsIn Data_) =
    (if Empty dsIn || negb (is_SCALAR_1D dsIn) then Data_ else Data_ ++ values).
Proof.
  cbv zeta. unfold Append.
  destruct (Empty dsIn); cbn [orb negb fst snd].
  { split; [split; [discriminate|intros [? _]; discriminate]|]. auto. }
  destruct (is_SCALAR_1D dsIn); cbn [negb fst snd]; [|split; [tauto|auto]].
  destruct (is_DOUBLE dsIn); cbv zeta; cbn [fst snd].
  - split; [split; [discriminate|intros [_ ?]; discriminate]|]. split; [auto|].
    unfold copy_at. rewrite resize_ge by lia.
    replace (length Data_ + length (Data_in dsIn) - length Data_)%nat
      with (length (Data_in dsIn)) by lia.
    rewrite copy_at_spec. reflexivity.
  - split; [split; [discriminate|intros [_ ?]; discriminate]|]. split; [auto|].
    apply push_loop_spec.
Qed.

(** *** The properties on examples *)

Lemma Add_appends_witness :
  DataSet_double.Add 3 2.5%float [1%float] !! 0%nat = Some 1%float.
Proof.
  apply (proj2 (proj2 (proj2 (Add_appends 3 2.5%float [1%float]))) 0%nat 1%float).
  reflexivity.
Defined.

Lemma WriteBuffer_after_Add_witness :
  WriteBuffer 3 (DataSet_double.Add 3 2.5%float [1%float]) = 2.5%float.
Proof.
  apply (proj1 (proj2 (WriteBuffer_after_Add 3 2.5%float [1%float]))).
  cbn. lia.
Defined.

Lemma add_frames_in_order_witness :
  WriteBuffer 1 (add_frames 0 [1%float; 2%float] []) = 2%float.
Proof.
  apply (proj2 (proj2 (add_frames_in_order 0 1%float [2%float] [])) 1%nat 2%float).
  reflexivity.
Defined.

End DataSet_doubleFacts.

(** ** Properties of the restraint reader and recorder *)

Module NMRrstFacts.

Import NMRrst.

Section ReaderFacts.

Variable sscanf : string → Scan.
Variable resOffset_ : Z.

(** The loop over the lines, line by line. *)
Lemma ReadAmber_lines_spec (lines : list string) :
  ∀ NOEs_ : list noeDataType,
    ∃ added,
      fst (ReadAmber_lines sscanf resOffset_ lines NOEs_) = NOEs_ ++ added ∧
      Forall (λ NOE, 1 ≤ resNum1_ NOE ∧ 1 ≤ resNum2_ NOE ∧ rexp_ NOE = (-1)%float ∧
                     ∃ ptr, ptr ∈ lines ∧ restraint_line sscanf ptr = true ∧
                            NOE = scanned_NOE resOffset_ (sscanf ptr)) added ∧
      (length added ≤ length (filter (λ ptr, restraint_line sscanf ptr = true) lines))%nat ∧
      (snd (ReadAmber_lines sscanf resOffset_ lines NOEs_) = 1 ↔
       ∃ ptr, ptr ∈ lines ∧ bad_line sscanf ptr = true) ∧
      (snd (ReadAmber_lines sscanf resOffset_ lines NOEs_) = 0 ∨
       snd (ReadAmber_lines sscanf resOffset_ lines NOEs_) = 1).
Proof.
  induction lines as [|ptr rest IH]; intros NOEs_.
  - exists []. cbn. rewrite app_nil_r. split; [reflexivity|]. split; [constructor|].
    split; [lia|]. split; [|auto].
    split; [discriminate|]. intros (p & Hp & _). inversion Hp.
  - assert (Hlift : ∀ added,
              Forall (λ NOE, 1 ≤ resNum1_ NOE ∧ 1 ≤ resNum2_ NOE ∧ rexp_ NOE = (-1)%float ∧
                             ∃ p, p ∈ rest ∧ restraint_line sscanf p = true ∧
                                  NOE = scanned_NOE resOffset_ (sscanf p)) added →
              Forall (λ NOE, 1 ≤ resNum1_ NOE ∧ 1 ≤ resNum2_ NOE ∧ rexp_ NOE = (-1)%float ∧
                             ∃ p, p ∈ ptr :: rest ∧ restraint_line sscanf p = true ∧
                                  NOE = scanned_NOE resOffset_ (sscanf p)) added).
    { intros added Hadded. eapply Forall_impl; [exact Hadded|]. cbn beta.
      intros NOE (H1 & H2 & H3 & p & Hp & Hr & He).
      repeat split; try assumption. exists p. split; [right; exact Hp|auto]. }
    cbn [ReadAmber_lines]. cbv zeta. unfold restraint_line, bad_line in *.
    destruct (SkipChar ptr) eqn:Hskip.
    + destruct (IH NOEs_) as (added & Heq & Hall & Hlen & Herr & Hret).
      exists added. split; [exact Heq|]. split; [apply Hlift, Hall|].
      rewrite filter_cons_False by (rewrite Hskip; discriminate).
      split; [exact Hlen|]. split; [|exact Hret].
      rewrite Herr. split.
      * intros (p & Hp & Hb). exists p. split; [right; exact Hp|exact Hb].
      * intros (p & Hp & Hb). apply elem_of_cons in Hp as [->|Hp].
        -- rewrite Hskip in Hb. discriminate.
        -- exists p. auto.
    + destruct ((cols (sscanf ptr) =? 7) || (cols (sscanf ptr) =? 8)) eqn:Hcols.
      * rewrite filter_cons_True by (rewrite Hskip, Hcols; reflexivity). cbn [length].
        assert (Herr0 : ∀ X : Prop,
                  (X ↔ ∃ p, p ∈ rest ∧ negb (SkipChar p) &&
                         negb ((cols (sscanf p) =? 7) || (cols (sscanf p) =? 8)) = true) →
                  (X ↔ ∃ p, p ∈ ptr :: rest ∧ negb (SkipChar p) &&
                         negb ((cols (sscanf p) =? 7) || (cols (sscanf p) =? 8)) = true)).
        { intros X HX. rewrite HX. split.
          - intros (p & Hp & Hb). exists p. split; [right; exact Hp|exact Hb].
          - intros (p & Hp & Hb). apply elem_of_cons in Hp as [->|Hp].
            + rewrite Hcols, andb_false_r in Hb. discriminate.
            + exists p. auto. }
        destruct ((resNum1_ (scanned_NOE resOffset_ (sscanf ptr)) <? 1) ||
                  (resNum2_ (scanned_NOE resOffset_ (sscanf ptr)) <? 1)) eqn:Hout.
        -- destruct (IH NOEs_) as (added & Heq & Hall & Hlen & Herr & Hret).
           exists added. split; [exact Heq|]. split; [apply Hlift, Hall|].
           split; [lia|]. split; [apply Herr0, Herr|exact Hret].
        -- destruct (IH (NOEs_ ++ [scanned_NOE resOffset_ (sscanf ptr)]))
             as (added & Heq & Hall & Hlen & Herr & Hret).
           exists (scanned_NOE resOffset_ (sscanf ptr) :: added).
           split; [rewrite Heq, <- app_assoc; reflexivity|].
           split; [|split; [cbn; lia|split; [apply Herr0, Herr|exact Hret]]].
           constructor; [|apply Hlift, Hall].
           apply orb_false_elim in Hout as (H1 & H2).
           apply Z.ltb_ge in H1, H2.
           split; [exact H1|]. split; [exact H2|]. split; [reflexivity|].
           exists ptr. split; [left|]. rewrite Hskip, Hcols. auto.
      * exists []. cbn [fst snd]. rewrite app_nil_r. split; [reflexivity|].
        split; [constructor|]. split; [cbn; lia|]. split; [|auto].
        split; [|reflexivity]. intros _. exists ptr. split; [left|].
        rewrite Hskip, Hcols. reflexivity.
Qed.

(** An [int] sum lies in the range of [int], and is the sum of the
    integers when that lies in the range. *)
Lemma int_add_range (a b : Z) : INT_MIN ≤ int_add a b ≤ INT_MAX.
Proof.
  unfold int_add, INT_MIN, INT_MAX.
  pose proof (Z.mod_pos_bound (a + b + 2 ^ 31) (2 ^ 32) ltac:(lia)). lia.
Qed.

Lemma int_add_exact (a b : Z) :
  INT_MIN ≤ a + b ≤ INT_MAX → int_add a b = a + b.
Proof.
  unfold int_add, INT_MIN, INT_MAX. intros Hr.
  rewrite Z.mod_small by lia. lia.
Qed.

(** X22. The restraints that [ReadAmber] stores: those that were there
    stay, in front; every one it adds comes from a line of the file
    that is no comment and has 7 or 8 columns, has the exponent -1 and
    both residue numbers between 1 and [INT_MAX]; and no line gives
    more than one. A residue number is the [int] sum of the number
    read and the offset, [(n + resOffset_ + 2^31) mod 2^32 - 2^31]:
    the sum of the two integers when that is an [int], and wrapped
    around otherwise. A line whose residue number falls below 1, also
    by wrapping around, is dropped without ending the reading. *)
Theorem ReadAmber_stores_valid_restraints (lines : list string)
    (NOEs_ : list noeDataType) :
  ∃ added,
    fst (ReadAmber sscanf resOffset_ lines NOEs_) = NOEs_ ++ added ∧
    Forall (λ NOE, 1 ≤ resNum1_ NOE ≤ INT_MAX ∧ 1 ≤ resNum2_ NOE ≤ INT_MAX ∧
                   rexp_ NOE = (-1)%float ∧
                   ∃ ptr, ptr ∈ lines ∧ restraint_line sscanf ptr = true ∧
                          NOE = scanned_NOE resOffset_ (sscanf ptr) ∧
                          resNum1_ NOE =
                            (scan_resNum1 (sscanf ptr) + resOffset_ + 2 ^ 31) mod 2 ^ 32
                            - 2 ^ 31 ∧
                          resNum2_ NOE =
                            (scan_resNum2 (sscanf ptr) + resOffset_ + 2 ^ 31) mod 2 ^ 32
                            - 2 ^ 31 ∧
                          (INT_MIN ≤ scan_resNum1 (sscanf ptr) + resOffset_ ≤ INT_MAX →
                           resNum1_ NOE = scan_resNum1 (sscanf ptr) + resOffset_) ∧
                          (INT_MIN ≤ scan_resNum2 (sscanf ptr) + resOffset_ ≤ INT_MAX →
                           resNum2_ NOE = scan_resNum2 (sscanf ptr) + resOffset_)) added ∧
    (length added ≤ length (filter (λ ptr, restraint_line sscanf ptr = true) lines))%nat.
Proof.
  assert (Hstrong : ∀ added,
    Forall (λ NOE, 1 ≤ resNum1_ NOE ∧ 1 ≤ resNum2_ NOE ∧ rexp_ NOE = (-1)%float ∧
                   ∃ ptr, ptr ∈ lines ∧ restraint_line sscanf ptr = true ∧
                          NOE = scanned_NOE resOffset_ (sscanf ptr)) added →
    Forall (λ NOE, 1 ≤ resNum1_ NOE ≤ INT_MAX ∧ 1 ≤ resNum2_ NOE ≤ INT_MAX ∧
                   rexp_ NOE = (-1)%float ∧
                   ∃ ptr, ptr ∈ lines ∧ restraint_line sscanf ptr = true ∧
                          NOE = scanned_NOE resOffset_ (sscanf ptr) ∧
                          resNum1_ NOE =
                            (scan_resNum1 (sscanf ptr) + resOffset_ + 2 ^ 31) mod 2 ^ 32
                            - 2 ^ 31 ∧
                          resNum2_ NOE =
                            (scan_resNum2 (sscanf ptr) + resOffset_ + 2 ^ 31) mod 2 ^ 32
                            - 2 ^ 31 ∧
                          (INT_MIN ≤ scan_resNum1 (sscanf ptr) + resOffset_ ≤ INT_MAX →
                           resNum1_ NOE = scan_resNum1 (sscanf ptr) + resOffset_) ∧
                          (INT_MIN ≤ scan_resNum2 (sscanf ptr) + resOffset_ ≤ INT_MAX →
                           resNum2_ NOE = scan_resNum2 (sscanf ptr) + resOffset_)) added).
  { intros added Hadded. eapply Forall_impl; [exact Hadded|]. cbn beta.
    intros NOE (H1 & H2 & H3 & ptr & Hptr & Hline & ->).
    cbn [scanned_NOE resNum1_ resNum2_ rexp_] in *.
    pose proof (int_add_range (scan_resNum1 (sscanf ptr)) resOffset_) as (_ & Hr1).
    pose proof (int_add_range (scan_resNum2 (sscanf ptr)) resOffset_) as (_ & Hr2).
    split; [lia|]. split; [lia|]. split; [reflexivity|].
    exists ptr. split; [exact Hptr|]. split; [exact Hline|].
    split; [reflexivity|]. split; [reflexivity|]. split; [reflexivity|].
    split; apply int_add_exact. }
  destruct lines as [|ptr rest].
  - exists []. cbn. rewrite app_nil_r. split; [reflexivity|]. split; [constructor|lia].
  - destruct (ReadAmber_lines_spec (ptr :: rest) NOEs_) as (added & Heq & Hall & Hlen & _).
    exists added. split; [exact Heq|]. split; [apply Hstrong, Hall|exact Hlen].
Qed.

(** X23. [ReadAmber] returns 1 exactly for a file without lines or with
    a line that is no comment and does not have 7 or 8 columns;
    otherwise it returns 0. The reading stops at the first such line:
    the restraints of the lines before it are stored, the lines after
    it are not read. *)
Theorem ReadAmber_error_iff (lines : list string) (NOEs_ : list noeDataType) :
  (snd (ReadAmber sscanf resOffset_ lines NOEs_) = 1 ↔
   lines = [] ∨ ∃ ptr, ptr ∈ lines ∧ bad_line sscanf ptr = true) ∧
  (snd (ReadAmber sscanf resOffset_ lines NOEs_) = 0 ∨
   snd (ReadAmber sscanf resOffset_ lines NOEs_) = 1) ∧
  ∀ pre ptr post,
    lines = pre ++ ptr :: post → bad_line sscanf ptr = true →
    (∀ p, p ∈ pre → bad_line sscanf p = false) →
    ReadAmber sscanf resOffset_ lines NOEs_ =
      (fst (ReadAmber_lines sscanf resOffset_ pre NOEs_), 1).
Proof.
  split; [|split].
  - destruct lines as [|ptr rest]; [cbn; split; [auto|reflexivity]|].
    destruct (ReadAmber_lines_spec (ptr :: rest) NOEs_) as (_ & _ & _ & _ & Herr & _).
    cbn [ReadAmber]. rewrite Herr. split; [auto|]. intros [Hnil|H]; [discriminate|exact H].
  - destruct lines as [|ptr rest]; [cbn; auto|].
    destruct (ReadAmber_lines_spec (ptr :: rest) NOEs_) as (_ & _ & _ & _ & _ & Hret).
    exact Hret.
  - intros pre ptr post -> Hbad Hpre.
    assert (Hgo : ∀ N, ReadAmber_lines sscanf resOffset_ (pre ++ ptr :: post) N =
                       (fst (ReadAmber_lines sscanf resOffset_ pre N), 1)).
    { clear NOEs_. induction pre as [|p pre IH]; intros N.
      - cbn [app ReadAmber_lines fst]. cbv zeta. unfold bad_line in Hbad.
        apply andb_prop in Hbad as (Hs & Hc).
        apply negb_true_iff in Hs, Hc. rewrite Hs, Hc. reflexivity.
      - assert (Hp : bad_line sscanf p = false) by (apply Hpre; left).
        assert (IH' := IH (λ q Hq, Hpre q ltac:(right; exact Hq))).
        cbn [app ReadAmber_lines]. cbv zeta. unfold bad_line in Hp.
        destruct (SkipChar p); [apply IH'|]. cbn [negb andb] in Hp.
        apply negb_false_iff in Hp. rewrite Hp.
        destruct ((resNum1_ (scanned_NOE resOffset_ (sscanf p)) <? 1) ||
                  (resNum2_ (scanned_NOE resOffset_ (sscanf p)) <? 1)); apply IH'. }
    destruct pre; apply Hgo.
Qed.

End ReaderFacts.

(** *** Recording the distances *)

Lemma DoAction_lookup (frameNum : nat) (DIST2 : nat → float)
    (NOEs_ : list (bool * list float)) (i : nat) (active : bool) (d : list float) :
  NOEs_ !! i = Some (active, d) →
  DoAction frameNum DIST2 NOEs_ !! i =
    Some (active, if active then DataSet_double.Add frameNum (PrimFloat.sqrt (DIST2 i)) d else d).
Proof.
  intros Hi. unfold DoAction. rewrite list_lookup_imap, Hi. cbn.
  destruct active; reflexivity.
Qed.

Lemma run_frames_lookup (frames : list (nat → float)) :
  ∀ (first : nat) (NOEs_ : list (bool * list float)) (i : nat) (active : bool)
    (d : list float),
    NOEs_ !! i = Some (active, d) →
    run_frames first frames NOEs_ !! i =
      Some (active,
            if active
            then DataSet_double.add_frames first (map (λ DIST2, PrimFloat.sqrt (DIST2 i)) frames) d
            else d).
Proof.
  induction frames as [|DIST2 frames IH]; intros first NOEs_ i active d Hi.
  - cbn. rewrite Hi. destruct active; reflexivity.
  - unfold run_frames. cbn [foldl]. fold (run_frames (S first) frames (DoAction first DIST2 NOEs_)).
    rewrite (IH (S first) _ i active _ (DoAction_lookup first DIST2 NOEs_ i active d Hi)).
    destruct active; reflexivity.
Qed.

(** X24. Over a run of frames numbered from 0, the set of an active
    restraint that starts empty receives one value per frame: the
    value for frame [f] is the square root of the squared distance
    that frame [f] gives for the restraint. The set of an inactive
    restraint receives nothing; and the restraints keep their number
    and their flags. *)
Theorem run_records_distances (frames : list (nat → float))
    (NOEs_ : list (bool * list float)) :
  length (run_frames 0 frames NOEs_) = length NOEs_ ∧
  ∀ i active d, NOEs_ !! i = Some (active, d) →
    ∃ d', run_frames 0 frames NOEs_ !! i = Some (active, d') ∧
          (active = false → d' = d) ∧
          (active = true → d = [] →
             d' = map (λ DIST2, PrimFloat.sqrt (DIST2 i)) frames ∧
             ∀ f DIST2, frames !! f = Some DIST2 →
                        DataSet_double.WriteBuffer f d' = PrimFloat.sqrt (DIST2 i)).
Proof.
  split.
  - unfold run_frames. generalize 0%nat. revert NOEs_.
    induction frames as [|DIST2 frames IH]; intros NOEs_ first; [reflexivity|].
    cbn [foldl]. rewrite IH. unfold DoAction. apply length_imap.
  - intros i active d Hi. eexists. split; [apply (run_frames_lookup frames 0 NOEs_ i), Hi|].
    split; [intros ->; reflexivity|]. intros -> ->.
    assert (Hd : DataSet_double.add_frames 0 (map (λ DIST2, PrimFloat.sqrt (DIST2 i)) frames) [] =
                 map (λ DIST2, PrimFloat.sqrt (DIST2 i)) frames).
    { apply (DataSet_doubleFacts.add_frames_next _ 0 []). cbn. lia. }
    rewrite Hd. split; [reflexivity|].
    intros f DIST2 Hf. unfold DataSet_double.WriteBuffer.
    assert (Hl : map (λ D : nat → float, PrimFloat.sqrt (D i)) frames !! f = Some (PrimFloat.sqrt (DIST2 i))).
    { change (map (λ D : nat → float, PrimFloat.sqrt (D i)) frames)
        with ((λ D : nat → float, PrimFloat.sqrt (D i)) <$> frames).
      rewrite list_lookup_fmap, Hf. reflexivity. }
    pose proof (lookup_lt_Some _ _ _ Hl) as Hlt.
    destruct (Nat.leb_spec (length (map (λ D : nat → float, PrimFloat.sqrt (D i)) frames)) f); [lia|].
    apply list_lookup_total_correct, Hl.
Qed.

(** *** The properties on examples *)

(** With the offset [INT_MAX] the residue numbers 1 and 5 of the
    first restraint of the example wrap around to negative numbers:
    the line is dropped, as is the one with the residue number 0. *)
Lemma ReadAmber_offset_wraps :
  scanned_NOE INT_MAX (example_sscanf "1 ALA HA 5 GLY H 4.5") =
    {| resNum1_ := INT_MIN; resNum2_ := INT_MIN + 4; aName1_ := "HA"; aName2_ := "H";
       bound_ := 0; boundh_ := 4.5; rexp_ := -1 |} ∧
  fst (ReadAmber example_sscanf INT_MAX (take 3 example_file) []) = [].
Proof. split; reflexivity. Qed.

Lemma ReadAmber_stores_valid_restraints_witness :
  ∃ NOE, fst (ReadAmber example_sscanf 0 example_file []) = [NOE] ∧
         resNum1_ NOE = 1 ∧ resNum2_ NOE = 5.
Proof.
  destruct (ReadAmber_stores_valid_restraints example_sscanf 0 example_file [])
    as (added & Heq & Hall & Hlen).
  destruct added as [|NOE [|NOE' added]].
  - exfalso. vm_compute in Heq. discriminate Heq.
  - exists NOE. split; [exact Heq|].
    vm_compute in Heq. injection Heq as <-. split; reflexivity.
  - exfalso. vm_compute in Heq. discriminate Heq.
Defined.

Lemma ReadAmber_error_iff_witness :
  ReadAmber example_sscanf 0 example_file [] =
    (fst (ReadAmber_lines example_sscanf 0
            ["# restraints"; "1 ALA HA 5 GLY H 4.5"; "0 ALA QA 3 GLY H 2.0 5.0"]%string []),
     1).
Proof.
  apply (proj2 (proj2 (ReadAmber_error_iff example_sscanf 0 example_file []))
           ["# restraints"; "1 ALA HA 5 GLY H 4.5"; "0 ALA QA 3 GLY H 2.0 5.0"]%string
           "no restraint"%string []).
  - reflexivity.
  - reflexivity.
  - intros p Hp. rewrite !elem_of_cons, elem_of_nil in Hp.
    destruct Hp as [->|[->|[->|[]]]]; reflexivity.
Defined.

Lemma run_records_distances_witness :
  ∃ d', run_frames 0 example_frames example_NOEs !! 0%nat = Some (true, d') ∧
        (true = false → d' = []) ∧
        (true = true → @nil float = [] →
           d' = map (λ DIST2 : nat → float, PrimFloat.sqrt (DIST2 0%nat)) example_frames ∧
           ∀ f DIST2, example_frames !! f = Some DIST2 →
                      DataSet_double.WriteBuffer f d' = PrimFloat.sqrt (DIST2 0%nat)).
Proof.
  apply (proj2 (run_records_distances example_frames example_NOEs) 0%nat true []).
  reflexivity.
Defined.

End NMRrstFacts.
